(** * model-selector: query-to-ranking pipeline and fallback execution engine

    A shallow embedding of the TypeScript sources
    - [query/parser.ts]   (parseToken, parseValue, expandAliases, parseQuery)
    - [query/matcher.ts]  (evaluateCondition, matchModel, normalizeScore)
    - [index.ts]          (rankModels, selectModel, selectModels,
                           selectModelsDetailed)
    - [config/loader.ts]  (getEnabledModels, resolveEnvVars,
                           processModelConfig, mergeConfigs, loadConfig)
    - [wrapper/errors.ts] (classifyError and its pattern tables)
    - [wrapper/executor.ts] (withTimeout, executeWithRetry, executeWithFallbacks)
    - [wrapper/generate.ts], [wrapper/object.ts] (generate, generateObject,
                           stream, streamObject)
    - [wrapper/embed.ts]  (selectEmbeddingModels)
    followed by the properties established about them. *)

From Stdlib Require Import ZArith QArith Ascii String List Lia Lqa Bool
  Permutation Sorted DecimalString.
From stdpp Require Import base gmap strings list.

Local Open Scope Z_scope.

(* ================================================================== *)
(** ** JavaScript strings *)
(* ================================================================== *)

(** A JavaScript string is a sequence of code units.  The development
    works with code units in the 8-bit range, which covers every
    character the regular expressions of the sources mention. *)
Module JsString.

Abbreviation str := (list ascii).

Definition lit (s : string) : str := list_ascii_of_string s.

Definition code (c : ascii) : N := N_of_ascii c.

Definition inRange (lo hi c : ascii) : bool :=
  ((code lo <=? code c) && (code c <=? code hi))%N.

(** [WhiteSpace] and [LineTerminator] of ECMAScript: what [\s] and
    [String.prototype.trim] remove (TAB, LF, VT, FF, CR, SP, NBSP). *)
Definition isWhiteSpace (c : ascii) : bool :=
  (((9 <=? code c) && (code c <=? 13)) || (code c =? 32) || (code c =? 160))%N.

(** What [.] refuses to match: LF and CR. *)
Definition isLineTerminator (c : ascii) : bool :=
  ((code c =? 10) || (code c =? 13))%N.

(** [\d] *)
Definition isDigit (c : ascii) : bool := inRange "0" "9" c.

Definition isLower (c : ascii) : bool := inRange "a" "z" c.
Definition isUpper (c : ascii) : bool := inRange "A" "Z" c.

(** Case folding of the [i] flag; only ASCII letters fold onto ASCII
    letters in a non-unicode regular expression. *)
Definition toLower (c : ascii) : ascii :=
  if isUpper c then ascii_of_N (code c + 32) else c.

(** [[a-z_]] and [[a-z0-9_]] under the [i] flag *)
Definition isIdStart (c : ascii) : bool :=
  isLower c || isUpper c || Ascii.eqb c "_".
Definition isIdChar (c : ascii) : bool := isIdStart c || isDigit c.

Fixpoint strEqb (a b : str) : bool :=
  match a, b with
  | [], [] => true
  | x :: a', y :: b' => Ascii.eqb x y && strEqb a' b'
  | _, _ => false
  end.

Definition isEmpty (s : str) : bool :=
  match s with [] => true | _ => false end.

Fixpoint dropWhile (p : ascii -> bool) (s : str) : str :=
  match s with
  | [] => []
  | c :: r => if p c then dropWhile p r else s
  end.

Fixpoint takeWhile (p : ascii -> bool) (s : str) : str :=
  match s with
  | [] => []
  | c :: r => if p c then c :: takeWhile p r else []
  end.

Definition trimStart (s : str) : str := dropWhile isWhiteSpace s.
Definition trimEnd (s : str) : str := rev (dropWhile isWhiteSpace (rev s)).

(** [s.trim()] *)
Definition trim (s : str) : str := trimEnd (trimStart s).

(** [s.startsWith(p)] *)
Fixpoint startsWith (p s : str) : bool :=
  match p, s with
  | [], _ => true
  | x :: p', y :: s' => Ascii.eqb x y && startsWith p' s'
  | _ :: _, [] => false
  end.

(** [s.endsWith(p)] *)
Definition endsWith (p s : str) : bool := startsWith (rev p) (rev s).

(** [s.slice(1)] *)
Definition slice1 (s : str) : str := tl s.

(** [s.slice(1, -1)] *)
Definition slice1m1 (s : str) : str := removelast (tl s).

(** [s.split(sep)] for a one-character separator: never empty, the
    empty string splits into one empty piece. *)
Fixpoint split (sep : ascii) (s : str) : list str :=
  match s with
  | [] => [[]]
  | c :: r =>
      if Ascii.eqb c sep then [] :: split sep r
      else match split sep r with
           | h :: t => (c :: h) :: t
           | [] => [[c]]
           end
  end.

(** [pieces.join(sep)] *)
Fixpoint join (sep : str) (pieces : list str) : str :=
  match pieces with
  | [] => []
  | [p] => p
  | p :: rest => p ++ sep ++ join sep rest
  end.

(** [parseInt(digits, 10)] on a run of decimal digits, most
    significant first. *)
Definition digitValue (c : ascii) : Z := Z.of_N (code c) - 48.

Definition parseInt (digits : str) : Z :=
  fold_left (fun acc c => 10 * acc + digitValue c) digits 0.

(** [String(n)] for an integer-valued number. *)
Definition ofZ (n : Z) : str :=
  lit (NilZero.string_of_int (Z.to_int n)).

End JsString.

Import JsString.

(* ================================================================== *)
(** ** Data model ([types.ts]) *)
(* ================================================================== *)

(** [AttributeValue = boolean | number | string].  Numbers are the finite
    values of the source's [number]; they are kept exact as rationals. *)
Inductive AttributeValue : Type :=
  | VBool (b : bool)
  | VNum (n : Q)
  | VStr (s : str).

(** [ModelAttributes]: a record from attribute names to values. *)
Abbreviation ModelAttributes := (gmap str AttributeValue).

(** [Aliases]: a record from alias names to query fragments. *)
Abbreviation Aliases := (gmap str str).

Inductive ComparisonOperator : Type :=
  | OpEq | OpNe | OpGt | OpGe | OpLt | OpLe.

Record QueryCondition : Type := mkCondition {
  attribute : str;
  operator : ComparisonOperator;
  value : AttributeValue;
  negated : bool;
  weight : Z
}.

(** [ParsedQuery = { conditions: QueryCondition[] }] *)
Record ParsedQuery : Type := mkQuery { conditions : list QueryCondition }.

Record ModelConfig : Type := mkModelConfig {
  provider : str;
  model_id : str;
  api_key : option str;
  base_url : option str;
  enabled : bool;
  attributes : ModelAttributes
}.

(** [Config]: [models] keeps the enumeration order of [Object.entries]. *)
Record Config : Type := mkConfig {
  aliases : Aliases;
  models : list (str * ModelConfig)
}.

(** The two errors [parseQuery] throws:
    [Error('Empty query')] and [Error(`Invalid query condition: "${trimmed}"`)]. *)
Inductive QueryError : Type :=
  | EmptyQuery
  | InvalidCondition (token : str).

(* ================================================================== *)
(** ** The condition language ([query/parser.ts]) *)
(* ================================================================== *)

Module Parser.

Definition dquote : ascii := ascii_of_N 34.
Definition squote : ascii := ascii_of_N 39.

Definition noLineTerminator (s : str) : bool :=
  forallb (fun c => negb (isLineTerminator c)) s.

(** [s.match(/^(.+):(\d+)$/)]: the two groups.  [(.+)] is greedy, so
    the longest first group is tried first; the recursion prefers the
    split found further right. *)
Fixpoint weightMatch (s : str) : option (str * str) :=
  match s with
  | [] => None
  | c :: r =>
      if isLineTerminator c then None
      else match weightMatch r with
           | Some (body, digits) => Some (c :: body, digits)
           | None =>
               match r with
               | ":"%char :: digits =>
                   if negb (isEmpty digits) && forallb isDigit digits
                   then Some ([c], digits) else None
               | _ => None
               end
           end
  end.

(** The alternation [(>=|<=|!=|>|<|=)], in the order it is written. *)
Definition operatorTable : list (str * ComparisonOperator) :=
  [ (lit ">=", OpGe); (lit "<=", OpLe); (lit "!=", OpNe);
    (lit ">", OpGt); (lit "<", OpLt); (lit "=", OpEq) ].

(** [\s*(.+)$] at the end of the comparison pattern: the whitespace run
    is greedy and gives characters back one at a time until what is
    left is a non-empty run without line terminator. *)
Definition valueGroup (s : str) : option str :=
  let n := length (takeWhile isWhiteSpace s) in
  find (fun v => negb (isEmpty v) && noLineTerminator v)
       (map (fun k => drop k s) (rev (seq 0 (S n)))).

(** The first alternative after which the rest of the pattern matches. *)
Fixpoint operatorGroup (ops : list (str * ComparisonOperator)) (s : str)
  : option (ComparisonOperator * str) :=
  match ops with
  | [] => None
  | (sym, op) :: ops' =>
      if startsWith sym s then
        match valueGroup (drop (length sym) s) with
        | Some v => Some (op, v)
        | None => operatorGroup ops' s
        end
      else operatorGroup ops' s
  end.

(** [s.match(re)] for the comparison pattern
    [^ ( [a-z_] [a-z0-9_]* ) \s* ( >= | <= | != | > | < | = ) \s* ( .+ ) $]
    with flag [i] (written here with blanks between its parts): the
    three groups.  An identifier character is neither whitespace nor
    the start of an operator, so only the longest identifier and the
    longest whitespace run after it can lead to a match. *)
Definition comparisonMatch (s : str)
  : option (str * ComparisonOperator * str) :=
  match s with
  | [] => None
  | c :: r =>
      if isIdStart c then
        let rest := dropWhile isWhiteSpace (dropWhile isIdChar r) in
        match operatorGroup operatorTable rest with
        | Some (op, v) => Some (c :: takeWhile isIdChar r, op, v)
        | None => None
        end
      else None
  end.

(** [re.test(s)] for the pattern [^ [a-z_] [a-z0-9_]* $] with flag [i] *)
Definition isIdentifier (s : str) : bool :=
  match s with
  | [] => false
  | c :: r => isIdStart c && forallb isIdChar r
  end.

(** [aliases[k]] used as a condition and then as a string: an absent
    name is [undefined] and an empty replacement is falsy; names
    inherited from [Object.prototype] are left out. *)
Definition aliasLookup (al : Aliases) (k : str) : option str :=
  match al !! k with
  | Some v => if isEmpty v then None else Some v
  | None => None
  end.

(** [weightMatch ? weightMatch[1].trim() : token] *)
Definition baseTokenOf (token : str) : str :=
  match weightMatch token with Some (b, _) => trim b | None => token end.

(** [weightMatch ? `:${weightMatch[2]}` : ''] *)
Definition weightSuffixOf (token : str) : str :=
  match weightMatch token with Some (_, d) => ":"%char :: d | None => [] end.

(** The callback of [tokens.map(...)] in [expandAliases]. *)
Definition expandToken (al : Aliases) (token : str) : str :=
  let baseToken := baseTokenOf token in
  let weightSuffix := weightSuffixOf token in
  let isNeg := startsWith (lit "!") baseToken in
  let lookupToken := if isNeg then slice1 baseToken else baseToken in
  match aliasLookup al lookupToken with
  | Some aliasValue =>
      let aliasValue :=
        if isNeg then lit "!(" ++ aliasValue ++ lit ")" else aliasValue in
      aliasValue ++ weightSuffix
  | None => token
  end.

Definition expandAliases (query : str) (al : Aliases) : str :=
  let tokens := map trim (split "," query) in
  join (lit ", ") (map (expandToken al) tokens).

(** [expandedQuery.split(',').map(t => t.trim()).filter(t => t.length > 0)] *)
Definition queryTokens (expandedQuery : str) : list str :=
  List.filter (fun t => negb (isEmpty t)) (map trim (split "," expandedQuery)).

Section WithNumber.

(** [Number(rawValue)] of the JavaScript runtime, with [None] for
    [NaN]; the parser is modelled for every such conversion. *)
Variable Number : str -> option Q.

Definition parseValue (rawValue : str) : AttributeValue :=
  if strEqb rawValue (lit "true") then VBool true
  else if strEqb rawValue (lit "false") then VBool false
  else match Number rawValue with
       | Some num => VNum num
       | None =>
           if (startsWith [dquote] rawValue && endsWith [dquote] rawValue)
              || (startsWith [squote] rawValue && endsWith [squote] rawValue)
           then VStr (slice1m1 rawValue)
           else VStr rawValue
       end.

Definition parseToken (token : str) (position totalConditions : Z)
  : QueryError + QueryCondition :=
  let trimmed := trim token in
  let '(conditionPart, weight) :=
    match weightMatch trimmed with
    | Some (body, digits) => (trim body, parseInt digits)
    | None => (trimmed, totalConditions - position)
    end in
  let '(negated, conditionPart) :=
    if startsWith (lit "!") conditionPart
    then (true, trim (slice1 conditionPart))
    else (false, conditionPart) in
  match comparisonMatch conditionPart with
  | Some (attribute, operator, rawValue) =>
      inr (mkCondition attribute operator (parseValue (trim rawValue))
                       negated weight)
  | None =>
      if isIdentifier conditionPart
      then inr (mkCondition conditionPart OpEq (VBool true) negated weight)
      else inl (InvalidCondition trimmed)
  end.

(** [tokens.map((token, index) => parseToken(token, index, tokens.length))]:
    the first token that throws ends the traversal. *)
Fixpoint parseTokens (tokens : list str) (index total : Z)
  : QueryError + list QueryCondition :=
  match tokens with
  | [] => inr []
  | t :: rest =>
      match parseToken t index total with
      | inl e => inl e
      | inr c =>
          match parseTokens rest (index + 1) total with
          | inl e => inl e
          | inr cs => inr (c :: cs)
          end
      end
  end.

Definition parseQuery (query : str) (al : Aliases)
  : QueryError + ParsedQuery :=
  let expandedQuery := expandAliases query al in
  let tokens := queryTokens expandedQuery in
  if (length tokens =? 0)%nat then inl EmptyQuery
  else match parseTokens tokens 0 (Z.of_nat (length tokens)) with
       | inl e => inl e
       | inr cs => inr (mkQuery cs)
       end.

End WithNumber.

(** A conversion for the examples: [Number] on unsigned decimal integer
    literals, [NaN] elsewhere. *)
Definition decimalNumber (s : str) : option Q :=
  if negb (isEmpty s) && forallb isDigit s
  then Some (inject_Z (parseInt s)) else None.

End Parser.

Import Parser.

(* ================================================================== *)
(** ** Attribute matching and scoring ([query/matcher.ts]) *)
(* ================================================================== *)

Module Matcher.

(** [a === b] on attribute values *)
Definition strictEquals (a b : AttributeValue) : bool :=
  match a, b with
  | VBool x, VBool y => Bool.eqb x y
  | VNum x, VNum y => Qeq_bool x y
  | VStr x, VStr y => strEqb x y
  | _, _ => false
  end.

(** [typeof a === 'number' && typeof b === 'number' ? cmp(a, b) : false] *)
Definition bothNumbers (cmp : Q -> Q -> bool) (a b : AttributeValue) : bool :=
  match a, b with
  | VNum x, VNum y => cmp x y
  | _, _ => false
  end.

Definition Qlt_bool (x y : Q) : bool := negb (Qle_bool y x).

(** [attributes[condition.attribute] === undefined] is the absence of
    the name from the map; names inherited from [Object.prototype] are
    left out. *)
Definition evaluateCondition (condition : QueryCondition)
    (attrs : ModelAttributes) : bool :=
  match attrs !! attribute condition with
  | None => negated condition
  | Some attrValue =>
      let result :=
        match operator condition with
        | OpEq => strictEquals attrValue (value condition)
        | OpNe => negb (strictEquals attrValue (value condition))
        | OpGt => bothNumbers (fun a b => Qlt_bool b a) attrValue (value condition)
        | OpGe => bothNumbers (fun a b => Qle_bool b a) attrValue (value condition)
        | OpLt => bothNumbers Qlt_bool attrValue (value condition)
        | OpLe => bothNumbers Qle_bool attrValue (value condition)
        end in
      if negated condition then negb result else result
  end.

Record MatchResult : Type := mkMatchResult {
  matches : bool;
  score : Z;
  maxScore : Z;
  exactMatch : bool;
  matchedAttributes : list str;
  missingAttributes : list str
}.

(** The four locals of [matchModel] that the loop updates. *)
Record Tally : Type := mkTally {
  t_score : Z;
  t_maxScore : Z;
  t_matched : list str;
  t_missing : list str
}.

(** One iteration of [for (const condition of query.conditions)]. *)
Definition tallyCondition (attrs : ModelAttributes) (t : Tally)
    (condition : QueryCondition) : Tally :=
  let maxScore' := t_maxScore t + weight condition in
  if evaluateCondition condition attrs
  then mkTally (t_score t + weight condition) maxScore'
               (t_matched t ++ [attribute condition]) (t_missing t)
  else mkTally (t_score t) maxScore'
               (t_matched t) (t_missing t ++ [attribute condition]).

Definition matchModel (attrs : ModelAttributes) (query : ParsedQuery)
  : MatchResult :=
  let t := fold_left (tallyCondition attrs) (conditions query)
                     (mkTally 0 0 [] []) in
  mkMatchResult (0 <? t_score t) (t_score t) (t_maxScore t)
                (t_score t =? t_maxScore t) (t_matched t) (t_missing t).

Definition normalizeScore (result : MatchResult) : Q :=
  if maxScore result =? 0 then 0%Q
  else (inject_Z (score result) / inject_Z (maxScore result))%Q.

End Matcher.

Import Matcher.

(* ================================================================== *)
(** ** Ranking ([index.ts], [config/loader.ts]) *)
(* ================================================================== *)

Module Ranker.

Record RankedModel : Type := mkRanked {
  name : str;
  config : ModelConfig;
  matchResult : MatchResult;
  normalizedScore : Q
}.

(** [rankModels] throws what [parseQuery] throws, or
    [Error('No models configured or all models are disabled')]. *)
Inductive SelectError : Type :=
  | QueryFailed (e : QueryError)
  | NoModelsEnabled.

Definition getEnabledModels (cfg : Config) : list (str * ModelConfig) :=
  List.filter (fun entry => enabled (snd entry)) (models cfg).

(** [Array.prototype.sort(compare)], which ECMAScript requires to be
    stable: an element goes after those that compare equal to it and
    were before it in the array.  [compare a b < 0] puts [a] first. *)
Fixpoint insertSorted {A : Type} (compare : A -> A -> Q) (x : A)
    (sorted : list A) : list A :=
  match sorted with
  | [] => [x]
  | y :: rest =>
      if Qle_bool (compare x y) 0 then x :: y :: rest
      else y :: insertSorted compare x rest
  end.

Definition sort {A : Type} (compare : A -> A -> Q) (l : list A) : list A :=
  fold_right (insertSorted compare) [] l.

(** [(a, b) => b.normalizedScore - a.normalizedScore] *)
Definition byScoreDescending (a b : RankedModel) : Q :=
  (normalizedScore b - normalizedScore a)%Q.

(** [l.slice(0, n)] for an integer [n]; a negative [n] counts from the
    end of the array. *)
Definition slice0 {A : Type} (n : Z) (l : list A) : list A :=
  if n <? 0 then take (Z.to_nat (Z.of_nat (length l) + n)) l
  else take (Z.to_nat n) l.

Section WithNumber.

Variable Number : str -> option Q.

Definition rankOne (parsedQuery : ParsedQuery)
    (entry : str * ModelConfig) : RankedModel :=
  let matchResult := matchModel (attributes (snd entry)) parsedQuery in
  mkRanked (fst entry) (snd entry) matchResult (normalizeScore matchResult).

Definition rankModels (query : str) (cfg : Config)
  : SelectError + list RankedModel :=
  match parseQuery Number query (aliases cfg) with
  | inl e => inl (QueryFailed e)
  | inr parsedQuery =>
      let enabledModels := getEnabledModels cfg in
      if (length enabledModels =? 0)%nat then inl NoModelsEnabled
      else inr (sort byScoreDescending (map (rankOne parsedQuery) enabledModels))
  end.

(** The selection of [selectModels] and [selectModelsDetailed]:
    [ranked.slice(0, options.count ?? ranked.length)].  Each selected
    entry is then handed to the provider factory. *)
Definition selectModels (query : str) (count : option Z) (cfg : Config)
  : SelectError + list RankedModel :=
  match rankModels query cfg with
  | inl e => inl e
  | inr ranked =>
      let count := default (Z.of_nat (length ranked)) count in
      inr (slice0 count ranked)
  end.

End WithNumber.

End Ranker.

(* ================================================================== *)
(** ** Selection ([index.ts], [wrapper/embed.ts]) *)
(* ================================================================== *)

Module Selection.

Import Ranker.

(** [SelectionResult<LanguageModel>]; [L] is the provider's model. *)
Record SelectionResult (L : Type) : Type := mkSelection {
  sel_model : L;
  sel_config : ModelConfig;
  sel_modelName : str;
  sel_score : Q;
  sel_exactMatch : bool;
  sel_matchedAttributes : list str;
  sel_missingAttributes : list str
}.
Arguments mkSelection {L}.
Arguments sel_model {L}.
Arguments sel_config {L}.
Arguments sel_modelName {L}.
Arguments sel_score {L}.
Arguments sel_exactMatch {L}.
Arguments sel_matchedAttributes {L}.
Arguments sel_missingAttributes {L}.

(** What [selectModel] throws: what [rankModels] throws,
    [Error('No models available')], or what the provider factory
    throws. *)
Inductive SelectModelError (E : Type) : Type :=
  | RankingFailed (e : SelectError)
  | NoBestModel
  | FactoryFailed (e : E).
Arguments RankingFailed {E} e.
Arguments NoBestModel {E}.
Arguments FactoryFailed {E} e.

(** [EmbeddingCandidate] *)
Record EmbeddingCandidate (L : Type) : Type := mkEmbeddingCandidate {
  e_model : L;
  e_config : ModelConfig;
  e_modelName : str;
  e_score : Q
}.
Arguments mkEmbeddingCandidate {L}.
Arguments e_model {L}.
Arguments e_config {L}.
Arguments e_modelName {L}.
Arguments e_score {L}.

(** The entries [selectEmbeddingModels] ranks. *)
Record EmbeddingRanked : Type := mkEmbeddingRanked {
  r_name : str;
  r_config : ModelConfig;
  r_normalizedScore : Q
}.

Section WithFactory.

Context {L E : Type}.
Variable Number : str -> option Q.

(** [createLanguageModel] and [createEmbeddingModel] of the provider
    factory: the model, or what they throw. *)
Variable createLanguageModel : ModelConfig -> E + L.
Variable createEmbeddingModel : ModelConfig -> E + L.

(** The object [selectModel] and [selectModelsDetailed] build from a
    ranked entry and its model. *)
Definition detailed (languageModel : L) (r : RankedModel) : SelectionResult L :=
  mkSelection languageModel (config r) (name r) (normalizedScore r)
              (exactMatch (matchResult r))
              (matchedAttributes (matchResult r))
              (missingAttributes (matchResult r)).

(** [selectModel(query, { detailed: true })] on a loaded configuration. *)
Definition selectModel (query : str) (cfg : Config)
  : SelectModelError E + SelectionResult L :=
  match rankModels Number query cfg with
  | inl e => inl (RankingFailed e)
  | inr ranked =>
      match head ranked with
      | None => inl NoBestModel
      | Some best =>
          match createLanguageModel (config best) with
          | inl e => inl (FactoryFailed e)
          | inr languageModel => inr (detailed languageModel best)
          end
      end
  end.

(** [Promise.all(selected.map(...))]: the results in the order of
    [selected], or a rejection when some entry is rejected. *)
Fixpoint promiseAll {A B : Type} (f : A -> E + B) (l : list A) : option (list B) :=
  match l with
  | [] => Some []
  | x :: rest =>
      match f x, promiseAll f rest with
      | inr y, Some ys => Some (y :: ys)
      | _, _ => None
      end
  end.

(** [selectModelsDetailed] on a loaded configuration; [None] is the
    rejection of [Promise.all]. *)
Definition selectModelsDetailed (query : str) (count : option Z) (cfg : Config)
  : SelectError + option (list (SelectionResult L)) :=
  match rankModels Number query cfg with
  | inl e => inl e
  | inr ranked =>
      let count := default (Z.of_nat (length ranked)) count in
      let selected := slice0 count ranked in
      inr (promiseAll
             (fun r => match createLanguageModel (config r) with
                       | inl e => inl e
                       | inr model => inr (detailed model r)
                       end)
             selected)
  end.

(** The loop of [selectEmbeddingModels] that creates the models. *)
Fixpoint embeddingCandidates (selected : list EmbeddingRanked)
  : list (EmbeddingCandidate L) :=
  match selected with
  | [] => []
  | r :: rest =>
      match createEmbeddingModel (r_config r) with
      | inr model =>
          mkEmbeddingCandidate model (r_config r) (r_name r) (r_normalizedScore r)
          :: embeddingCandidates rest
      | inl _ => embeddingCandidates rest
      end
  end.

Definition rankEmbedding (parsedQuery : ParsedQuery) (entry : str * ModelConfig)
  : EmbeddingRanked :=
  let matchResult := matchModel (attributes (snd entry)) parsedQuery in
  mkEmbeddingRanked (fst entry) (snd entry) (normalizeScore matchResult).

Definition selectEmbeddingModels (query : str) (count : Z) (cfg : Config)
  : SelectError + list (EmbeddingCandidate L) :=
  match parseQuery Number query (aliases cfg) with
  | inl e => inl (QueryFailed e)
  | inr parsedQuery =>
      let enabledModels := getEnabledModels cfg in
      if (length enabledModels =? 0)%nat then inl NoModelsEnabled
      else
        let ranked :=
          sort (fun a b => (r_normalizedScore b - r_normalizedScore a)%Q)
               (map (rankEmbedding parsedQuery) enabledModels) in
        let selected := slice0 count ranked in
        inr (embeddingCandidates selected)
  end.

End WithFactory.

End Selection.

(* ================================================================== *)
(** ** Error classification ([wrapper/errors.ts]) *)
(* ================================================================== *)

Module Errors.

(** The regular expressions of the pattern tables are sequences of
    literal characters and of [.?] (at most one character other than
    a line terminator), searched anywhere in the text. *)
Inductive Atom : Type :=
  | Lit (c : ascii)
  | OptAny.

Record RegExp : Type := mkRegExp {
  atoms : list Atom;
  ignoreCase : bool
}.

(** Reads the source text of such a pattern. *)
Fixpoint readAtoms (src : str) : list Atom :=
  match src with
  | [] => []
  | "."%char :: "?"%char :: rest => OptAny :: readAtoms rest
  | c :: rest => Lit c :: readAtoms rest
  end.

(** [/src/] *)
Definition re (src : string) : RegExp := mkRegExp (readAtoms (lit src)) false.
(** [/src/i] *)
Definition rei (src : string) : RegExp := mkRegExp (readAtoms (lit src)) true.

Definition charMatches (ic : bool) (c x : ascii) : bool :=
  if ic then Ascii.eqb (toLower c) (toLower x) else Ascii.eqb c x.

Fixpoint matchHere (ic : bool) (pattern : list Atom) (s : str) : bool :=
  match pattern with
  | [] => true
  | Lit c :: rest =>
      match s with
      | x :: s' => charMatches ic c x && matchHere ic rest s'
      | [] => false
      end
  | OptAny :: rest =>
      match s with
      | x :: s' => negb (isLineTerminator x) && matchHere ic rest s'
      | [] => false
      end
      || matchHere ic rest s
  end.

(** [pattern.test(text)] *)
Fixpoint test (pattern : RegExp) (text : str) : bool :=
  matchHere (ignoreCase pattern) (atoms pattern) text
  || match text with
     | [] => false
     | _ :: text' => test pattern text'
     end.

Definition RATE_LIMIT_PATTERNS : list RegExp :=
  [ rei "rate.?limit"; rei "too.?many.?requests"; rei "quota.?exceeded";
    rei "capacity"; rei "overloaded"; re "429" ].

Definition AUTH_PATTERNS : list RegExp :=
  [ rei "unauthorized"; rei "invalid.?api.?key"; rei "authentication";
    rei "api.?key.?invalid"; rei "forbidden"; re "401"; re "403" ].

Definition TRANSIENT_PATTERNS : list RegExp :=
  [ rei "timeout"; rei "timed.?out"; rei "network"; rei "connection";
    rei "econnrefused"; rei "econnreset"; rei "enotfound"; rei "socket";
    re "500"; re "502"; re "503"; re "504";
    rei "service.?unavailable"; rei "internal.?server.?error";
    rei "temporarily" ].

Definition INVALID_REQUEST_PATTERNS : list RegExp :=
  [ rei "invalid.?request"; rei "bad.?request"; rei "validation";
    rei "malformed"; re "400"; rei "context.?length"; rei "token.?limit";
    rei "max.?tokens"; rei "content.?filter"; rei "safety" ].

Definition matchesPatterns (text : str) (patterns : list RegExp) : bool :=
  existsb (fun pattern => test pattern text) patterns.

(** An [Error] with the properties [getErrorText] reads: [status] and
    [statusCode] when they are numbers (integers here), [code] when it
    is a string, and [cause.message] when it is a string. *)
Record JsError : Type := mkJsError {
  message : str;
  status : option Z;
  statusCode : option Z;
  code : option str;
  causeMessage : option str
}.

(** [new Error(message)] *)
Definition newError (msg : str) : JsError :=
  mkJsError msg None None None None.

Definition optPart {A : Type} (show : A -> str) (o : option A) : list str :=
  match o with Some x => [show x] | None => [] end.

Definition getErrorText (error : JsError) : str :=
  let parts :=
    [message error]
    ++ optPart ofZ (status error)
    ++ optPart ofZ (statusCode error)
    ++ optPart id (code error)
    ++ optPart id (causeMessage error) in
  join (lit " ") parts.

Inductive ErrorCategory : Type :=
  | RATE_LIMIT | AUTH | TRANSIENT | INVALID_REQUEST | UNKNOWN.

Record ClassifiedError : Type := mkClassified {
  category : ErrorCategory;
  original : JsError;
  c_message : str;
  shouldRetry : bool;
  shouldFallback : bool
}.

Definition classifyError (error : JsError) : ClassifiedError :=
  let errorText := getErrorText error in
  if matchesPatterns errorText RATE_LIMIT_PATTERNS then
    mkClassified RATE_LIMIT error (lit "Rate limit: " ++ message error)
                 false true
  else if matchesPatterns errorText AUTH_PATTERNS then
    mkClassified AUTH error (lit "Authentication error: " ++ message error)
                 false true
  else if matchesPatterns errorText INVALID_REQUEST_PATTERNS then
    mkClassified INVALID_REQUEST error
                 (lit "Invalid request: " ++ message error) false false
  else if matchesPatterns errorText TRANSIENT_PATTERNS then
    mkClassified TRANSIENT error (lit "Transient error: " ++ message error)
                 true true
  else
    mkClassified UNKNOWN error (message error) true true.

(** [new TimeoutError(timeoutMs)] *)
Definition TimeoutError (timeoutMs : Z) : JsError :=
  newError (lit "Request timed out after " ++ ofZ timeoutMs ++ lit "ms").

End Errors.

Import Errors.

(* ================================================================== *)
(** ** Fallback execution ([wrapper/executor.ts]) *)
(* ================================================================== *)

Module Executor.

(** [AttemptInfo] *)
Record AttemptInfo : Type := mkAttempt {
  a_modelName : str;
  a_provider : str;
  success : bool;
  error : option JsError;
  durationMs : Z
}.

(** What an execution does that an observer can see, in the order it
    happens: the hooks it calls, the operations it starts, the backoff
    sleeps, the chunks a stream yields. *)
Inductive Event : Type :=
  | OnAttempt (modelName providerName : str) (attemptNumber : Z)
  | Invoke (modelName : str)
  | Sleep (ms : Z)
  | OnFallback (fromModel toModel : str) (e : JsError)
  | OnSuccess (modelName : str) (attempts : list AttemptInfo)
  | OnModelSwitch (modelName : str) (isRetry : bool)
  | Yield (chunk : str) (modelName : str).

Abbreviation Trace := (list Event).

(** How a promise fares under [withTimeout]: it resolves or rejects
    before the timer fires, or it is still pending when it does. *)
Inductive Settled (T : Type) : Type :=
  | Resolved (v : T)
  | Rejected (e : JsError)
  | Pending.
Arguments Resolved {T} v.
Arguments Rejected {T} e.
Arguments Pending {T}.

Definition withTimeout {T : Type} (promise : Settled T) (timeoutMs : Z)
  : JsError + T :=
  match promise with
  | Resolved v => inr v
  | Rejected e => inl e
  | Pending => inl (TimeoutError timeoutMs)
  end.

(** [ModelCandidate]; [M] is the provider's [LanguageModel]. *)
Record ModelCandidate (M : Type) : Type := mkCandidate {
  model : M;
  config : ModelConfig;
  modelName : str;
  c_score : Q
}.
Arguments mkCandidate {M}.
Arguments model {M}.
Arguments config {M}.
Arguments modelName {M}.
Arguments c_score {M}.

Record ExecutorOptions : Type := mkExecutorOptions {
  maxRetries : Z;
  retryDelay : Z;
  timeout : Z
}.

(** [BaseWrapperOptions]; the hooks are the events of the trace. *)
Record BaseWrapperOptions : Type := mkOptions {
  o_fallbackCount : option Z;
  o_maxRetries : option Z;
  o_retryDelay : option Z;
  o_timeout : option Z
}.

Definition DEFAULT_FALLBACK_COUNT : Z := 3.
Definition DEFAULT_MAX_RETRIES : Z := 2.
Definition DEFAULT_RETRY_DELAY : Z := 1000.
Definition DEFAULT_TIMEOUT : Z := 60000.

Record ExecutionResult (T : Type) : Type := mkExecutionResult {
  result : T;
  modelUsed : str;
  modelConfig : ModelConfig;
  attempts : list AttemptInfo;
  fallbacksUsed : Z
}.
Arguments mkExecutionResult {T}.
Arguments result {T}.
Arguments modelUsed {T}.
Arguments modelConfig {T}.
Arguments attempts {T}.
Arguments fallbacksUsed {T}.

(** What [executeWithFallbacks] and the streams throw. *)
Inductive Failure : Type :=
  | NoModelsAvailable
  | Thrown (e : JsError)
  | AllModelsFailedError (failed : list (str * JsError)).

(** [failedModels[failedModels.length - 1]] *)
Definition lastFailure (failedModels : list (str * JsError))
  : option (str * JsError) := last failedModels.

(** The hook call at the head of both candidate loops. *)
Definition notifyFallback (i : Z) (failedModels : list (str * JsError))
    (toModel : str) (tr : Trace) : Trace :=
  if (0 <? i) && (0 <? length failedModels)%nat then
    match lastFailure failedModels with
    | Some lf => tr ++ [OnFallback (fst lf) toModel (snd lf)]
    | None => tr
    end
  else tr.

Section Execute.

Context {M T : Type}.

(** [Date.now()], read after the events so far. *)
Variable now : Trace -> Z.

(** The operation: how the promise of [fn(model, config, modelName)]
    fares when called after the events so far. *)
Variable fn : ModelCandidate M -> Trace -> Settled T.

(** The loop of [executeWithRetry], [iterations] rounds being left
    before [attempt <= options.maxRetries] fails. *)
Fixpoint retryLoop (options : ExecutorOptions) (candidate : ModelCandidate M)
    (iterations : nat) (attempt : Z) (attempts : list AttemptInfo)
    (lastError : option JsError) (tr : Trace)
  : (JsError + (T * list AttemptInfo)) * Trace :=
  match iterations with
  | O => (inl (default (newError (lit "Unknown error")) lastError), tr)
  | S more =>
      let name := modelName candidate in
      let prov := provider (config candidate) in
      let startTime := now tr in
      let tr := tr ++ [OnAttempt name prov (attempt + 1)] in
      let outcome := withTimeout (fn candidate tr) (timeout options) in
      let tr := tr ++ [Invoke name] in
      match outcome with
      | inr result =>
          (inr (result,
                attempts ++ [mkAttempt name prov true None (now tr - startTime)]),
           tr)
      | inl err =>
          let classified := classifyError err in
          let attempts :=
            attempts ++ [mkAttempt name prov false (Some err) (now tr - startTime)] in
          if negb (shouldRetry classified) then (inl err, tr)
          else
            let tr :=
              if attempt <? maxRetries options
              then tr ++ [Sleep (retryDelay options * 2 ^ attempt)]
              else tr in
            retryLoop options candidate more (attempt + 1) attempts (Some err) tr
      end
  end.

Definition executeWithRetry (options : ExecutorOptions)
    (candidate : ModelCandidate M) (tr : Trace)
  : (JsError + (T * list AttemptInfo)) * Trace :=
  retryLoop options candidate (Z.to_nat (maxRetries options + 1)) 0 [] None tr.

(** The loop of [executeWithFallbacks] from index [i] on. *)
Fixpoint fallbackLoop (options : ExecutorOptions)
    (modelsToTry : list (ModelCandidate M)) (i : Z)
    (allAttempts : list AttemptInfo) (failedModels : list (str * JsError))
    (tr : Trace) : (Failure + ExecutionResult T) * Trace :=
  match modelsToTry with
  | [] => (inl (AllModelsFailedError failedModels), tr)
  | candidate :: later =>
      let name := modelName candidate in
      let tr := notifyFallback i failedModels name tr in
      match executeWithRetry options candidate tr with
      | (inr (result, attempts), tr) =>
          let allAttempts := allAttempts ++ attempts in
          let tr := tr ++ [OnSuccess name allAttempts] in
          (inr (mkExecutionResult result name (config candidate) allAttempts i), tr)
      | (inl err, tr) =>
          let classified := classifyError err in
          let failedModels := failedModels ++ [(name, err)] in
          if negb (shouldFallback classified) then (inl (Thrown err), tr)
          else fallbackLoop options later (i + 1) allAttempts failedModels tr
      end
  end.

Definition resolveExecutorOptions (options : BaseWrapperOptions)
  : ExecutorOptions :=
  mkExecutorOptions (default DEFAULT_MAX_RETRIES (o_maxRetries options))
                    (default DEFAULT_RETRY_DELAY (o_retryDelay options))
                    (default DEFAULT_TIMEOUT (o_timeout options)).

Definition executeWithFallbacks (candidates : list (ModelCandidate M))
    (options : BaseWrapperOptions) (tr : Trace)
  : (Failure + ExecutionResult T) * Trace :=
  let fallbackCount := default DEFAULT_FALLBACK_COUNT (o_fallbackCount options) in
  let modelsToTry := Ranker.slice0 fallbackCount candidates in
  if (length modelsToTry =? 0)%nat then (inl NoModelsAvailable, tr)
  else fallbackLoop (resolveExecutorOptions options) modelsToTry 0 [] [] tr.

End Execute.

(** The operations the trace shows to have been started, in order. *)
Definition invocations (tr : Trace) : list str :=
  omap (fun ev => match ev with Invoke n => Some n | _ => None end) tr.

Definition sleeps (tr : Trace) : list Z :=
  omap (fun ev => match ev with Sleep ms => Some ms | _ => None end) tr.

End Executor.

Import Executor.

(* ================================================================== *)
(** ** Streaming ([wrapper/generate.ts], [wrapper/object.ts]) *)
(* ================================================================== *)

(** [stream] and [streamObject] share one control flow; [R] stands for
    what the SDK reports once a stream is complete (text or object,
    usage, finish reason). *)
Module Streaming.

(** One run of the SDK's stream for a candidate: the chunks it
    produces, then completion or an error.  An error raised before the
    first chunk is a run without chunks. *)
Record StreamRun (R : Type) : Type := mkRun {
  chunks : list str;
  ending : JsError + R
}.
Arguments mkRun {R}.
Arguments chunks {R}.
Arguments ending {R}.

Record StreamResult (R : Type) : Type := mkStreamResult {
  final : R;
  s_modelUsed : str;
  s_modelConfig : ModelConfig;
  s_attempts : list AttemptInfo;
  s_fallbacksUsed : Z
}.
Arguments mkStreamResult {R}.
Arguments final {R}.
Arguments s_modelUsed {R}.
Arguments s_modelConfig {R}.
Arguments s_attempts {R}.
Arguments s_fallbacksUsed {R}.

Section Stream.

Context {M R : Type}.

Variable now : Trace -> Z.

(** [streamText({model, ...})] / [streamObject({model, ...})] *)
Variable streamText : ModelCandidate M -> Trace -> StreamRun R.

(** [for await (const chunk of ...) yield { text: chunk, modelName }] *)
Definition yieldAll (name : str) (cs : list str) (tr : Trace) : Trace :=
  tr ++ map (fun chunk => Yield chunk name) cs.

(** The candidate loop of [generateStream] from index [i] on, for a
    consumer that reads the stream to its end.  The second component
    of the outcome settles the [result] promise. *)
Fixpoint streamLoop (candidates : list (ModelCandidate M)) (i : Z)
    (attempts : list AttemptInfo) (failedModels : list (str * JsError))
    (tr : Trace) : (Failure + StreamResult R) * Trace :=
  match candidates with
  | [] => (inl (AllModelsFailedError failedModels), tr)
  | candidate :: later =>
      let name := modelName candidate in
      let prov := provider (config candidate) in
      let isRetry := 0 <? i in
      let tr := tr ++ [OnModelSwitch name isRetry] in
      let tr := notifyFallback i failedModels name tr in
      let startTime := now tr in
      let tr := tr ++ [OnAttempt name prov (i + 1)] in
      let run := streamText candidate tr in
      let tr := tr ++ [Invoke name] in
      let tr := yieldAll name (chunks run) tr in
      match ending run with
      | inr fin =>
          let attempts :=
            attempts ++ [mkAttempt name prov true None (now tr - startTime)] in
          let tr := tr ++ [OnSuccess name attempts] in
          (inr (mkStreamResult fin name (config candidate) attempts i), tr)
      | inl err =>
          let classified := classifyError err in
          let attempts :=
            attempts ++ [mkAttempt name prov false (Some err) (now tr - startTime)] in
          let failedModels := failedModels ++ [(name, err)] in
          if negb (shouldFallback classified) then (inl (Thrown err), tr)
          else streamLoop later (i + 1) attempts failedModels tr
      end
  end.

(** [generateStream] once the candidates are selected. *)
Definition generateStream (candidates : list (ModelCandidate M)) (tr : Trace)
  : (Failure + StreamResult R) * Trace :=
  if (length candidates =? 0)%nat then (inl NoModelsAvailable, tr)
  else streamLoop candidates 0 [] [] tr.

End Stream.

(** The chunks the consumer has received. *)
Definition yielded (tr : Trace) : list (str * str) :=
  omap (fun ev => match ev with Yield c n => Some (c, n) | _ => None end) tr.

End Streaming.

Import Streaming.

(* ================================================================== *)
(** ** Configuration loading ([config/loader.ts]) *)
(* ================================================================== *)

Module Loader.

(** [process.env]; names inherited from [Object.prototype] are left
    out. *)
Abbreviation Env := (gmap str str).

(** A match of [\$ \{? ( [A-Z_] [A-Z0-9_]* ) \}?] with flag [i] at the
    head of [s]: the captured name and the length of the match.  Both
    quantified parts are greedy, and giving up the brace never helps,
    a brace being no start of a name. *)
Definition envReference (s : str) : option (str * nat) :=
  match s with
  | d :: r =>
      if Ascii.eqb d "$" then
        let brace := startsWith (lit "{") r in
        match (if brace then slice1 r else r) with
        | c :: r' =>
            if isIdStart c then
              let varName := c :: takeWhile isIdChar r' in
              let close := startsWith (lit "}") (dropWhile isIdChar r') in
              Some (varName,
                    (1 + (if brace then 1 else 0) + length varName
                     + (if close then 1 else 0))%nat)
            else None
        | [] => None
        end
      else None
  | [] => None
  end.

(** [value.replace(re, callback)] with the global flag, [skip] code
    units of the last match being still to pass. *)
Fixpoint replaceFrom (env : Env) (skip : nat) (s : str) : str :=
  match s with
  | [] => []
  | c :: r =>
      match skip with
      | S k => replaceFrom env k r
      | O =>
          match envReference s with
          | Some (varName, len) =>
              default [] (env !! varName) ++ replaceFrom env (len - 1) r
          | None => c :: replaceFrom env 0 r
          end
      end
  end.

Definition resolveEnvVars (env : Env) (value : str) : str :=
  replaceFrom env 0 value.

(** [config.api_key ? resolveEnvVars(config.api_key) : undefined] *)
Definition resolveOptional (env : Env) (field : option str) : option str :=
  match field with
  | Some v => if isEmpty v then None else Some (resolveEnvVars env v)
  | None => None
  end.

Definition processModelConfig (env : Env) (config : ModelConfig) : ModelConfig :=
  mkModelConfig (provider config) (model_id config)
                (resolveOptional env (api_key config))
                (resolveOptional env (base_url config))
                (enabled config) (attributes config).

(** [target[k] = v] on an object kept as the list of its entries: an
    existing property keeps its place, a new one goes last.  Property
    names that are array indices, which are enumerated first, are left
    out. *)
Fixpoint setProperty {V : Type} (target : list (str * V)) (k : str) (v : V)
  : list (str * V) :=
  match target with
  | [] => [(k, v)]
  | (k', v') :: rest =>
      if strEqb k' k then (k', v) :: rest
      else (k', v') :: setProperty rest k v
  end.

(** [Object.assign(target, source)] *)
Definition objectAssign {V : Type} (target source : list (str * V))
  : list (str * V) :=
  fold_left (fun t entry => setProperty t (fst entry) (snd entry)) source target.

(** One round of the loop of [mergeConfigs]. *)
Definition mergeInto (merged config : Config) : Config :=
  mkConfig (aliases config ∪ aliases merged)
           (objectAssign (models merged) (models config)).

Definition mergeConfigs (configs : list Config) : Config :=
  fold_left mergeInto configs (mkConfig ∅ []).

(** [loadConfig] after the files are read: [files] holds what
    [loadConfigFile] returned for each search path; [None] stands for
    [Error('No config files found. ...')]. *)
Definition loadConfig (env : Env) (files : list (option Config)) : option Config :=
  let configs := omap id files in
  if (length configs =? 0)%nat then None
  else
    let merged := mergeConfigs configs in
    Some (mkConfig (aliases merged)
                   (map (fun entry => (fst entry, processModelConfig env (snd entry)))
                        (models merged))).

(** [obj[k]] on the list of entries. *)
Fixpoint getProperty {V : Type} (obj : list (str * V)) (k : str) : option V :=
  match obj with
  | [] => None
  | (k', v) :: rest => if strEqb k' k then Some v else getProperty rest k
  end.

End Loader.

(* ================================================================== *)
(** ** Single-shot generation ([wrapper/generate.ts], [wrapper/object.ts]) *)
(* ================================================================== *)

(** [generate] and [generateObject] share one control flow: the models
    are selected with [count = fallbackCount], turned into candidates
    and handed to [executeWithFallbacks]. *)
Module Pipeline.

(** What [generate] throws. *)
Inductive GenerateFailure : Type :=
  | SelectionFailed (e : Ranker.SelectError)
  | FactoryRejected
  | ExecutionFailed (f : Failure).

Section Generate.

Context {L E T : Type}.
Variable Number : str -> option Q.
Variable createLanguageModel : ModelConfig -> E + L.
Variable now : Trace -> Z.

(** [generateText({ model, ... })] / [generateObject({ model, ... })] *)
Variable fn : ModelCandidate L -> Trace -> Settled T.

(** [selections.map((s) => ({ model, config, modelName, score }))] *)
Definition toCandidate (s : Selection.SelectionResult L) : ModelCandidate L :=
  mkCandidate (Selection.sel_model s) (Selection.sel_config s)
              (Selection.sel_modelName s) (Selection.sel_score s).

(** [generate] on a loaded configuration. *)
Definition generate (query : str) (options : BaseWrapperOptions) (cfg : Config)
    (tr : Trace) : (GenerateFailure + ExecutionResult T) * Trace :=
  let fallbackCount := default DEFAULT_FALLBACK_COUNT (o_fallbackCount options) in
  match Selection.selectModelsDetailed Number createLanguageModel query
          (Some fallbackCount) cfg with
  | inl e => (inl (SelectionFailed e), tr)
  | inr None => (inl FactoryRejected, tr)
  | inr (Some selections) =>
      let candidates := map toCandidate selections in
      match executeWithFallbacks now fn candidates options tr with
      | (inl f, tr') => (inl (ExecutionFailed f), tr')
      | (inr executionResult, tr') => (inr executionResult, tr')
      end
  end.

End Generate.

End Pipeline.

(* ================================================================== *)
(** ** Specification-side definitions *)
(* ================================================================== *)

(** The conditions of a query that a candidate satisfies, and the sum of
    the weights of a list of conditions. *)
Definition satisfiedConditions (attrs : ModelAttributes) (q : ParsedQuery)
  : list QueryCondition :=
  List.filter (fun c => evaluateCondition c attrs) (conditions q).

Definition failedConditions (attrs : ModelAttributes) (q : ParsedQuery)
  : list QueryCondition :=
  List.filter (fun c => negb (evaluateCondition c attrs)) (conditions q).

Definition sumWeights (cs : list QueryCondition) : Z :=
  fold_right Z.add 0 (map weight cs).

(** Two attribute values are the same value of the same type. *)
Definition sameValue (a b : AttributeValue) : Prop :=
  match a, b with
  | VBool x, VBool y => x = y
  | VNum x, VNum y => (x == y)%Q
  | VStr x, VStr y => x = y
  | _, _ => False
  end.

(** What an operator asks of the stored value [a] and the target [t]:
    the ordering operators hold between two numbers only. *)
Definition operatorHolds (op : ComparisonOperator) (a t : AttributeValue)
  : Prop :=
  match op with
  | OpEq => sameValue a t
  | OpNe => ~ sameValue a t
  | OpGt => exists x y, a = VNum x /\ t = VNum y /\ (y < x)%Q
  | OpGe => exists x y, a = VNum x /\ t = VNum y /\ (y <= x)%Q
  | OpLt => exists x y, a = VNum x /\ t = VNum y /\ (x < y)%Q
  | OpLe => exists x y, a = VNum x /\ t = VNum y /\ (x <= y)%Q
  end.

(** The attribute maps of the examples. *)
Definition attrs_functions_not_local : ModelAttributes :=
  <[lit "functions" := VBool true]> (<[lit "local" := VBool false]> ∅).

Definition attrs_local_no_functions : ModelAttributes :=
  <[lit "local" := VBool true]> (<[lit "functions" := VBool false]> ∅).

Definition matchesNoPattern (e : JsError) : Prop :=
  matchesPatterns (getErrorText e) RATE_LIMIT_PATTERNS = false /\
  matchesPatterns (getErrorText e) AUTH_PATTERNS = false /\
  matchesPatterns (getErrorText e) INVALID_REQUEST_PATTERNS = false /\
  matchesPatterns (getErrorText e) TRANSIENT_PATTERNS = false.

(** The raw outcome of the [switch] of [evaluateCondition]. *)
Definition rawOutcome (op : ComparisonOperator) (a t : AttributeValue) : bool :=
  match op with
  | OpEq => strictEquals a t
  | OpNe => negb (strictEquals a t)
  | OpGt => bothNumbers (fun a b => Qlt_bool b a) a t
  | OpGe => bothNumbers (fun a b => Qle_bool b a) a t
  | OpLt => bothNumbers Qlt_bool a t
  | OpLe => bothNumbers Qle_bool a t
  end.

Definition isOrdering (op : ComparisonOperator) : Prop :=
  op = OpGt \/ op = OpGe \/ op = OpLt \/ op = OpLe.

(** The candidates and operations of the end-to-end examples. *)
Definition mockConfig (prov : string) : ModelConfig :=
  mkModelConfig (lit prov) (lit "test-model") None None true ∅.

Definition mockCandidate (name prov : string) : ModelCandidate unit :=
  mkCandidate tt (mockConfig prov) (lit name) 1%Q.

Definition threeCandidates : list (ModelCandidate unit) :=
  [ mockCandidate "model-1" "provider-1";
    mockCandidate "model-2" "provider-2";
    mockCandidate "model-3" "provider-3" ].

(** Every call for the first two candidates rejects with a network
    error; every call for the third resolves. *)
Definition thirdSucceeds (c : ModelCandidate unit) (_ : Trace) : Settled str :=
  if strEqb (modelName c) (lit "model-3") then Resolved (lit "output of model-3")
  else Rejected (newError (lit "Network error")).

(** Every call rejects with an invalid-request error. *)
Definition alwaysInvalid (c : ModelCandidate unit) (_ : Trace) : Settled str :=
  Rejected (newError (lit "Invalid request: bad input")).

Definition defaultOptions : BaseWrapperOptions :=
  mkOptions None None None None.

Definition noRetries : BaseWrapperOptions :=
  mkOptions None (Some 0) None None.

(** Every attempt on the candidate fails, by rejection or timeout, with
    an error classified TRANSIENT. *)
Definition failsTransiently {M T : Type}
    (fn : ModelCandidate M -> Trace -> Settled T)
    (options : ExecutorOptions) (c : ModelCandidate M) : Prop :=
  forall tr, exists e,
    withTimeout (fn c tr) (timeout options) = inl e /\
    category (classifyError e) = TRANSIENT.

(** The first candidate's stream fails with a network error before it
    yields anything; the second yields two chunks and completes. *)
Definition failsBeforeFirstChunk (c : ModelCandidate unit) (_ : Trace)
  : StreamRun str :=
  if strEqb (modelName c) (lit "model-1")
  then mkRun [] (inl (newError (lit "Network error")))
  else mkRun [lit "Hello, "; lit "world"] (inr (lit "Hello, world")).

(** The first candidate's stream yields two chunks and then fails. *)
Definition failsMidStream (c : ModelCandidate unit) (_ : Trace)
  : StreamRun str :=
  if strEqb (modelName c) (lit "model-1")
  then mkRun [lit "Hel"; lit "lo"] (inl (newError (lit "Network error")))
  else mkRun [lit "Hello, "; lit "world"] (inr (lit "Hello, world")).

Definition twoCandidates : list (ModelCandidate unit) :=
  [ mockCandidate "model-1" "provider-1"; mockCandidate "model-2" "provider-2" ].

(** How often the operation of the candidate called [name] was started. *)
Definition timesInvoked (name : str) (tr : Trace) : Z :=
  Z.of_nat (length (List.filter (strEqb name) (invocations tr))).

(** Retrying before the first chunk as in single-shot mode: a candidate
    that always fails before its first chunk with a retryable error is
    attempted [1 + maxRetries] times. *)
Definition retriedBeforeFirstChunk (maxRetries : Z) (name : str) (tr : Trace)
  : Prop :=
  timesInvoked name tr = 1 + maxRetries.

(** Three enabled models, the first and the third with the same
    attributes, and one disabled model. *)
Definition rankingConfig : Config :=
  mkConfig ∅
  [ (lit "alpha", mkModelConfig (lit "ollama") (lit "a") None None true
                    (<[lit "local" := VBool true]> ∅));
    (lit "beta", mkModelConfig (lit "openai") (lit "b") None None true
                    (<[lit "local" := VBool false]> ∅));
    (lit "off", mkModelConfig (lit "openai") (lit "x") None None false
                    (<[lit "local" := VBool true]> ∅));
    (lit "gamma", mkModelConfig (lit "ollama") (lit "c") None None true
                    (<[lit "local" := VBool true]> ∅)) ].

(** Non-increasing normalized score. *)
Definition scoreDescending (a b : Ranker.RankedModel) : Prop :=
  (Ranker.normalizedScore b <= Ranker.normalizedScore a)%Q.

(** The candidates whose normalized score is [s]. *)
Definition withScore (s : Q) (l : list Ranker.RankedModel)
  : list Ranker.RankedModel :=
  List.filter (fun r => Qeq_bool (Ranker.normalizedScore r) s) l.

Definition comma : ascii := ","%char.

(** The tokens the parser sees for a list of trimmed query tokens: each
    token is expanded, and the expansion is split and trimmed again. *)
Definition tokensOf (al : Aliases) (tokens : list str) : list str :=
  concat (map (fun t => queryTokens (expandToken al t)) tokens).

(** An alias whose replacement is the empty string. *)
Definition emptyAlias : Aliases := <[lit "fast" := []]> ∅.

(** An alias of two sub-conditions, the first with a weight of its own. *)
Definition weightedAlias : Aliases := <[lit "combo" := lit "fast:7, cheap"]> ∅.

(** An alias of two plain sub-conditions. *)
Definition plainAlias : Aliases := <[lit "combo" := lit "fast, cost <= 3"]> ∅.

Definition nonBlank (t : str) : bool := negb (isEmpty t).

(** How a comparison operator is written in a query. *)
Definition operatorSymbol (op : ComparisonOperator) : str :=
  match op with
  | OpEq => lit "=" | OpNe => lit "!=" | OpGt => lit ">"
  | OpGe => lit ">=" | OpLt => lit "<" | OpLe => lit "<="
  end.

(** The characters of a query without any condition. *)
Definition blankOrComma (c : ascii) : bool := isWhiteSpace c || Ascii.eqb c comma.

(** The patterns that are one literal text, such as [/429/]. *)
Definition literalOf (w : str) : list Atom := map Lit w.

(** A pattern that can only match at a letter. *)
Definition startsWithLetter (p : RegExp) : bool :=
  match atoms p with
  | Lit c :: _ => negb (isDigit c) && negb (isDigit (toLower c))
  | _ => false
  end.

(** Atoms that are literal decimal digits. *)
Definition digitAtoms (l : list Atom) : bool :=
  forallb (fun a => match a with Lit c => isDigit c | OptAny => false end) l.

(** A pattern of decimal digits, matched with case. *)
Definition digitPattern (p : RegExp) : bool :=
  negb (ignoreCase p) && match atoms p with [] => false | _ => true end
  && digitAtoms (atoms p).

(** The category of a timeout, read off the decimal text of its
    duration. *)
Definition timeoutCategory (digits : str) : ErrorCategory :=
  if test (re "429") digits then RATE_LIMIT
  else if test (re "401") digits || test (re "403") digits then AUTH
  else if test (re "400") digits then INVALID_REQUEST
  else TRANSIENT.

(** The delays of the first [n] backoff sleeps. *)
Definition backoffSchedule (options : ExecutorOptions) (n : nat) : list Z :=
  map (fun k => retryDelay options * 2 ^ Z.of_nat k) (seq 0 n).

(** A failed attempt that the retry loop follows by another one. *)
Definition retriedFailure (name prov : str) (a : AttemptInfo) : Prop :=
  a_modelName a = name /\ a_provider a = prov /\ success a = false /\
  exists e, error a = Some e /\ shouldRetry (classifyError e) = true.

(** Operations started for the models [names]: for the model at
    position [k], [counts !! k] of them, in the order of the list. *)
Definition callBlocks (names : list str) (counts : list nat) : list str :=
  concat (zip_with (fun name n => repeat name n) names counts).

(** The model switches the [onFallback] hook was told about. *)
Definition fallbackHops (tr : Trace) : list (str * str) :=
  omap (fun ev => match ev with
                  | OnFallback from to _ => Some (from, to)
                  | _ => None
                  end) tr.

(** Each name paired with the next one. *)
Definition consecutive (names : list str) : list (str * str) :=
  zip names (tail names).

(** [new Error('Unknown error')], thrown by a retry loop that made no
    attempt. *)
Definition unknownError : JsError := newError (lit "Unknown error").

(** What the consumer receives from one run of a candidate's stream. *)
Definition chunksOf {M R : Type} (streamText : ModelCandidate M -> Trace -> StreamRun R)
    (c : ModelCandidate M) : list (str * str) :=
  map (fun chunk => (chunk, modelName c)) (chunks (streamText c [])).

(** [(a, b) => score(b) - score(a)], the comparison of both rankings. *)
Definition descendingBy {A : Type} (score : A -> Q) (a b : A) : Q :=
  (score b - score a)%Q.

(** Non-increasing score, for the entries of an embedding ranking. *)
Definition embeddingDescending {L : Type} (a b : Selection.EmbeddingCandidate L) : Prop :=
  (Selection.e_score b <= Selection.e_score a)%Q.

(** What ends a reference to an environment variable: a character that
    can neither go on a name nor be one of its braces. *)
Definition endsReference (x : ascii) : bool :=
  negb (isIdChar x) && negb (Ascii.eqb x "{") && negb (Ascii.eqb x "}").

(** The text [rest] after a reference that has the closing text [close]
    does not go on the reference: the reference is closed by its brace,
    or [rest] starts with no character of a name and with no brace. *)
Definition pastReference (close rest : str) : bool :=
  negb (isEmpty close)
  || match rest with
     | [] => true
     | x :: _ => negb (isIdChar x) && negb (Ascii.eqb x "}")
     end.

(** [k in obj] on the list of entries. *)
Definition hasProperty {V : Type} (obj : list (str * V)) (k : str) : bool :=
  match Loader.getProperty obj k with Some _ => true | None => false end.

(** A ranked entry after [processModelConfig]. *)
Definition processRanked (env : Loader.Env) (r : Ranker.RankedModel)
  : Ranker.RankedModel :=
  Ranker.mkRanked (Ranker.name r)
                  (Loader.processModelConfig env (Ranker.config r))
                  (Ranker.matchResult r) (Ranker.normalizedScore r).

(** A provider factory that creates every model. *)
Definition alwaysCreates (c : ModelConfig) : unit + unit := inr tt.

(** An embedding factory for the provider [ollama] only. *)
Definition ollamaEmbeds (c : ModelConfig) : unit + str :=
  if strEqb (provider c) (lit "ollama") then inr (model_id c) else inl tt.

(** Every call rejects with a network error but those for [gamma]. *)
Definition gammaSucceeds (c : ModelCandidate unit) (_ : Trace) : Settled str :=
  if strEqb (modelName c) (lit "gamma") then Resolved (lit "output of gamma")
  else Rejected (newError (lit "Network error")).

Definition negativeRetries : BaseWrapperOptions :=
  mkOptions None (Some (-1)) None None.

(** A user-level and a project-level configuration: the project
    redefines [alpha] and the alias [quick], and adds [gamma]. *)
Definition userConfig : Config :=
  mkConfig (<[lit "quick" := lit "fast"]> ∅)
  [ (lit "alpha", mkModelConfig (lit "ollama") (lit "a") None None true
                    (<[lit "fast" := VBool true]> ∅));
    (lit "beta", mkModelConfig (lit "openai") (lit "b") None None true ∅) ].

Definition projectConfig : Config :=
  mkConfig (<[lit "quick" := lit "fast, local"]> ∅)
  [ (lit "gamma", mkModelConfig (lit "ollama") (lit "c") None None true ∅);
    (lit "alpha", mkModelConfig (lit "ollama") (lit "a2") None None false ∅) ].

Definition keyEnv : Loader.Env := <[lit "OPENAI_API_KEY" := lit "sk-1"]> ∅.

(** A configuration whose first model takes its key from the
    environment. *)
Definition keyedConfig : Config :=
  mkConfig ∅
  [ (lit "gpt", mkModelConfig (lit "openai") (lit "gpt-4o")
                  (Some (lit "$OPENAI_API_KEY")) None true
                  (<[lit "local" := VBool false]> ∅));
    (lit "llama", mkModelConfig (lit "ollama") (lit "llama3") None
                    (Some (lit "http://localhost:11434")) true
                    (<[lit "local" := VBool true]> ∅)) ].

(** An alias whose replacement is the name of another alias. *)
Definition chainedAliases : Aliases :=
  <[lit "quick" := lit "fast"]> (<[lit "fast" := lit "local"]> ∅).

(* ================================================================== *)
(** ** Error classifier *)
(* ================================================================== *)

Section ClassifierFacts.

Lemma classifyError_cases (e : JsError) :
  let c := classifyError e in
  (category c = RATE_LIMIT /\ shouldRetry c = false /\ shouldFallback c = true) \/
  (category c = AUTH /\ shouldRetry c = false /\ shouldFallback c = true) \/
  (category c = INVALID_REQUEST /\ shouldRetry c = false /\ shouldFallback c = false) \/
  (category c = TRANSIENT /\ shouldRetry c = true /\ shouldFallback c = true) \/
  (category c = UNKNOWN /\ shouldRetry c = true /\ shouldFallback c = true).
Proof.
  unfold classifyError.
  destruct (matchesPatterns _ RATE_LIMIT_PATTERNS); [simpl; tauto|].
  destruct (matchesPatterns _ AUTH_PATTERNS); [simpl; tauto|].
  destruct (matchesPatterns _ INVALID_REQUEST_PATTERNS); [simpl; tauto|].
  destruct (matchesPatterns _ TRANSIENT_PATTERNS); simpl; tauto.
Qed.

Lemma invalid_request_no_fallback (e : JsError) :
  category (classifyError e) = INVALID_REQUEST ->
  shouldRetry (classifyError e) = false /\ shouldFallback (classifyError e) = false.
Proof.
  intros H. pose proof (classifyError_cases e) as C. cbv zeta in C.
  rewrite H in C.
  destruct C as [C|[C|[C|[C|C]]]]; destruct C as (C1 & C2 & C3);
    try discriminate C1; auto.
Qed.

Lemma classifyError_original (e : JsError) : original (classifyError e) = e.
Proof.
  unfold classifyError.
  repeat match goal with |- context [if ?b then _ else _] => destruct b end;
    reflexivity.
Qed.

(** C6. [classifyError] is a total function: for every error it
    returns a classification of that error whose category is one of
    the five; [shouldRetry] holds exactly for TRANSIENT and UNKNOWN,
    [shouldFallback] fails exactly for INVALID_REQUEST; a text that no
    pattern set matches is UNKNOWN with both flags set; the message
    [Rate limit exceeded] is RATE_LIMIT without retry and with
    fallback, and [Bad request (400)] is INVALID_REQUEST without
    fallback. *)
Theorem classifyError_total_policy :
  (forall e : JsError,
      exists c : ClassifiedError,
        classifyError e = c /\ original c = e /\
        In (category c) [RATE_LIMIT; AUTH; TRANSIENT; INVALID_REQUEST; UNKNOWN] /\
        (shouldRetry c = true <->
         category c = TRANSIENT \/ category c = UNKNOWN) /\
        (shouldFallback c = false <-> category c = INVALID_REQUEST) /\
        (matchesNoPattern e ->
         category c = UNKNOWN /\ shouldRetry c = true /\ shouldFallback c = true)) /\
  (let c := classifyError (newError (lit "Rate limit exceeded")) in
   category c = RATE_LIMIT /\ shouldRetry c = false /\ shouldFallback c = true) /\
  (let c := classifyError (newError (lit "Bad request (400)")) in
   category c = INVALID_REQUEST /\ shouldFallback c = false).
Proof.
  split; [|split; vm_compute; auto].
  intros e. exists (classifyError e).
  split; [reflexivity|]. split; [apply classifyError_original|].
  pose proof (classifyError_cases e) as H. cbv zeta in H.
  split; [|split; [|split]].
  - destruct H as [H|[H|[H|[H|H]]]]; destruct H as (-> & _); simpl; tauto.
  - destruct H as [H|[H|[H|[H|H]]]]; destruct H as (-> & -> & _);
      split; intros; try discriminate; try tauto;
      destruct H; discriminate.
  - destruct H as [H|[H|[H|[H|H]]]]; destruct H as (-> & _ & ->);
      split; intros; try discriminate; try reflexivity.
  - intros (H1 & H2 & H3 & H4). unfold classifyError.
    rewrite H1, H2, H3, H4. simpl. auto.
Qed.

Lemma classifyError_total_policy_witness :
  let e := newError (lit "Something unexpected happened") in
  matchesNoPattern e /\
  category (classifyError e) = UNKNOWN /\
  shouldRetry (classifyError e) = true /\
  shouldFallback (classifyError e) = true.
Proof.
  intros e.
  assert (Hno : matchesNoPattern e) by (vm_compute; auto).
  split; [exact Hno|].
  destruct (proj1 classifyError_total_policy e) as (c & Hc & _ & _ & _ & _ & Hu).
  rewrite Hc. exact (Hu Hno).
Defined.

End ClassifierFacts.

(* ================================================================== *)
(** ** Matcher and scorer *)
(* ================================================================== *)

Section MatcherFacts.

Lemma sumWeights_app (xs ys : list QueryCondition) :
  sumWeights (xs ++ ys) = sumWeights xs + sumWeights ys.
Proof.
  unfold sumWeights. induction xs as [|x xs IH]; simpl; [reflexivity|].
  rewrite IH. lia.
Qed.

(** The loop of [matchModel], from any intermediate tally. *)
Lemma tally_fold (attrs : ModelAttributes) (cs : list QueryCondition) :
  forall t : Tally,
    let sat := List.filter (fun c => evaluateCondition c attrs) cs in
    let unsat := List.filter (fun c => negb (evaluateCondition c attrs)) cs in
    let t' := fold_left (tallyCondition attrs) cs t in
    t_score t' = t_score t + sumWeights sat /\
    t_maxScore t' = t_maxScore t + sumWeights cs /\
    t_matched t' = t_matched t ++ map attribute sat /\
    t_missing t' = t_missing t ++ map attribute unsat.
Proof.
  induction cs as [|c cs IH]; intros t; cbn zeta.
  - simpl. unfold sumWeights; simpl.
    rewrite !app_nil_r. repeat split; lia.
  - simpl fold_left. specialize (IH (tallyCondition attrs t c)).
    cbn zeta in IH. destruct IH as (Hs & Hm & Ha & Hb).
    rewrite Hs, Hm, Ha, Hb. clear Hs Hm Ha Hb.
    unfold tallyCondition. simpl List.filter.
    destruct (evaluateCondition c attrs); simpl;
      unfold sumWeights; simpl; rewrite <- ?app_assoc; simpl;
      repeat split; lia.
Qed.


(** A candidate [matches] only if it satisfies some condition; with
    positive weights the converse holds as well. *)
Lemma matches_some_condition (attrs : ModelAttributes) (q : ParsedQuery) :
  matches (matchModel attrs q) = true ->
  exists c, In c (conditions q) /\ evaluateCondition c attrs = true.
Proof.
  intros H. unfold matchModel in H. simpl in H. apply Z.ltb_lt in H.
  pose proof (tally_fold attrs (conditions q) (mkTally 0 0 [] [])) as Hfold.
  cbn zeta in Hfold. destruct Hfold as (Hs & _). simpl in Hs. rewrite Hs in H.
  destruct (List.filter _ (conditions q)) as [|c l] eqn:E.
  - unfold sumWeights in H. simpl in H. lia.
  - exists c. apply (proj1 (filter_In (fun c => evaluateCondition c attrs) c (conditions q))).
    rewrite E. left. reflexivity.
Qed.

Lemma strictEquals_sameValue (a b : AttributeValue) :
  strictEquals a b = true <-> sameValue a b.
Proof.
  destruct a as [x|x|x], b as [y|y|y]; simpl; try (split; [discriminate|tauto]).
  - destruct x, y; simpl; split; congruence.
  - apply Qeq_bool_iff.
  - revert y. induction x as [|c x IH]; intros [|d y]; simpl;
      try (split; congruence).
    rewrite andb_true_iff, IH, Ascii.eqb_eq. split.
    + intros [-> ->]. reflexivity.
    + intros [= -> ->]. auto.
Qed.

Lemma Qlt_bool_iff (x y : Q) : Qlt_bool x y = true <-> (x < y)%Q.
Proof.
  unfold Qlt_bool. rewrite negb_true_iff. split.
  - intros H. apply Qnot_le_lt. intros Hle.
    apply Qle_bool_iff in Hle. congruence.
  - intros H. destruct (Qle_bool y x) eqn:E; [|reflexivity].
    apply Qle_bool_iff in E. exfalso. apply (Qlt_not_le _ _ H E).
Qed.

Lemma rawOutcome_holds (op : ComparisonOperator) (a t : AttributeValue) :
  rawOutcome op a t = true <-> operatorHolds op a t.
Proof.
  destruct op; simpl.
  - apply strictEquals_sameValue.
  - rewrite negb_true_iff, <- strictEquals_sameValue.
    destruct (strictEquals a t); split; congruence.
  - destruct a as [x|x|x], t as [y|y|y]; simpl;
      try (split; [discriminate | intros (? & ? & ? & ? & _); discriminate]).
    rewrite Qlt_bool_iff. split.
    + intros H. exists x, y. auto.
    + intros (x' & y' & [= ->] & [= ->] & H). exact H.
  - destruct a as [x|x|x], t as [y|y|y]; simpl;
      try (split; [discriminate | intros (? & ? & ? & ? & _); discriminate]).
    rewrite Qle_bool_iff. split.
    + intros H. exists x, y. auto.
    + intros (x' & y' & [= ->] & [= ->] & H). exact H.
  - destruct a as [x|x|x], t as [y|y|y]; simpl;
      try (split; [discriminate | intros (? & ? & ? & ? & _); discriminate]).
    rewrite Qlt_bool_iff. split.
    + intros H. exists x, y. auto.
    + intros (x' & y' & [= ->] & [= ->] & H). exact H.
  - destruct a as [x|x|x], t as [y|y|y]; simpl;
      try (split; [discriminate | intros (? & ? & ? & ? & _); discriminate]).
    rewrite Qle_bool_iff. split.
    + intros H. exists x, y. auto.
    + intros (x' & y' & [= ->] & [= ->] & H). exact H.
Qed.



End MatcherFacts.


(* ================================================================== *)
(** ** Fallback execution engine *)
(* ================================================================== *)

Lemma invocations_app (a b : Trace) :
  invocations (a ++ b) = invocations a ++ invocations b.
Proof. unfold invocations. apply omap_app. Qed.

Lemma sleeps_app (a b : Trace) : sleeps (a ++ b) = sleeps a ++ sleeps b.
Proof. unfold sleeps. apply omap_app. Qed.

Lemma invocations_notifyFallback i failed name tr :
  invocations (notifyFallback i failed name tr) = invocations tr.
Proof.
  unfold notifyFallback.
  destruct ((0 <? i) && (0 <? length failed)%nat); [|reflexivity].
  destruct (lastFailure failed); [|reflexivity].
  rewrite invocations_app. simpl. apply app_nil_r.
Qed.

Section ExecutorFacts.

Context {M T : Type}.
Variable now : Trace -> Z.
Variable fn : ModelCandidate M -> Trace -> Settled T.

(** The retry loop of one candidate starts no operation but that
    candidate's. *)
Lemma retryLoop_invocations options candidate iterations :
  forall attempt attempts lastError tr,
  exists n : nat,
    invocations (snd (retryLoop now fn options candidate iterations attempt
                                attempts lastError tr))
    = invocations tr ++ repeat (modelName candidate) n.
Proof.
  induction iterations as [|k IH]; intros attempt attempts lastError tr.
  - exists 0%nat. simpl. symmetry. apply app_nil_r.
  - simpl.
    destruct (withTimeout _ _) as [err|res].
    + destruct (shouldRetry (classifyError err)); simpl.
      * match goal with
        | |- context [retryLoop _ _ _ _ _ ?a ?b ?c ?d] =>
            destruct (IH a b c d) as (n & Hn)
        end.
        exists (S n). rewrite Hn.
        destruct (attempt <? maxRetries options);
          rewrite ?invocations_app; simpl; rewrite ?app_nil_r, <- ?app_assoc;
          reflexivity.
      * exists 1%nat. rewrite !invocations_app. simpl.
        rewrite app_nil_r. reflexivity.
    + exists 1%nat. simpl. rewrite !invocations_app. simpl.
      rewrite app_nil_r. reflexivity.
Qed.

(** Running the candidate loop over a list whose first part fails
    throughout continues with the second part. *)
Lemma fallbackLoop_app options (xs : list (ModelCandidate M)) :
  forall ys i allAttempts failed tr failed' tr',
    fallbackLoop now fn options xs i allAttempts failed tr
    = (inl (AllModelsFailedError failed'), tr') ->
    fallbackLoop now fn options (xs ++ ys) i allAttempts failed tr
    = fallbackLoop now fn options ys (i + Z.of_nat (length xs)) allAttempts failed' tr'.
Proof.
  induction xs as [|x xs IH]; intros ys i allAttempts failed tr failed' tr' H.
  - simpl in H. injection H as -> ->. simpl. rewrite Z.add_0_r. reflexivity.
  - simpl in H. simpl app. simpl fallbackLoop.
    destruct (executeWithRetry now fn options x _) as [[err|[res atts]] tr1].
    + destruct (shouldFallback (classifyError err)); simpl in H |- *.
      * rewrite (IH ys _ _ _ _ _ _ H). f_equal. simpl length. lia.
      * discriminate H.
    + discriminate H.
Qed.

(** The candidate loop starts operations of its own candidates only. *)
Lemma fallbackLoop_invocations options (xs : list (ModelCandidate M)) :
  forall i allAttempts failed tr,
  exists calls : list str,
    invocations (snd (fallbackLoop now fn options xs i allAttempts failed tr))
    = invocations tr ++ calls /\
    forall n, In n calls -> In n (map modelName xs).
Proof.
  induction xs as [|x xs IH]; intros i allAttempts failed tr.
  - exists []. simpl. split; [symmetry; apply app_nil_r|tauto].
  - simpl fallbackLoop.
    pose proof (retryLoop_invocations options x
                  (Z.to_nat (maxRetries options + 1)) 0 [] None
                  (notifyFallback i failed (modelName x) tr)) as (n & Hn).
    fold (executeWithRetry now fn options x (notifyFallback i failed (modelName x) tr)) in Hn.
    rewrite invocations_notifyFallback in Hn.
    destruct (executeWithRetry now fn options x _) as [[err|[res atts]] tr1].
    + simpl in Hn. destruct (shouldFallback (classifyError err)); simpl.
      * destruct (IH (i + 1) allAttempts (failed ++ [(modelName x, err)]) tr1)
          as (calls & Hc & Hin).
        exists (repeat (modelName x) n ++ calls). split.
        -- rewrite Hc, Hn, <- app_assoc. reflexivity.
        -- intros m Hm. apply in_app_or in Hm. destruct Hm as [Hm|Hm].
           ++ left. symmetry. eapply repeat_spec; eassumption.
           ++ right. apply Hin, Hm.
      * exists (repeat (modelName x) n). split; [exact Hn|].
        intros m Hm. left. symmetry. eapply repeat_spec; eassumption.
    + simpl in Hn. simpl. exists (repeat (modelName x) n). split.
      * rewrite invocations_app, Hn. simpl. rewrite app_nil_r. reflexivity.
      * intros m Hm. left. symmetry. eapply repeat_spec; eassumption.
Qed.

(** C7. When the execution reaches a candidate (every earlier candidate
    having failed with a fallback-eligible error) and that candidate's
    terminal error classifies with [shouldFallback = false], the whole
    execution rejects with that very error at the point where the
    candidate's retry loop ended: nothing happens afterwards, and the
    operations started are those of the earlier candidates and of this
    one, whatever candidates are ranked later. *)
Theorem fallback_short_circuit
    (candidates earlier later : list (ModelCandidate M))
    (candidate : ModelCandidate M) (options : BaseWrapperOptions)
    (failed : list (str * JsError)) (err : JsError) (tr tr1 tr2 : Trace) :
  Ranker.slice0 (default DEFAULT_FALLBACK_COUNT (o_fallbackCount options)) candidates
  = earlier ++ candidate :: later ->
  fallbackLoop now fn (resolveExecutorOptions options) earlier 0 [] [] tr
  = (inl (AllModelsFailedError failed), tr1) ->
  executeWithRetry now fn (resolveExecutorOptions options) candidate
    (notifyFallback (Z.of_nat (length earlier)) failed (modelName candidate) tr1)
  = (inl err, tr2) ->
  shouldFallback (classifyError err) = false ->
  executeWithFallbacks now fn candidates options tr = (inl (Thrown err), tr2) /\
  exists calls : list str,
    invocations tr2 = invocations tr ++ calls /\
    forall n, In n calls -> In n (map modelName (earlier ++ [candidate])).
Proof.
  intros Hslice Hearlier Hretry Hclass.
  assert (Hloop :
    fallbackLoop now fn (resolveExecutorOptions options)
                 (earlier ++ candidate :: later) 0 [] [] tr
    = (inl (Thrown err), tr2)).
  { rewrite (fallbackLoop_app _ _ _ _ _ _ _ _ _ Hearlier).
    simpl fallbackLoop. rewrite Z.add_0_l, Hretry, Hclass. reflexivity. }
  split.
  - unfold executeWithFallbacks. rewrite Hslice.
    assert (Hlen : (length (earlier ++ candidate :: later) =? 0)%nat = false).
    { rewrite length_app. simpl. apply Nat.eqb_neq. lia. }
    rewrite Hlen. exact Hloop.
  - destruct (fallbackLoop_invocations (resolveExecutorOptions options)
                (earlier ++ [candidate]) 0 [] [] tr) as (calls & Hc & Hin).
    exists calls. split; [|exact Hin].
    rewrite <- Hc.
    rewrite (fallbackLoop_app _ _ _ _ _ _ _ _ _ Hearlier).
    simpl fallbackLoop. rewrite Z.add_0_l, Hretry, Hclass. reflexivity.
Qed.

End ExecutorFacts.

Lemma fallback_short_circuit_witness :
  let candidates := [mockCandidate "model-1" "provider-1";
                     mockCandidate "model-2" "provider-2"] in
  let err := newError (lit "Invalid request: bad input") in
  category (classifyError err) = INVALID_REQUEST /\
  fst (executeWithFallbacks (fun _ => 0) alwaysInvalid candidates noRetries [])
  = inl (Thrown err) /\
  invocations (snd (executeWithFallbacks (fun _ => 0) alwaysInvalid candidates noRetries []))
  = [lit "model-1"].
Proof.
  intros candidates err.
  split; [vm_compute; reflexivity|].
  destruct (fallback_short_circuit (fun _ => 0) alwaysInvalid candidates []
              [mockCandidate "model-2" "provider-2"]
              (mockCandidate "model-1" "provider-1") noRetries [] err [] []
              [OnAttempt (lit "model-1") (lit "provider-1") 1; Invoke (lit "model-1")])
    as (Hrun & _).
  - vm_compute. reflexivity.
  - vm_compute. reflexivity.
  - vm_compute. reflexivity.
  - vm_compute. reflexivity.
  - rewrite Hrun. split; [reflexivity|]. vm_compute. reflexivity.
Defined.

Section AttemptLog.

Context {M T : Type}.
Variable now : Trace -> Z.
Variable fn : ModelCandidate M -> Trace -> Settled T.

Lemma transient_flags (e : JsError) :
  category (classifyError e) = TRANSIENT ->
  shouldRetry (classifyError e) = true /\ shouldFallback (classifyError e) = true.
Proof.
  intros H. pose proof (classifyError_cases e) as C. cbv zeta in C.
  rewrite H in C.
  destruct C as [C|[C|[C|[C|C]]]]; destruct C as (C1 & C2 & C3);
    try discriminate C1; auto.
Qed.

(** A candidate that fails transiently uses up its retry loop: one
    operation is started per round and the attempt records made on the
    way are dropped with the loop's local array when it throws. *)
Lemma retryLoop_exhausts options c :
  failsTransiently fn options c ->
  forall iterations attempt attempts lastError tr,
    (iterations <> 0%nat \/
     exists e0, lastError = Some e0 /\ category (classifyError e0) = TRANSIENT) ->
    exists e tr',
      retryLoop now fn options c iterations attempt attempts lastError tr
      = (inl e, tr') /\
      category (classifyError e) = TRANSIENT /\
      length (invocations tr') = (length (invocations tr) + iterations)%nat.
Proof.
  intros Hfail. induction iterations as [|k IH];
    intros attempt attempts lastError tr Hstart.
  - destruct Hstart as [Hk|(e0 & -> & He0)]; [congruence|].
    exists e0, tr. simpl. repeat split; [exact He0|lia].
  - simpl retryLoop.
    destruct (Hfail (tr ++ [OnAttempt (modelName c) (provider (config c)) (attempt + 1)]))
      as (e & He & Hcat).
    rewrite He. destruct (transient_flags e Hcat) as (Hretry & _).
    rewrite Hretry. simpl negb. cbv iota.
    match goal with
    | |- context [retryLoop _ _ _ _ _ ?a ?b ?c ?d] =>
        destruct (IH a b c d) as (e' & tr' & Hrun & Hcat' & Hlen)
    end.
    { right. exists e. auto. }
    exists e', tr'. split; [exact Hrun|]. split; [exact Hcat'|].
    rewrite Hlen.
    destruct (attempt <? maxRetries options);
      rewrite !invocations_app, !length_app; simpl; lia.
Qed.

Lemma retryLoop_first_success options c v :
  (forall tr, fn c tr = Resolved v) ->
  forall k attempt attempts lastError tr,
    exists info tr',
      retryLoop now fn options c (S k) attempt attempts lastError tr
      = (inr (v, attempts ++ [info]), tr') /\
      success info = true /\
      length (invocations tr') = S (length (invocations tr)).
Proof.
  intros Hok k attempt attempts lastError tr. simpl retryLoop.
  rewrite Hok. simpl withTimeout. cbv iota.
  eexists. eexists. split; [reflexivity|]. split; [reflexivity|].
  rewrite !invocations_app, !length_app. simpl. lia.
Qed.

(** C1, as the code has it.  Three ranked candidates, the first two
    failing transiently on every attempt and the third succeeding at
    once: the result is the third candidate's output with
    [fallbacksUsed = 2]; [(1 + maxRetries) * 2 + 1] operations are
    started, but the attempt log that is returned holds one entry, the
    successful one, instead of one entry per attempt. *)
Theorem single_shot_attempt_log
    (c1 c2 c3 : ModelCandidate M) (options : BaseWrapperOptions) (v : T)
    (tr : Trace) :
  let opts := resolveExecutorOptions options in
  0 <= maxRetries opts ->
  3 <= default DEFAULT_FALLBACK_COUNT (o_fallbackCount options) ->
  failsTransiently fn opts c1 ->
  failsTransiently fn opts c2 ->
  (forall tr', fn c3 tr' = Resolved v) ->
  exists r tr',
    executeWithFallbacks now fn [c1; c2; c3] options tr = (inr r, tr') /\
    result r = v /\
    modelUsed r = modelName c3 /\
    fallbacksUsed r = 2 /\
    length (attempts r) = 1%nat /\
    Z.of_nat (length (invocations tr'))
    = Z.of_nat (length (invocations tr)) + ((1 + maxRetries opts) * 2 + 1).
Proof.
  intros opts Hmax Hcount H1 H2 H3.
  unfold executeWithFallbacks. fold opts.
  assert (Hslice :
    Ranker.slice0 (default DEFAULT_FALLBACK_COUNT (o_fallbackCount options))
                  [c1; c2; c3] = [c1; c2; c3]).
  { unfold Ranker.slice0.
    destruct (default DEFAULT_FALLBACK_COUNT (o_fallbackCount options) <? 0) eqn:E.
    - apply Z.ltb_lt in E. lia.
    - apply firstn_all2. simpl. lia. }
  rewrite Hslice. simpl length. simpl Nat.eqb. cbv iota.
  simpl fallbackLoop. unfold executeWithRetry.
  remember (Z.to_nat (maxRetries opts + 1)) as k eqn:Ek.
  assert (Hk : k <> 0%nat) by (subst k; lia).
  destruct (retryLoop_exhausts opts c1 H1 k 0 [] None
              (notifyFallback 0 [] (modelName c1) tr) (or_introl Hk))
    as (e1 & tr1 & R1 & C1 & L1).
  rewrite R1. destruct (transient_flags e1 C1) as (_ & F1). rewrite F1.
  simpl negb. cbv iota.
  match goal with
  | |- context [retryLoop _ _ _ c2 k 0 [] None ?t] =>
      destruct (retryLoop_exhausts opts c2 H2 k 0 [] None t (or_introl Hk))
        as (e2 & tr2 & R2 & C2 & L2)
  end.
  rewrite R2. destruct (transient_flags e2 C2) as (_ & F2). rewrite F2.
  simpl negb. cbv iota.
  destruct k as [|k']; [congruence|].
  match goal with
  | |- context [retryLoop _ _ _ c3 (S k') 0 [] None ?t] =>
      destruct (retryLoop_first_success opts c3 v H3 k' 0 [] None t)
        as (info & tr3 & R3 & S3 & L3)
  end.
  rewrite R3.
  eexists. eexists. split; [reflexivity|].
  simpl. repeat split.
  rewrite invocations_app, length_app. simpl.
  rewrite L3, !invocations_notifyFallback, L2, invocations_notifyFallback, L1,
    invocations_notifyFallback.
  unfold opts, resolveExecutorOptions in Ek, Hmax. simpl in Ek, Hmax.
  lia.
Qed.

End AttemptLog.

Lemma single_shot_attempt_log_witness :
  let run := executeWithFallbacks (fun _ => 0) thirdSucceeds threeCandidates
                                  defaultOptions [] in
  exists r,
    fst run = inr r /\
    result r = lit "output of model-3" /\
    fallbacksUsed r = 2 /\
    length (attempts r) = 1%nat /\
    length (invocations (snd run)) = 7%nat /\
    (1 + DEFAULT_MAX_RETRIES) * 2 + 1 = 7.
Proof.
  intros run.
  destruct (single_shot_attempt_log (fun _ => 0) thirdSucceeds
              (mockCandidate "model-1" "provider-1")
              (mockCandidate "model-2" "provider-2")
              (mockCandidate "model-3" "provider-3")
              defaultOptions (lit "output of model-3") [])
    as (r & tr' & Hrun & Hres & _ & Hfb & Hlen & Hinv).
  - vm_compute. discriminate.
  - vm_compute. discriminate.
  - intros tr. exists (newError (lit "Network error")).
    split; vm_compute; reflexivity.
  - intros tr. exists (newError (lit "Network error")).
    split; vm_compute; reflexivity.
  - intros tr. reflexivity.
  - exists r. subst run. unfold threeCandidates. rewrite Hrun. simpl fst. simpl snd.
    assert (Hcalls : length (invocations tr') = 7%nat).
    { unfold resolveExecutorOptions, defaultOptions, DEFAULT_MAX_RETRIES in Hinv.
      simpl in Hinv. lia. }
    repeat split; assumption.
Defined.

(* ================================================================== *)
(** ** Streaming mode *)
(* ================================================================== *)

Lemma sleeps_notifyFallback i failed name tr :
  sleeps (notifyFallback i failed name tr) = sleeps tr.
Proof.
  unfold notifyFallback.
  destruct ((0 <? i) && (0 <? length failed)%nat); [|reflexivity].
  destruct (lastFailure failed); [|reflexivity].
  rewrite sleeps_app. simpl. apply app_nil_r.
Qed.

Section StreamingFacts.

Context {M R : Type}.
Variable now : Trace -> Z.
Variable streamText : ModelCandidate M -> Trace -> StreamRun R.

Lemma invocations_yieldAll name (cs : list str) (tr : Trace) :
  invocations (yieldAll name cs tr) = invocations tr.
Proof.
  unfold yieldAll. rewrite invocations_app.
  induction cs as [|c cs IH]; simpl; [apply app_nil_r|exact IH].
Qed.

Lemma sleeps_yieldAll name (cs : list str) (tr : Trace) :
  sleeps (yieldAll name cs tr) = sleeps tr.
Proof.
  unfold yieldAll. rewrite sleeps_app.
  induction cs as [|c cs IH]; simpl; [apply app_nil_r|exact IH].
Qed.

Ltac trace_norm :=
  repeat first
    [ rewrite invocations_yieldAll | rewrite sleeps_yieldAll
    | rewrite invocations_notifyFallback | rewrite sleeps_notifyFallback
    | rewrite invocations_app | rewrite sleeps_app ];
  simpl; repeat rewrite app_nil_r; repeat rewrite <- app_assoc; simpl.

Lemma streamLoop_trace (candidates : list (ModelCandidate M)) :
  forall i attempts failed tr,
    let tr' := snd (streamLoop now streamText candidates i attempts failed tr) in
    (exists k : nat,
        invocations tr' = invocations tr ++ map modelName (take k candidates)) /\
    sleeps tr' = sleeps tr.
Proof.
  induction candidates as [|c cs IH]; intros i attempts failed tr; cbn zeta.
  - simpl. split; [exists 0%nat; simpl; symmetry; apply app_nil_r|reflexivity].
  - simpl streamLoop.
    destruct (ending (streamText c _)) as [err|fin].
    + destruct (shouldFallback (classifyError err)); simpl negb; cbv iota.
      * match goal with
        | |- context [streamLoop _ _ _ ?a ?b ?c ?d] =>
            destruct (IH a b c d) as ((k & Hk) & Hs)
        end.
        split.
        -- exists (S k). rewrite Hk. trace_norm. reflexivity.
        -- rewrite Hs. trace_norm. reflexivity.
      * simpl. split.
        -- exists 1%nat. trace_norm. reflexivity.
        -- trace_norm. reflexivity.
    + simpl. split.
      * exists 1%nat. trace_norm. reflexivity.
      * trace_norm. reflexivity.
Qed.


End StreamingFacts.



(* ================================================================== *)
(** ** Candidate ranking *)
(* ================================================================== *)

Import Ranker.

Section RankerFacts.

Lemma byScoreDescending_le (x y : RankedModel) :
  Qle_bool (byScoreDescending x y) 0 = true <-> scoreDescending x y.
Proof.
  unfold byScoreDescending, scoreDescending. rewrite Qle_bool_iff.
  split; intros H; lra.
Qed.

Lemma byScoreDescending_gt (x y : RankedModel) :
  Qle_bool (byScoreDescending x y) 0 = false ->
  (normalizedScore x < normalizedScore y)%Q.
Proof.
  intros H. apply Qnot_le_lt. intros Hle.
  assert (Qle_bool (byScoreDescending x y) 0 = true) as E
    by (apply byScoreDescending_le; exact Hle).
  congruence.
Qed.

Lemma insertSorted_perm {A : Type} (compare : A -> A -> Q) (x : A) (l : list A) :
  Permutation (x :: l) (insertSorted compare x l).
Proof.
  induction l as [|y l IH]; simpl; [reflexivity|].
  destruct (Qle_bool (compare x y) 0); [reflexivity|].
  rewrite perm_swap. apply perm_skip, IH.
Qed.

Lemma sort_perm {A : Type} (compare : A -> A -> Q) (l : list A) :
  Permutation l (sort compare l).
Proof.
  induction l as [|x l IH]; simpl; [reflexivity|].
  rewrite <- insertSorted_perm. apply perm_skip, IH.
Qed.

Lemma insertSorted_sorted (x : RankedModel) (l : list RankedModel) :
  StronglySorted scoreDescending l ->
  StronglySorted scoreDescending (insertSorted byScoreDescending x l).
Proof.
  induction l as [|y l IH]; intros Hs; simpl.
  - constructor; constructor.
  - destruct (Qle_bool (byScoreDescending x y) 0) eqn:E.
    + apply byScoreDescending_le in E.
      constructor; [exact Hs|]. constructor; [exact E|].
      apply StronglySorted_inv in Hs. destruct Hs as (_ & Hall).
      eapply Forall_impl; [exact Hall|].
      intros z Hz. unfold scoreDescending in *. lra.
    + apply byScoreDescending_gt in E.
      apply StronglySorted_inv in Hs. destruct Hs as (Hs & Hall).
      constructor; [apply IH, Hs|].
      eapply Permutation_Forall; [apply insertSorted_perm|].
      constructor; [|exact Hall]. unfold scoreDescending. lra.
Qed.

Lemma sort_sorted (l : list RankedModel) :
  StronglySorted scoreDescending (sort byScoreDescending l).
Proof.
  induction l as [|x l IH]; simpl; [constructor|].
  apply insertSorted_sorted, IH.
Qed.

(** An insertion never passes an element of the same score. *)
Lemma withScore_insertSorted (s : Q) (x : RankedModel) (l : list RankedModel) :
  withScore s (insertSorted byScoreDescending x l) = withScore s (x :: l).
Proof.
  unfold withScore. induction l as [|y l IH]; simpl; [reflexivity|].
  destruct (Qle_bool (byScoreDescending x y) 0) eqn:E; [reflexivity|].
  apply byScoreDescending_gt in E. simpl. rewrite IH. simpl.
  destruct (Qeq_bool (normalizedScore x) s) eqn:Ex;
    destruct (Qeq_bool (normalizedScore y) s) eqn:Ey; try reflexivity.
  apply Qeq_bool_iff in Ex. apply Qeq_bool_iff in Ey. lra.
Qed.

Lemma withScore_sort (s : Q) (l : list RankedModel) :
  withScore s (sort byScoreDescending l) = withScore s l.
Proof.
  induction l as [|x l IH]; simpl; [reflexivity|].
  rewrite withScore_insertSorted. unfold withScore in *. simpl. rewrite IH.
  reflexivity.
Qed.



End RankerFacts.

(* ================================================================== *)
(** ** Strings: trimming, splitting and joining *)
(* ================================================================== *)

Section StringFacts.

Lemma dropWhile_app_last (p : ascii -> bool) (l : str) (c : ascii) :
  p c = false -> dropWhile p (l ++ [c]) = dropWhile p l ++ [c].
Proof.
  intros Hc. induction l as [|x l IH]; simpl.
  - rewrite Hc. reflexivity.
  - destruct (p x); [exact IH|reflexivity].
Qed.

Lemma dropWhile_idem (p : ascii -> bool) (l : str) :
  dropWhile p (dropWhile p l) = dropWhile p l.
Proof.
  induction l as [|x l IH]; simpl; [reflexivity|].
  destruct (p x) eqn:E; [exact IH|]. simpl. rewrite E. reflexivity.
Qed.

Lemma dropWhile_head (p : ascii -> bool) (l : str) :
  dropWhile p l = [] \/
  exists c r, dropWhile p l = c :: r /\ p c = false.
Proof.
  induction l as [|x l IH]; simpl; [left; reflexivity|].
  destruct (p x) eqn:E; [exact IH|]. right. eauto.
Qed.

Lemma trimEnd_cons (c : ascii) (r : str) :
  isWhiteSpace c = false -> trimEnd (c :: r) = c :: trimEnd r.
Proof.
  intros Hc. unfold trimEnd. simpl rev.
  rewrite (dropWhile_app_last _ _ _ Hc), rev_app_distr. reflexivity.
Qed.

Lemma trimEnd_idem (s : str) : trimEnd (trimEnd s) = trimEnd s.
Proof.
  unfold trimEnd. rewrite rev_involutive, dropWhile_idem. reflexivity.
Qed.

Lemma trimEnd_last (s : str) (c : ascii) :
  isWhiteSpace c = false -> trimEnd (s ++ [c]) = s ++ [c].
Proof.
  intros Hc. unfold trimEnd. rewrite rev_app_distr. simpl.
  rewrite Hc. simpl. rewrite rev_involutive. reflexivity.
Qed.

Lemma trim_cons (c : ascii) (r : str) :
  isWhiteSpace c = false -> trim (c :: r) = c :: trimEnd r.
Proof.
  intros Hc. unfold trim, trimStart. simpl. rewrite Hc.
  apply trimEnd_cons, Hc.
Qed.

Lemma trim_space (c : ascii) (s : str) :
  isWhiteSpace c = true -> trim (c :: s) = trim s.
Proof. intros Hc. unfold trim, trimStart. simpl. rewrite Hc. reflexivity. Qed.

Lemma trim_idem (s : str) : trim (trim s) = trim s.
Proof.
  assert (Hs : trim s = trimEnd (dropWhile isWhiteSpace s)) by reflexivity.
  rewrite Hs.
  destruct (dropWhile_head isWhiteSpace s) as [E|(c & r & E & Hc)]; rewrite E.
  - reflexivity.
  - rewrite (trimEnd_cons _ _ Hc), (trim_cons _ _ Hc), trimEnd_idem. reflexivity.
Qed.

Lemma In_dropWhile (p : ascii -> bool) (c : ascii) (l : str) :
  In c (dropWhile p l) -> In c l.
Proof.
  induction l as [|x l IH]; simpl; [tauto|].
  destruct (p x); [intros H; right; apply IH, H|tauto].
Qed.

Lemma In_trim (c : ascii) (s : str) : In c (trim s) -> In c s.
Proof.
  unfold trim, trimEnd, trimStart. intros H.
  apply in_rev, In_dropWhile, in_rev in H.
  apply In_dropWhile in H. exact H.
Qed.

Lemma split_nonempty (sep : ascii) (s : str) : split sep s <> [].
Proof.
  destruct s as [|c r]; simpl; [discriminate|].
  destruct (Ascii.eqb c sep); [discriminate|].
  destruct (split sep r); discriminate.
Qed.

Lemma split_cons_other (sep c : ascii) (s : str) :
  Ascii.eqb c sep = false ->
  exists h t, split sep s = h :: t /\ split sep (c :: s) = (c :: h) :: t.
Proof.
  intros Hc. simpl. rewrite Hc.
  destruct (split sep s) as [|h t] eqn:E.
  - exfalso. exact (split_nonempty _ _ E).
  - eauto.
Qed.

Lemma split_app_sep (sep : ascii) (a b : str) :
  split sep (a ++ sep :: b) = split sep a ++ split sep b.
Proof.
  induction a as [|c a IH]; simpl.
  - rewrite Ascii.eqb_refl. reflexivity.
  - destruct (Ascii.eqb c sep); rewrite IH; [reflexivity|].
    destruct (split sep a) as [|h t] eqn:E; [|reflexivity].
    exfalso. exact (split_nonempty _ _ E).
Qed.

Lemma split_no_sep (sep : ascii) (s : str) :
  ~ In sep s -> split sep s = [s].
Proof.
  induction s as [|c s IH]; intros Hn; simpl; [reflexivity|].
  destruct (Ascii.eqb c sep) eqn:E.
  - apply Ascii.eqb_eq in E. exfalso. apply Hn. left. exact E.
  - rewrite IH; [reflexivity|]. intros H. apply Hn. right. exact H.
Qed.

Lemma split_pieces_no_sep (sep : ascii) (s : str) :
  Forall (fun piece => ~ In sep piece) (split sep s).
Proof.
  induction s as [|c s IH]; simpl.
  - constructor; [tauto|constructor].
  - destruct (Ascii.eqb c sep) eqn:E.
    + constructor; [tauto|exact IH].
    + destruct (split sep s) as [|h t]; [constructor; [|constructor]|].
      * intros [H|[]]. subst c. rewrite Ascii.eqb_refl in E. discriminate.
      * apply Forall_cons in IH. destruct IH as (Hh & Ht).
        constructor; [|exact Ht].
        intros [H|H]; [|exact (Hh H)].
        subst c. rewrite Ascii.eqb_refl in E. discriminate.
Qed.

(** Appending a text without separator extends the last piece. *)
Lemma split_app_no_sep (sep : ascii) (s x : str) :
  ~ In sep x ->
  exists init lastp,
    split sep s = init ++ [lastp] /\
    split sep (s ++ x) = init ++ [lastp ++ x].
Proof.
  intros Hx. induction s as [|c s (init & lastp & Hs & Hsx)]; simpl.
  - exists [], []. split; [reflexivity|]. simpl. apply split_no_sep, Hx.
  - destruct (Ascii.eqb c sep).
    + exists ([] :: init), lastp. rewrite Hs, Hsx. split; reflexivity.
    + rewrite Hs, Hsx. destruct init as [|h t]; simpl.
      * exists [], (c :: lastp). split; reflexivity.
      * exists ((c :: h) :: t), lastp. split; reflexivity.
Qed.

(** Re-splitting what [join(', ')] put together gives, after trimming,
    the trimmed pieces of each part in turn. *)
Lemma resplit_join (parts : list str) :
  parts <> [] ->
  map trim (split comma (join (lit ", ") parts))
  = concat (map (fun part => map trim (split comma part)) parts).
Proof.
  induction parts as [|e rest IH]; intros Hne; [congruence|].
  destruct rest as [|e2 rest].
  - simpl. rewrite app_nil_r. reflexivity.
  - change (join (lit ", ") (e :: e2 :: rest))
      with (e ++ comma :: " "%char :: join (lit ", ") (e2 :: rest)).
    rewrite split_app_sep, map_app.
    change (concat (map (fun part => map trim (split comma part)) (e :: e2 :: rest)))
      with (map trim (split comma e)
            ++ concat (map (fun part => map trim (split comma part)) (e2 :: rest))).
    f_equal. rewrite <- IH by discriminate.
    destruct (split_cons_other comma " "%char (join (lit ", ") (e2 :: rest)))
      as (h & t & Hs & Hc); [reflexivity|].
    rewrite Hc, Hs. simpl map. rewrite trim_space by reflexivity. reflexivity.
Qed.

Lemma filter_concat {A : Type} (f : A -> bool) (ll : list (list A)) :
  List.filter f (concat ll) = concat (map (List.filter f) ll).
Proof.
  induction ll as [|l ll IH]; simpl; [reflexivity|].
  rewrite List.filter_app, IH. reflexivity.
Qed.

End StringFacts.

(* ================================================================== *)
(** ** Parser *)
(* ================================================================== *)

Section ParserFacts.

Lemma queryTokens_expandAliases (query : str) (al : Aliases) :
  queryTokens (expandAliases query al)
  = tokensOf al (map trim (split comma query)).
Proof.
  unfold queryTokens, expandAliases, tokensOf.
  fold comma. rewrite resplit_join.
  - rewrite filter_concat, !map_map. reflexivity.
  - destruct (split comma query) eqn:E; [|discriminate].
    exfalso. exact (split_nonempty _ _ E).
Qed.

Lemma aliasLookup_empty (k : str) : aliasLookup ∅ k = None.
Proof. unfold aliasLookup. rewrite lookup_empty. reflexivity. Qed.

Lemma expandToken_empty (t : str) : expandToken ∅ t = t.
Proof. unfold expandToken. rewrite aliasLookup_empty. reflexivity. Qed.

(** A trimmed token without comma is its own token list, unless it is
    blank. *)
Lemma queryTokens_single (t : str) :
  ~ In comma t -> trim t = t ->
  queryTokens t = if isEmpty t then [] else [t].
Proof.
  intros Hc Ht. unfold queryTokens. fold comma.
  rewrite (split_no_sep _ _ Hc). simpl. rewrite Ht.
  destruct t; reflexivity.
Qed.

Lemma tokensOf_identity (al : Aliases) (pieces : list str) :
  Forall (fun piece => ~ In comma piece) pieces ->
  (forall t, In t (map trim pieces) -> expandToken al t = t) ->
  tokensOf al (map trim pieces)
  = List.filter (fun t => negb (isEmpty t)) (map trim pieces).
Proof.
  unfold tokensOf.
  induction pieces as [|p ps IH]; intros Hpieces Hid; simpl; [reflexivity|].
  apply Forall_cons in Hpieces. destruct Hpieces as (Hp & Hps).
  rewrite Hid by (left; reflexivity).
  rewrite queryTokens_single.
  - rewrite IH; [|exact Hps|intros t Ht; apply Hid; right; exact Ht].
    destruct (trim p); reflexivity.
  - intros H. apply Hp, In_trim, H.
  - apply trim_idem.
Qed.

Lemma tokensOf_unexpanded (al : Aliases) (query : str) :
  (forall t, In t (map trim (split comma query)) -> expandToken al t = t) ->
  tokensOf al (map trim (split comma query)) = queryTokens query.
Proof.
  intros Hid. apply tokensOf_identity; [apply split_pieces_no_sep|exact Hid].
Qed.

Variable Number : str -> option Q.

Lemma parseToken_error (t : str) (pos n : Z) (e : QueryError) :
  parseToken Number t pos n = inl e -> e = InvalidCondition (trim t).
Proof.
  unfold parseToken.
  destruct (weightMatch (trim t)) as [[body digits]|];
    match goal with
    | |- context [startsWith ?a ?b] => destruct (startsWith a b)
    end;
    match goal with
    | |- context [comparisonMatch ?a] =>
        destruct (comparisonMatch a) as [[[? ?] ?]|]; try discriminate;
        destruct (isIdentifier a); try discriminate
    end;
    intros [= <-]; reflexivity.
Qed.

Lemma parseToken_weight (t : str) (pos n : Z) (c : QueryCondition) :
  parseToken Number t pos n = inr c ->
  weight c = match weightMatch (trim t) with
             | Some (_, digits) => parseInt digits
             | None => n - pos
             end.
Proof.
  unfold parseToken.
  destruct (weightMatch (trim t)) as [[body digits]|];
    match goal with
    | |- context [startsWith ?a ?b] => destruct (startsWith a b)
    end;
    match goal with
    | |- context [comparisonMatch ?a] =>
        destruct (comparisonMatch a) as [[[? ?] ?]|];
        [|destruct (isIdentifier a); try discriminate]
    end;
    intros [= <-]; reflexivity.
Qed.

Lemma parseTokens_lookup (tokens : list str) :
  forall (index total : Z) (cs : list QueryCondition),
    parseTokens Number tokens index total = inr cs ->
    length cs = length tokens /\
    forall (j : nat) (t : str) (c : QueryCondition),
      tokens !! j = Some t -> cs !! j = Some c ->
      parseToken Number t (index + Z.of_nat j) total = inr c.
Proof.
  induction tokens as [|t0 tokens IH]; intros index total cs H; simpl in H.
  - injection H as <-. split; [reflexivity|]. intros j t c Ht. discriminate Ht.
  - destruct (parseToken Number t0 index total) as [e|c0] eqn:E0; [discriminate|].
    destruct (parseTokens Number tokens (index + 1) total) as [e|cs'] eqn:E1;
      [discriminate|].
    injection H as <-. destruct (IH _ _ _ E1) as (Hlen & Hnth).
    split; [simpl; rewrite Hlen; reflexivity|].
    intros [|j] t c Ht Hc; simpl in Ht, Hc.
    + injection Ht as <-. injection Hc as <-. rewrite Z.add_0_r. exact E0.
    + rewrite <- (Hnth j t c Ht Hc). f_equal. lia.
Qed.

(** One token that cannot be parsed makes the whole traversal throw. *)
Lemma parseTokens_invalid (tokens : list str) (bad : str) :
  In bad tokens ->
  (forall pos n, exists e, parseToken Number bad pos n = inl e) ->
  forall index total,
    exists tok, parseTokens Number tokens index total = inl (InvalidCondition tok).
Proof.
  intros Hin Hbad. induction tokens as [|t tokens IH]; intros index total;
    [destruct Hin|].
  simpl. destruct (parseToken Number t index total) as [e|c] eqn:E.
  - apply parseToken_error in E. subst e. eauto.
  - destruct Hin as [->|Hin].
    + destruct (Hbad index total) as (e & He). congruence.
    + destruct (IH Hin (index + 1) total) as (tok & ->). eauto.
Qed.

Lemma parseTokens_returns (tokens : list str) :
  (forall t, In t tokens ->
             forall pos n, exists c, parseToken Number t pos n = inr c) ->
  forall index total, exists cs, parseTokens Number tokens index total = inr cs.
Proof.
  induction tokens as [|t tokens IH]; intros Hvalid index total; simpl.
  - eauto.
  - destruct (Hvalid t (or_introl eq_refl) index total) as (c & ->).
    destruct (IH (fun t' H => Hvalid t' (or_intror H)) (index + 1) total)
      as (cs & ->).
    eauto.
Qed.

(** [parseQuery] returns as soon as the query has a non-blank token and
    each of its tokens is a condition. *)
Lemma parseQuery_returns (query : str) (al : Aliases) :
  queryTokens (expandAliases query al) <> [] ->
  (forall t, In t (queryTokens (expandAliases query al)) ->
             forall pos n, exists c, parseToken Number t pos n = inr c) ->
  exists pq, parseQuery Number query al = inr pq.
Proof.
  intros Hne Hvalid. unfold parseQuery.
  destruct (queryTokens (expandAliases query al)) as [|t ts] eqn:E; [congruence|].
  simpl length. simpl Nat.eqb. cbv iota.
  destruct (parseTokens_returns (t :: ts) Hvalid 0 (Z.of_nat (S (length ts))))
    as (cs & ->).
  eauto.
Qed.


End ParserFacts.


(* ================================================================== *)
(** ** Alias expansion *)
(* ================================================================== *)

Section WeightSuffixFacts.

Lemma isDigit_not_colon (c : ascii) : isDigit c = true -> c <> ":"%char.
Proof. intros H ->. discriminate H. Qed.

Lemma isDigit_not_space (c : ascii) : isDigit c = true -> isWhiteSpace c = false.
Proof.
  destruct c as [[] [] [] [] [] [] [] []]; vm_compute; congruence.
Qed.

Lemma isDigit_not_comma (c : ascii) : isDigit c = true -> c <> comma.
Proof. intros H ->. discriminate H. Qed.

Lemma isLineTerminator_space (c : ascii) :
  isLineTerminator c = true -> isWhiteSpace c = true.
Proof.
  destruct c as [[] [] [] [] [] [] [] []]; vm_compute; congruence.
Qed.

(** What a match of the weight pattern says about the text. *)
Lemma weightMatch_inv (s body digits : str) :
  weightMatch s = Some (body, digits) ->
  s = body ++ ":"%char :: digits /\
  body <> [] /\ noLineTerminator body = true /\
  digits <> [] /\ forallb isDigit digits = true.
Proof.
  revert body. induction s as [|c r IH]; intros body H; simpl in H; [discriminate|].
  destruct (isLineTerminator c) eqn:Hc; [discriminate|].
  destruct (weightMatch r) as [[b d]|].
  - injection H as <- <-. destruct (IH b eq_refl) as (-> & Hb & Hlt & Hd & Hdig).
    repeat split; try assumption; [discriminate|].
    simpl. rewrite Hc. exact Hlt.
  - destruct r as [|c' ds]; [discriminate|].
    destruct (Ascii.eqb c' ":"%char) eqn:E.
    + apply Ascii.eqb_eq in E. subst c'.
      destruct (negb (isEmpty ds) && forallb isDigit ds) eqn:Hds; [|discriminate].
      injection H as <- <-. apply andb_true_iff in Hds. destruct Hds as (Hne & Hdig).
      repeat split; try assumption; try discriminate.
      * simpl. rewrite Hc. reflexivity.
      * intros ->. discriminate Hne.
    + exfalso. revert H E. clear.
      destruct c' as [[] [] [] [] [] [] [] []]; simpl; congruence.
Qed.

Lemma weightMatch_digits (w : str) :
  forallb isDigit w = true -> weightMatch w = None.
Proof.
  intros Hw. destruct (weightMatch w) as [[b d]|] eqn:E; [|reflexivity].
  apply weightMatch_inv in E. destruct E as (-> & _).
  rewrite forallb_app in Hw. apply andb_true_iff in Hw. destruct Hw as (_ & Hw).
  simpl in Hw. discriminate Hw.
Qed.

(** A text followed by a colon and digits matches the weight pattern
    with exactly these two groups. *)
Lemma weightMatch_app (body digits : str) :
  body <> [] -> noLineTerminator body = true ->
  digits <> [] -> forallb isDigit digits = true ->
  weightMatch (body ++ ":"%char :: digits) = Some (body, digits).
Proof.
  intros Hb Hlt Hd Hdig. induction body as [|c body IH]; [congruence|].
  simpl in Hlt. apply andb_true_iff in Hlt. destruct Hlt as (Hc & Hlt).
  apply negb_true_iff in Hc. simpl app. simpl weightMatch. rewrite Hc.
  destruct body as [|c2 body].
  - simpl app.
    assert (Hcolon : weightMatch (":"%char :: digits) = None).
    { simpl. rewrite (weightMatch_digits _ Hdig).
      destruct digits as [|d ds]; [reflexivity|].
      simpl in Hdig. apply andb_true_iff in Hdig. destruct Hdig as (Hd1 & _).
      pose proof (isDigit_not_colon _ Hd1) as Hn.
      destruct d as [[] [] [] [] [] [] [] []]; try reflexivity; congruence. }
    rewrite Hcolon, Hdig. destruct digits; [congruence|reflexivity].
  - rewrite IH; [reflexivity|discriminate|exact Hlt].
Qed.

Lemma weightMatch_head (c : ascii) (r body digits : str) :
  weightMatch (c :: r) = Some (body, digits) ->
  exists body', body = c :: body' /\
                (body' = [] -> exists ds, r = ":"%char :: ds).
Proof.
  intros H. apply weightMatch_inv in H. destruct H as (Heq & Hb & _).
  destruct body as [|c0 body']; [congruence|].
  simpl in Heq. injection Heq as -> ->.
  exists body'. split; [reflexivity|]. intros ->. simpl. eauto.
Qed.

End WeightSuffixFacts.

Section NegatedAlias.

Variable Number : str -> option Q.

(** A token that reads [!(...] is no condition: what follows the [!]
    starts with a parenthesis, which neither the comparison form nor the
    bare identifier form accepts. *)
Lemma group_not_condition (x : str) :
  comparisonMatch ("("%char :: x) = None /\
  isIdentifier ("("%char :: x) = false.
Proof. split; reflexivity. Qed.

Lemma parseToken_negated_group (r : str) (pos n : Z) :
  exists e, parseToken Number ("!"%char :: "("%char :: r) pos n = inl e.
Proof.
  assert (Htrim : trim ("!"%char :: "("%char :: r)
                  = "!"%char :: "("%char :: trimEnd r).
  { rewrite trim_cons by reflexivity. rewrite trimEnd_cons by reflexivity.
    reflexivity. }
  unfold parseToken. rewrite Htrim.
  destruct (weightMatch ("!"%char :: "("%char :: trimEnd r)) as [[body digits]|] eqn:E.
  - destruct (weightMatch_head _ _ _ _ E) as (b1 & -> & Hb1).
    destruct b1 as [|c b2].
    { destruct (Hb1 eq_refl) as (ds & Hds). discriminate Hds. }
    apply weightMatch_inv in E. destruct E as (Heq & _).
    simpl in Heq. injection Heq as <- _.
    rewrite trim_cons by reflexivity. rewrite trimEnd_cons by reflexivity.
    cbn [startsWith lit list_ascii_of_string Ascii.eqb Bool.eqb andb slice1 tl].
    rewrite trim_cons by reflexivity.
    cbn [comparisonMatch isIdStart]. simpl. eauto.
  - cbn [startsWith lit list_ascii_of_string Ascii.eqb Bool.eqb andb slice1 tl].
    rewrite trim_cons by reflexivity.
    simpl. eauto.
Qed.

Lemma In_tokensOf (al : Aliases) (tokens : list str) (t tok : str) :
  In t tokens -> In tok (queryTokens (expandToken al t)) ->
  In tok (tokensOf al tokens).
Proof.
  intros Ht Htok. unfold tokensOf. apply in_concat.
  exists (queryTokens (expandToken al t)). split; [|exact Htok].
  apply in_map_iff. exists t. auto.
Qed.

(** The first token of a text that starts with [!(]. *)
Lemma queryTokens_negated_group (x : str) :
  exists r, In ("!"%char :: "("%char :: r) (queryTokens ("!"%char :: "("%char :: x)).
Proof.
  destruct (split_cons_other comma "("%char x) as (h & t & Hs & Hc);
    [reflexivity|].
  destruct (split_cons_other comma "!"%char ("("%char :: x)) as (h' & t' & Hs' & Hc');
    [reflexivity|].
  rewrite Hc in Hs'. injection Hs' as <- <-.
  exists (trimEnd h). unfold queryTokens. fold comma. rewrite Hc'.
  simpl map. rewrite trim_cons by reflexivity. rewrite trimEnd_cons by reflexivity.
  simpl. left. reflexivity.
Qed.

(** C9, amended.  Take a query one of whose tokens reads, once its
    optional weight suffix is stripped, as [!] followed by a name that
    the alias map gives a non-empty replacement.  The token expands to
    [!(replacement)] followed by the suffix, a parenthesised text is
    neither a comparison nor a bare identifier, and [parseQuery] throws
    an invalid-condition error. *)
Theorem negated_alias_invalid
    (query : str) (al : Aliases) (t name repl : str) :
  In t (map trim (split comma query)) ->
  baseTokenOf t = "!"%char :: name ->
  al !! name = Some repl ->
  repl <> [] ->
  expandToken al t = lit "!(" ++ repl ++ lit ")" ++ weightSuffixOf t /\
  (forall x, comparisonMatch ("("%char :: x) = None /\
             isIdentifier ("("%char :: x) = false) /\
  exists tok, parseQuery Number query al = inl (InvalidCondition tok).
Proof.
  intros Ht Hbase Hal Hrepl.
  assert (Hexp : expandToken al t = lit "!(" ++ repl ++ lit ")" ++ weightSuffixOf t).
  { unfold expandToken. rewrite Hbase. simpl startsWith. cbv iota.
    unfold slice1. simpl tl. unfold aliasLookup. rewrite Hal.
    destruct repl; [congruence|]. simpl isEmpty. cbv iota.
    rewrite <- !app_assoc. reflexivity. }
  split; [exact Hexp|]. split; [apply group_not_condition|].
  destruct (queryTokens_negated_group (repl ++ lit ")" ++ weightSuffixOf t))
    as (r & Hr).
  assert (Hin : In ("!"%char :: "("%char :: r)
                   (queryTokens (expandAliases query al))).
  { rewrite queryTokens_expandAliases. eapply In_tokensOf; [exact Ht|].
    rewrite Hexp. exact Hr. }
  unfold parseQuery.
  destruct (queryTokens (expandAliases query al)) as [|t0 ts] eqn:E; [destruct Hin|].
  simpl length. simpl Nat.eqb. cbv iota.
  destruct (parseTokens_invalid Number (t0 :: ts) _ Hin
              (parseToken_negated_group r) 0 (Z.of_nat (S (length ts))))
    as (tok & Htok).
  rewrite Htok. eauto.
Qed.

End NegatedAlias.

Lemma negated_alias_invalid_witness :
  let al : Aliases := <[lit "fast" := lit "speed >= 7, cost <= 3"]> ∅ in
  expandToken al (lit "!fast:5") = lit "!(speed >= 7, cost <= 3):5" /\
  exists tok,
    parseQuery decimalNumber (lit "local, !fast:5") al = inl (InvalidCondition tok).
Proof.
  intros al.
  destruct (negated_alias_invalid decimalNumber (lit "local, !fast:5") al
              (lit "!fast:5") (lit "fast") (lit "speed >= 7, cost <= 3"))
    as (Hexp & _ & Hthrow).
  - vm_compute. right. left. reflexivity.
  - vm_compute. reflexivity.
  - vm_compute. reflexivity.
  - discriminate.
  - split; [|exact Hthrow]. rewrite Hexp. vm_compute. reflexivity.
Defined.

(** C9, counterexample.  The alias [fast] is defined, with the empty
    string as its replacement; the lookup [aliases[lookupToken]] is then
    falsy, the token [!fast] is left as it is, and the query parses into
    a negated condition on the attribute [fast]. *)
Lemma negated_alias_counterexample :
  emptyAlias !! lit "fast" = Some [] /\
  expandAliases (lit "!fast") emptyAlias = lit "!fast" /\
  parseQuery decimalNumber (lit "!fast") emptyAlias
  = inr (mkQuery [mkCondition (lit "fast") OpEq (VBool true) true 1]).
Proof. vm_compute. repeat split; reflexivity. Qed.

Section AliasWeightSuffix.

Variable Number : str -> option Q.

Lemma dropWhile_app_stop (p : ascii -> bool) (l x : str) (c : ascii) :
  p c = false -> dropWhile p (l ++ c :: x) = dropWhile p l ++ c :: x.
Proof.
  intros Hc. induction l as [|y l IH]; simpl.
  - rewrite Hc. reflexivity.
  - destruct (p y); [exact IH|reflexivity].
Qed.

(** Trimming a piece to which a colon and digits were appended only
    removes the leading whitespace of the piece. *)
Lemma trim_with_suffix (piece w : str) :
  w <> [] -> forallb isDigit w = true ->
  trim (piece ++ ":"%char :: w) = trimStart piece ++ ":"%char :: w.
Proof.
  intros Hw Hdig. unfold trim, trimStart.
  rewrite dropWhile_app_stop by reflexivity.
  destruct (exists_last Hw) as (w' & d & ->).
  rewrite forallb_app in Hdig. apply andb_true_iff in Hdig.
  destruct Hdig as (_ & Hd). simpl in Hd. rewrite andb_true_r in Hd.
  change (dropWhile isWhiteSpace piece ++ ":"%char :: w' ++ [d])
    with (dropWhile isWhiteSpace piece ++ (":"%char :: w') ++ [d]).
  rewrite app_assoc. apply trimEnd_last, isDigit_not_space, Hd.
Qed.

Lemma split_piece_In (sep c : ascii) (s piece : str) :
  In piece (split sep s) -> In c piece -> In c s.
Proof.
  revert piece. induction s as [|x s IH]; intros piece Hp Hc; simpl in Hp.
  - destruct Hp as [<-|[]]. destruct Hc.
  - destruct (Ascii.eqb x sep).
    + destruct Hp as [<-|Hp]; [destruct Hc|]. right. eapply IH; eassumption.
    + destruct (split sep s) as [|h t] eqn:E.
      * destruct Hp as [<-|[]]. destruct Hc as [->|[]]. left. reflexivity.
      * destruct Hp as [<-|Hp].
        -- destruct Hc as [->|Hc]; [left; reflexivity|].
           right. apply (IH h); [left; reflexivity|exact Hc].
        -- right. apply (IH piece); [right; exact Hp|exact Hc].
Qed.

Lemma noLineTerminator_sub (s x : str) :
  noLineTerminator s = true -> (forall c, In c x -> In c s) ->
  noLineTerminator x = true.
Proof.
  unfold noLineTerminator. intros Hs Hsub.
  apply forallb_forall. intros c Hc.
  exact (proj1 (forallb_forall _ s) Hs c (Hsub c Hc)).
Qed.

(** The tokens of a replacement and of the replacement followed by a
    weight suffix: the suffix lands on the last piece only. *)
Lemma queryTokens_with_suffix (repl w : str) :
  w <> [] -> forallb isDigit w = true ->
  exists init lastp,
    split comma repl = init ++ [lastp] /\
    queryTokens repl
    = List.filter nonBlank (map trim init) ++ List.filter nonBlank [trim lastp] /\
    queryTokens (repl ++ ":"%char :: w)
    = List.filter nonBlank (map trim init) ++ [trimStart lastp ++ ":"%char :: w] /\
    trim (trimStart lastp ++ ":"%char :: w) = trimStart lastp ++ ":"%char :: w.
Proof.
  intros Hw Hdig.
  destruct (split_app_no_sep comma repl (":"%char :: w)) as (init & lastp & Hs & Hsx).
  { intros [H|H]; [discriminate H|].
    apply (isDigit_not_comma comma); [|reflexivity].
    exact (proj1 (forallb_forall _ w) Hdig _ H). }
  exists init, lastp. split; [exact Hs|].
  unfold queryTokens. fold comma. fold nonBlank. rewrite Hs, Hsx.
  rewrite !map_app, !List.filter_app. split; [reflexivity|].
  simpl map. rewrite (trim_with_suffix _ _ Hw Hdig). split.
  - f_equal. simpl. destruct (trimStart lastp); reflexivity.
  - rewrite <- (trim_with_suffix _ _ Hw Hdig). apply trim_idem.
Qed.

Lemma parseToken_colon (r : str) (pos n : Z) :
  exists e, parseToken Number (":"%char :: r) pos n = inl e.
Proof.
  unfold parseToken. rewrite trim_cons by reflexivity.
  destruct (weightMatch (":"%char :: trimEnd r)) as [[body digits]|] eqn:E.
  - destruct (weightMatch_head _ _ _ _ E) as (b1 & -> & _).
    rewrite trim_cons by reflexivity. simpl. eauto.
  - simpl. eauto.
Qed.

Lemma tokensOf_app (al : Aliases) (xs ys : list str) :
  tokensOf al (xs ++ ys) = tokensOf al xs ++ tokensOf al ys.
Proof. unfold tokensOf. rewrite map_app, concat_app. reflexivity. Qed.

Lemma queryTokens_trimmed (s t : str) : In t (queryTokens s) -> trim t = t.
Proof.
  unfold queryTokens. intros H. apply filter_In in H. destruct H as (H & _).
  apply in_map_iff in H. destruct H as (p & <- & _). apply trim_idem.
Qed.


End AliasWeightSuffix.



(* ================================================================== *)
(** ** Parser: the shape of conditions and the errors *)
(* ================================================================== *)

Section ParserShapes.

Lemma isIdChar_not_space (c : ascii) : isIdChar c = true -> isWhiteSpace c = false.
Proof. destruct c as [[] [] [] [] [] [] [] []]; vm_compute; congruence. Qed.

Lemma isIdChar_plain (c : ascii) :
  isIdChar c = true -> c <> ":"%char /\ c <> comma /\ c <> "!"%char.
Proof.
  intros H. repeat split; intros ->; discriminate H.
Qed.

Lemma isIdStart_isIdChar (c : ascii) : isIdStart c = true -> isIdChar c = true.
Proof. unfold isIdChar. intros ->. reflexivity. Qed.

Lemma length_dropWhile (p : ascii -> bool) (s : str) :
  (length (dropWhile p s) <= length s)%nat.
Proof.
  induction s as [|c s IH]; simpl; [lia|]. destruct (p c); simpl; lia.
Qed.

Lemma length_trimEnd (s : str) : (length (trimEnd s) <= length s)%nat.
Proof.
  unfold trimEnd. rewrite length_rev.
  etransitivity; [apply length_dropWhile|]. rewrite length_rev. lia.
Qed.

(** A text that trimming leaves alone starts and ends with a character
    that is no whitespace. *)
Lemma trimmed_ends (v : str) :
  trim v = v -> v <> [] ->
  (exists c r, v = c :: r /\ isWhiteSpace c = false) /\
  (exists r d, v = r ++ [d] /\ isWhiteSpace d = false).
Proof.
  intros Ht Hne. split.
  - unfold trim, trimStart in Ht.
    destruct (dropWhile_head isWhiteSpace v) as [E|(c & r & E & Hc)].
    + rewrite E in Ht. unfold trimEnd in Ht. simpl in Ht. congruence.
    + rewrite E, (trimEnd_cons _ _ Hc) in Ht. exists c, (trimEnd r). auto.
  - assert (He : trimEnd v = v).
    { rewrite <- Ht at 1. unfold trim. rewrite trimEnd_idem. exact Ht. }
    destruct (exists_last Hne) as (r & d & ->). exists r, d. split; [reflexivity|].
    destruct (isWhiteSpace d) eqn:Hd; [|reflexivity]. exfalso.
    assert (Hlen : length (trimEnd (r ++ [d])) = length (r ++ [d])) by (rewrite He; reflexivity).
    unfold trimEnd in Hlen at 1. rewrite rev_app_distr in Hlen. simpl in Hlen.
    rewrite Hd in Hlen. fold (trimEnd r) in Hlen.
    pose proof (length_trimEnd r). rewrite length_app in Hlen. simpl in Hlen. lia.
Qed.

Lemma trim_fixed (c d : ascii) (m : str) :
  isWhiteSpace c = false -> isWhiteSpace d = false ->
  trim (c :: m ++ [d]) = c :: m ++ [d].
Proof.
  intros Hc Hd. rewrite (trim_cons _ _ Hc). f_equal. apply trimEnd_last, Hd.
Qed.

Lemma trim_no_space (s : str) :
  forallb (fun c => negb (isWhiteSpace c)) s = true -> trim s = s.
Proof.
  intros H. destruct s as [|c r]; [reflexivity|].
  simpl in H. apply andb_true_iff in H. destruct H as (Hc & Hr).
  apply negb_true_iff in Hc.
  destruct r as [|c2 r2] using rev_ind.
  - rewrite (trim_cons _ _ Hc). reflexivity.
  - rewrite forallb_app in Hr. apply andb_true_iff in Hr. destruct Hr as (_ & Hd).
    simpl in Hd. rewrite andb_true_r in Hd. apply negb_true_iff in Hd.
    apply trim_fixed; assumption.
Qed.

Lemma weightMatch_no_colon (s : str) : ~ In ":"%char s -> weightMatch s = None.
Proof.
  intros Hn. destruct (weightMatch s) as [[b d]|] eqn:E; [|reflexivity].
  apply weightMatch_inv in E. destruct E as (-> & _).
  exfalso. apply Hn, in_or_app. right. left. reflexivity.
Qed.

Lemma dropWhile_app_all (p : ascii -> bool) (r X : str) (x : ascii) :
  forallb p r = true -> p x = false -> dropWhile p (r ++ x :: X) = x :: X.
Proof.
  intros Hr Hx. induction r as [|c r IH]; simpl.
  - rewrite Hx. reflexivity.
  - simpl in Hr. apply andb_true_iff in Hr. destruct Hr as (-> & Hr). apply IH, Hr.
Qed.

Lemma takeWhile_app_all (p : ascii -> bool) (r X : str) (x : ascii) :
  forallb p r = true -> p x = false -> takeWhile p (r ++ x :: X) = r.
Proof.
  intros Hr Hx. induction r as [|c r IH]; simpl.
  - rewrite Hx. reflexivity.
  - simpl in Hr. apply andb_true_iff in Hr. destruct Hr as (-> & Hr).
    f_equal. apply IH, Hr.
Qed.

Lemma dropWhile_all (p : ascii -> bool) (r : str) :
  forallb p r = true -> dropWhile p r = [].
Proof.
  induction r as [|c r IH]; simpl; [reflexivity|].
  intros H. apply andb_true_iff in H. destruct H as (-> & H). apply IH, H.
Qed.

Lemma takeWhile_all (p : ascii -> bool) (r : str) :
  forallb p r = true -> takeWhile p r = r.
Proof.
  induction r as [|c r IH]; simpl; [reflexivity|].
  intros H. apply andb_true_iff in H. destruct H as (-> & H). f_equal. apply IH, H.
Qed.

Lemma identifier_chars (id : str) :
  isIdentifier id = true ->
  exists c r, id = c :: r /\ isIdStart c = true /\ forallb isIdChar r = true /\
              forallb isIdChar id = true.
Proof.
  destruct id as [|c r]; [discriminate|]. simpl. intros H.
  apply andb_true_iff in H. destruct H as (Hc & Hr).
  exists c, r. repeat split; try assumption.
  simpl. rewrite (isIdStart_isIdChar _ Hc), Hr. reflexivity.
Qed.

Lemma idChars_no (id : str) (x : ascii) :
  forallb isIdChar id = true -> isIdChar x = false -> ~ In x id.
Proof.
  intros H Hx Hin. rewrite forallb_forall in H. specialize (H x Hin). congruence.
Qed.

Lemma identifier_trimmed (id : str) :
  forallb isIdChar id = true -> trim id = id.
Proof.
  intros H. apply trim_no_space. apply forallb_forall. intros c Hc.
  rewrite forallb_forall in H. rewrite (isIdChar_not_space _ (H c Hc)). reflexivity.
Qed.

Lemma startsWith_single (x c : ascii) (r : str) :
  startsWith [x] (c :: r) = Ascii.eqb x c.
Proof. cbn [startsWith]. apply andb_true_r. Qed.

Lemma not_bang_start (c : ascii) (r : str) :
  isIdStart c = true -> startsWith (lit "!") (c :: r) = false.
Proof.
  intros Hc. change (lit "!") with ["!"%char]. rewrite startsWith_single.
  destruct (Ascii.eqb "!" c) eqn:E; [|reflexivity].
  apply Ascii.eqb_eq in E. subst c. discriminate Hc.
Qed.

Variable Number : str -> option Q.

Lemma parseToken_identifier (id : str) (pos n : Z) :
  isIdentifier id = true ->
  parseToken Number id pos n
  = inr (mkCondition id OpEq (VBool true) false (n - pos)).
Proof.
  intros Hid. destruct (identifier_chars id Hid) as (c & r & -> & Hc & Hr & Hall).
  unfold parseToken. rewrite (identifier_trimmed _ Hall).
  rewrite weightMatch_no_colon by (apply idChars_no; [exact Hall|reflexivity]).
  rewrite (not_bang_start _ _ Hc).
  assert (Hcmp : comparisonMatch (c :: r) = None).
  { unfold comparisonMatch. rewrite Hc, (dropWhile_all _ _ Hr). reflexivity. }
  rewrite Hcmp, Hid. reflexivity.
Qed.

Lemma parseToken_negated_identifier (id : str) (pos n : Z) :
  isIdentifier id = true ->
  parseToken Number ("!"%char :: id) pos n
  = inr (mkCondition id OpEq (VBool true) true (n - pos)).
Proof.
  intros Hid. destruct (identifier_chars id Hid) as (c & r & -> & Hc & Hr & Hall).
  assert (Htrim : trim ("!"%char :: c :: r) = "!"%char :: c :: r).
  { apply trim_no_space. simpl forallb. 
    change (forallb (fun c0 => negb (isWhiteSpace c0)) (c :: r) = true).
    apply forallb_forall. intros x Hx. rewrite forallb_forall in Hall.
    rewrite (isIdChar_not_space _ (Hall x Hx)). reflexivity. }
  unfold parseToken. rewrite Htrim.
  rewrite weightMatch_no_colon.
  2:{ intros [H|H]; [discriminate H|].
      revert H. apply idChars_no; [exact Hall|reflexivity]. }
  cbn [startsWith lit list_ascii_of_string Ascii.eqb Bool.eqb andb slice1 tl].
  rewrite (identifier_trimmed _ Hall).
  assert (Hcmp : comparisonMatch (c :: r) = None).
  { unfold comparisonMatch. rewrite Hc, (dropWhile_all _ _ Hr). reflexivity. }
  rewrite Hcmp, Hid. reflexivity.
Qed.

Lemma valueGroup_spaced (v : str) :
  v <> [] -> trim v = v -> noLineTerminator v = true ->
  valueGroup (" "%char :: v) = Some v.
Proof.
  intros Hne Ht Hlt.
  destruct (proj1 (trimmed_ends v Ht Hne)) as (c0 & r0 & -> & Hc0).
  unfold valueGroup. cbn [takeWhile].
  change (isWhiteSpace " "%char) with true. cbv iota. rewrite Hc0.
  cbn [length seq rev app map drop find isEmpty negb andb].
  rewrite Hlt. reflexivity.
Qed.

Lemma operatorGroup_spaced (op : ComparisonOperator) (v : str) :
  valueGroup (" "%char :: v) = Some v ->
  operatorGroup operatorTable (operatorSymbol op ++ " "%char :: v) = Some (op, v).
Proof.
  intros Hvg. destruct op; cbn -[valueGroup]; rewrite Hvg; reflexivity.
Qed.

Lemma operatorSymbol_plain (op : ComparisonOperator) :
  ~ In ":"%char (operatorSymbol op) /\
  dropWhile isWhiteSpace (operatorSymbol op) = operatorSymbol op /\
  operatorSymbol op <> [].
Proof.
  destruct op; repeat split; try discriminate; try reflexivity;
    simpl; intros H; repeat destruct H as [H|H]; try discriminate H; exact H.
Qed.

(** X2 *)
(** X1. A token [attr op value], written with one blank on each side of
    the operator and with a non-empty trimmed single-line value without
    colon, parses to the comparison of [attr] with [parseValue value]
    under that operator, not negated, with the default weight of its
    position. *)
Theorem comparison_parses (attr v : str) (op : ComparisonOperator) (pos n : Z) :
  isIdentifier attr = true ->
  v <> [] -> trim v = v -> noLineTerminator v = true -> ~ In ":"%char v ->
  parseToken Number (attr ++ " "%char :: operatorSymbol op ++ " "%char :: v) pos n
  = inr (mkCondition attr op (parseValue Number v) false (n - pos)).
Proof.
  intros Hid Hne Ht Hlt Hcolon.
  destruct (identifier_chars attr Hid) as (c & r & -> & Hc & Hr & Hall).
  destruct (proj2 (trimmed_ends v Ht Hne)) as (v' & d & Hv & Hd).
  destruct (operatorSymbol_plain op) as (Hsym_colon & Hsym_ws & Hsym_ne).
  set (token := (c :: r) ++ " "%char :: operatorSymbol op ++ " "%char :: v).
  assert (Htrim : trim token = token).
  { unfold token. rewrite Hv.
    replace ((c :: r) ++ " "%char :: operatorSymbol op ++ " "%char :: v' ++ [d])
      with (c :: (r ++ " "%char :: operatorSymbol op ++ " "%char :: v') ++ [d]).
    - apply trim_fixed; [apply isIdChar_not_space, isIdStart_isIdChar, Hc|exact Hd].
    - simpl. f_equal. rewrite <- app_assoc. simpl. f_equal. f_equal.
      rewrite <- app_assoc. reflexivity. }
  assert (Hnocolon : weightMatch token = None).
  { apply weightMatch_no_colon. unfold token. intros H.
    apply in_app_or in H. destruct H as [H|H].
    - revert H. apply idChars_no; [exact Hall|reflexivity].
    - destruct H as [H|H]; [discriminate H|].
      apply in_app_or in H. destruct H as [H|H]; [exact (Hsym_colon H)|].
      destruct H as [H|H]; [discriminate H|exact (Hcolon H)]. }
  assert (Hcmp : comparisonMatch token = Some (c :: r, op, v)).
  { unfold token. simpl app. unfold comparisonMatch. rewrite Hc.
    rewrite (dropWhile_app_all _ _ _ _ Hr) by reflexivity.
    rewrite (takeWhile_app_all _ _ _ _ Hr) by reflexivity.
    cbn [dropWhile]. change (isWhiteSpace " "%char) with true. cbv iota.
    assert (Hdw : dropWhile isWhiteSpace (operatorSymbol op ++ " "%char :: v)
                  = operatorSymbol op ++ " "%char :: v).
    { destruct op; reflexivity. }
    rewrite Hdw.
    rewrite (operatorGroup_spaced op v (valueGroup_spaced v Hne Ht Hlt)).
    reflexivity. }
  assert (Hbang : startsWith (lit "!") token = false).
  { unfold token. simpl app. apply not_bang_start, Hc. }
  unfold parseToken. fold token. rewrite Htrim, Hnocolon, Hbang, Hcmp, Ht.
  reflexivity.
Qed.

(** X3 *)
(** X2. A value between two double quotes or two single quotes that is
    no number parses to the string between the quotes. *)
Theorem quoted_value_unquoted (q : ascii) (s : str) :
  q = dquote \/ q = squote ->
  Number (q :: s ++ [q]) = None ->
  parseValue Number (q :: s ++ [q]) = VStr s.
Proof.
  intros Hq Hnum. unfold parseValue. rewrite Hnum.
  assert (Hends : endsWith [q] (q :: s ++ [q]) = true).
  { unfold endsWith. simpl rev. rewrite rev_app_distr. simpl.
    rewrite Ascii.eqb_refl. reflexivity. }
  assert (Hstarts : startsWith [q] (q :: s ++ [q]) = true).
  { rewrite startsWith_single. apply Ascii.eqb_refl. }
  assert (Hslice : slice1m1 (q :: s ++ [q]) = s).
  { unfold slice1m1. simpl tl. apply removelast_last. }
  destruct Hq as [-> | ->]; cbn [strEqb lit list_ascii_of_string].
  - change (Ascii.eqb dquote "t") with false. change (Ascii.eqb dquote "f") with false.
    cbn [andb]. rewrite Hstarts, Hends, Hslice. reflexivity.
  - change (Ascii.eqb squote "t") with false. change (Ascii.eqb squote "f") with false.
    cbn [andb]. rewrite Hstarts, Hends, Hslice.
    rewrite startsWith_single. change (Ascii.eqb dquote squote) with false.
    reflexivity.
Qed.

Lemma parseTokens_error (tokens : list str) :
  forall index total e,
    parseTokens Number tokens index total = inl e ->
    exists t pos, In t tokens /\ e = InvalidCondition (trim t) /\
                  parseToken Number t pos total = inl e.
Proof.
  induction tokens as [|t tokens IH]; intros index total e H; simpl in H;
    [discriminate|].
  destruct (parseToken Number t index total) as [e0|c] eqn:E.
  - injection H as <-. exists t, index. split; [left; reflexivity|].
    split; [eapply parseToken_error; exact E|exact E].
  - destruct (parseTokens Number tokens (index + 1) total) as [e1|cs] eqn:E1;
      [|discriminate].
    injection H as <-. destruct (IH _ _ _ E1) as (t' & pos & Hin & He & Hp).
    exists t', pos. split; [right; exact Hin|]. auto.
Qed.

Lemma split_blank (q : str) :
  forallb blankOrComma q = true ->
  Forall (fun piece => forallb isWhiteSpace piece = true) (split comma q).
Proof.
  induction q as [|c q IH]; intros H; simpl.
  - constructor; [reflexivity|constructor].
  - simpl in H. apply andb_true_iff in H. destruct H as (Hc & Hq).
    specialize (IH Hq). fold comma.
    destruct (Ascii.eqb c comma) eqn:E.
    + constructor; [reflexivity|exact IH].
    + unfold blankOrComma in Hc. rewrite E, orb_false_r in Hc.
      destruct (split comma q) as [|h t]; [constructor; [simpl; rewrite Hc; reflexivity|constructor]|].
      apply Forall_cons in IH. destruct IH as (Hh & Ht).
      constructor; [simpl; rewrite Hc; exact Hh|exact Ht].
Qed.

Lemma queryTokens_blank (q : str) :
  forallb blankOrComma q = true -> queryTokens q = [].
Proof.
  intros H. unfold queryTokens. fold comma.
  pose proof (split_blank q H) as Hp.
  induction (split comma q) as [|p ps IH]; [reflexivity|].
  apply Forall_cons in Hp. destruct Hp as (Hp & Hps).
  simpl. unfold trim at 1, trimStart. rewrite (dropWhile_all _ _ Hp).
  simpl. apply IH, Hps.
Qed.

(** X4 *)
(** X3. [parseQuery] fails with [Empty query] exactly when the expanded
    query has no non-blank token; when it fails with
    [Invalid query condition] the token it names is a token of the
    expanded query that [parseToken] refuses; a query of blanks and
    commas only is empty. *)
Theorem parseQuery_errors (query : str) (al : Aliases) :
  (parseQuery Number query al = inl EmptyQuery <->
   queryTokens (expandAliases query al) = []) /\
  (forall tok, parseQuery Number query al = inl (InvalidCondition tok) ->
     In tok (queryTokens (expandAliases query al)) /\
     exists pos n, parseToken Number tok pos n = inl (InvalidCondition tok)) /\
  (forallb blankOrComma query = true ->
   parseQuery Number query ∅ = inl EmptyQuery).
Proof.
  assert (Hempty : queryTokens (expandAliases query al) = [] ->
                   parseQuery Number query al = inl EmptyQuery).
  { intros E. unfold parseQuery. rewrite E. reflexivity. }
  assert (Hinvalid : forall e, parseQuery Number query al = inl e ->
            queryTokens (expandAliases query al) <> [] ->
            exists tok, e = InvalidCondition tok /\
              In tok (queryTokens (expandAliases query al)) /\
              exists pos n, parseToken Number tok pos n = inl (InvalidCondition tok)).
  { intros e H Hne. unfold parseQuery in H.
    destruct (queryTokens (expandAliases query al)) as [|t ts] eqn:E; [congruence|].
    simpl length in H. simpl Nat.eqb in H. cbv iota in H.
    destruct (parseTokens Number (t :: ts) 0 _) as [e0|cs] eqn:Ep; [|discriminate].
    injection H as <-.
    destruct (parseTokens_error _ _ _ _ Ep) as (t' & pos & Hin & -> & Hp).
    assert (Htrim : trim t' = t').
    { apply (queryTokens_trimmed (expandAliases query al)). rewrite E. exact Hin. }
    rewrite Htrim in *. exists t'. split; [reflexivity|]. split; [exact Hin|]. eauto. }
  split; [|split].
  - split; [|exact Hempty]. intros H.
    destruct (queryTokens (expandAliases query al)) as [|t ts] eqn:E; [reflexivity|].
    destruct (Hinvalid EmptyQuery H) as (tok & Htok & _); [discriminate|discriminate].
  - intros tok H.
    destruct (queryTokens (expandAliases query al)) as [|t ts] eqn:E.
    + rewrite (Hempty eq_refl) in H. discriminate.
    + destruct (Hinvalid _ H) as (tok' & [= ->] & Hin & Hp); [discriminate|]. auto.
  - intros Hblank. unfold parseQuery.
    rewrite queryTokens_expandAliases.
    rewrite (tokensOf_unexpanded ∅ query) by (intros t _; apply expandToken_empty).
    rewrite (queryTokens_blank _ Hblank). reflexivity.
Qed.


Lemma single_token_query (t : str) (al : Aliases) :
  ~ In comma t -> trim t = t -> t <> [] -> expandToken al t = t ->
  queryTokens (expandAliases t al) = [t].
Proof.
  intros Hc Ht Hne He. rewrite queryTokens_expandAliases.
  rewrite (split_no_sep _ _ Hc). simpl map. rewrite Ht.
  unfold tokensOf. simpl. rewrite He, app_nil_r.
  rewrite (queryTokens_single _ Hc Ht). destruct t; [congruence|reflexivity].
Qed.

Lemma parseQuery_single (t : str) (al : Aliases) (c : QueryCondition) :
  queryTokens (expandAliases t al) = [t] ->
  parseToken Number t 0 1 = inr c ->
  parseQuery Number t al = inr (mkQuery [c]).
Proof.
  intros Hq Hp. unfold parseQuery. rewrite Hq.
  change (Z.of_nat (length [t])) with 1. cbn [length Nat.eqb parseTokens].
  rewrite Hp. reflexivity.
Qed.


(** X28. An alias is expanded once: when the alias [id] stands for the
    identifier [v], the query [id] is the single condition [v = true]
    of weight 1, also when [v] is the name of an alias itself. *)
Theorem alias_expanded_once (id v : str) (al : Aliases) :
  isIdentifier id = true ->
  aliasLookup al id = Some v ->
  isIdentifier v = true ->
  parseQuery Number id al
  = inr (mkQuery [mkCondition v OpEq (VBool true) false 1]).
Proof.
  intros Hid Hal Hv.
  destruct (identifier_chars id Hid) as (c & r & Eid & Hc & Hr & Hall).
  destruct (identifier_chars v Hv) as (c' & r' & Ev & Hc' & Hr' & Hall').
  assert (Hexp : expandToken al id = v).
  { unfold expandToken, baseTokenOf, weightSuffixOf.
    rewrite weightMatch_no_colon by (apply idChars_no; [exact Hall|reflexivity]).
    subst id. rewrite (not_bang_start _ _ Hc), Hal. apply app_nil_r. }
  assert (Htokens : queryTokens (expandAliases id al) = [v]).
  { rewrite queryTokens_expandAliases.
    rewrite split_no_sep by (apply idChars_no; [exact Hall|reflexivity]).
    simpl map. rewrite (identifier_trimmed _ Hall).
    unfold tokensOf. simpl. rewrite Hexp, app_nil_r.
    rewrite queryTokens_single;
      [subst v; reflexivity
      |apply idChars_no; [exact Hall'|reflexivity]
      |apply identifier_trimmed, Hall']. }
  unfold parseQuery. rewrite Htokens.
  change (Z.of_nat (length [v])) with 1. cbn [length Nat.eqb parseTokens].
  rewrite (parseToken_identifier v 0 1 Hv). reflexivity.
Qed.

End ParserShapes.

(** X1, on the token [cost <= 3]. *)
Lemma comparison_parses_witness :
  parseToken decimalNumber (lit "cost <= 3") 0 1
  = inr (mkCondition (lit "cost") OpLe (VNum 3) false 1).
Proof.
  apply (comparison_parses decimalNumber (lit "cost") (lit "3") OpLe 0 1);
    try reflexivity; [discriminate|].
  simpl. intros [H|[]]. discriminate H.
Defined.

(** X2, on a name in single quotes. *)
Lemma quoted_value_unquoted_witness :
  parseValue decimalNumber (lit "'gpt 4'") = VStr (lit "gpt 4").
Proof.
  apply (quoted_value_unquoted decimalNumber squote (lit "gpt 4"));
    [right; reflexivity|reflexivity].
Defined.

(** X28, on an alias of an alias: [quick] stands for [fast], and [fast]
    for [local]. *)
Lemma alias_expanded_once_witness :
  parseQuery decimalNumber (lit "quick") chainedAliases
  = inr (mkQuery [mkCondition (lit "fast") OpEq (VBool true) false 1]) /\
  aliasLookup chainedAliases (lit "fast") = Some (lit "local").
Proof.
  split; [|reflexivity].
  apply (alias_expanded_once decimalNumber (lit "quick") (lit "fast") chainedAliases);
    reflexivity.
Defined.


(* ================================================================== *)
(** ** Bounds of the scores *)
(* ================================================================== *)

Section ScoreBounds.

Lemma digitValue_nonneg (c : ascii) : isDigit c = true -> 0 <= digitValue c <= 9.
Proof.
  destruct c as [[] [] [] [] [] [] [] []]; vm_compute; intros H; try discriminate H;
    split; discriminate.
Qed.

Lemma parseInt_fold_nonneg (digits : str) (acc : Z) :
  0 <= acc -> forallb isDigit digits = true ->
  0 <= fold_left (fun (a : Z) (c : ascii) => 10 * a + digitValue c) digits acc.
Proof.
  revert acc. induction digits as [|c ds IH]; intros acc Hacc Hd; simpl; [exact Hacc|].
  simpl in Hd. apply andb_true_iff in Hd. destruct Hd as (Hc & Hds).
  apply IH; [|exact Hds]. pose proof (digitValue_nonneg c Hc). lia.
Qed.

Lemma parseInt_nonneg (digits : str) :
  forallb isDigit digits = true -> 0 <= parseInt digits.
Proof.
  intros H. unfold parseInt. apply parseInt_fold_nonneg; [lia|exact H].
Qed.

Lemma sumWeights_filter_le (f : QueryCondition -> bool) (cs : list QueryCondition) :
  Forall (fun c => 0 <= weight c) cs ->
  0 <= sumWeights (List.filter f cs) <= sumWeights cs.
Proof.
  unfold sumWeights. induction cs as [|c cs IH]; intros H; simpl; [lia|].
  apply Forall_cons in H. destruct H as (Hc & Hcs). specialize (IH Hcs).
  destruct (f c); simpl; lia.
Qed.

Lemma matchModel_scores (attrs : ModelAttributes) (q : ParsedQuery) :
  score (matchModel attrs q)
  = sumWeights (List.filter (fun c => evaluateCondition c attrs) (conditions q)) /\
  maxScore (matchModel attrs q) = sumWeights (conditions q) /\
  matchedAttributes (matchModel attrs q)
  = map attribute (List.filter (fun c => evaluateCondition c attrs) (conditions q)) /\
  missingAttributes (matchModel attrs q)
  = map attribute (List.filter (fun c => negb (evaluateCondition c attrs)) (conditions q)).
Proof.
  pose proof (tally_fold attrs (conditions q) (mkTally 0 0 [] [])) as H.
  cbn zeta in H. simpl in H. exact H.
Qed.

Lemma normalizeScore_bounds (r : MatchResult) :
  0 <= score r <= maxScore r ->
  (0 <= normalizeScore r /\ normalizeScore r <= 1)%Q.
Proof.
  intros (Hs & Hm). unfold normalizeScore.
  destruct (maxScore r =? 0) eqn:E.
  - split; [apply Qle_refl|discriminate].
  - apply Z.eqb_neq in E.
    assert (Hpos : (0 < inject_Z (maxScore r))%Q).
    { unfold Qlt, inject_Z. simpl. lia. }
    split.
    + apply Qle_shift_div_l; [exact Hpos|].
      unfold Qle, inject_Z. simpl. lia.
    + apply Qle_shift_div_r; [exact Hpos|].
      unfold Qle, inject_Z. simpl. lia.
Qed.

Variable Number : str -> option Q.


End ScoreBounds.


(* ================================================================== *)
(** ** Matcher: exact matches and reported attributes *)
(* ================================================================== *)

Section MatchDetail.

Lemma sumWeights_filter_eq (f : QueryCondition -> bool) (cs : list QueryCondition) :
  Forall (fun c => 0 < weight c) cs ->
  (sumWeights (List.filter f cs) = sumWeights cs <->
   forall c, In c cs -> f c = true).
Proof.
  intros Hpos. induction cs as [|c cs IH]; simpl.
  - split; [intros _ c []|reflexivity].
  - apply Forall_cons in Hpos. destruct Hpos as (Hc & Hcs). specialize (IH Hcs).
    assert (Hle : 0 <= sumWeights (List.filter f cs) <= sumWeights cs).
    { apply sumWeights_filter_le. eapply Forall_impl; [exact Hcs|]. simpl. intros; lia. }
    destruct (f c) eqn:E; unfold sumWeights in *; simpl.
    + split.
      * intros H c' [<-|Hin]; [exact E|]. apply IH; [lia|exact Hin].
      * intros H. f_equal. apply IH. intros c' Hin. apply H. right. exact Hin.
    + split.
      * intros H. lia.
      * intros H. specialize (H c (or_introl eq_refl)). congruence.
Qed.

Lemma sumWeights_filter_pos (f : QueryCondition -> bool) (cs : list QueryCondition) :
  Forall (fun c => 0 < weight c) cs ->
  (0 < sumWeights (List.filter f cs) <-> exists c, In c cs /\ f c = true).
Proof.
  intros Hpos. induction cs as [|c cs IH]; simpl.
  - unfold sumWeights. simpl. split; [lia|intros (c & [] & _)].
  - apply Forall_cons in Hpos. destruct Hpos as (Hc & Hcs). specialize (IH Hcs).
    assert (Hle : 0 <= sumWeights (List.filter f cs)).
    { apply sumWeights_filter_le. eapply Forall_impl; [exact Hcs|]. simpl. intros; lia. }
    destruct (f c) eqn:E.
    + unfold sumWeights in *. simpl. split; [|lia]. intros _. exists c. auto.
    + rewrite IH. split.
      * intros (c' & Hin & Hf). exists c'. auto.
      * intros (c' & [<-|Hin] & Hf); [congruence|]. exists c'. auto.
Qed.


Lemma filter_partition_perm {A : Type} (f : A -> bool) (l : list A) :
  Permutation (List.filter f l ++ List.filter (fun x => negb (f x)) l) l.
Proof.
  induction l as [|x l IH]; simpl; [constructor|].
  destruct (f x); simpl.
  - constructor. exact IH.
  - rewrite <- Permutation_middle. constructor. exact IH.
Qed.

(** X7. [matchModel] reports the attribute of every condition exactly
    once, under [matchedAttributes] when the condition is satisfied and
    under [missingAttributes] when it is not. *)
Theorem match_attributes_partition (attrs : ModelAttributes) (q : ParsedQuery) :
  let r := matchModel attrs q in
  Permutation (matchedAttributes r ++ missingAttributes r)
              (map attribute (conditions q)) /\
  (length (matchedAttributes r) + length (missingAttributes r)
   = length (conditions q))%nat /\
  (forall a, In a (matchedAttributes r) ->
     exists c, In c (conditions q) /\ attribute c = a /\ evaluateCondition c attrs = true) /\
  (forall a, In a (missingAttributes r) ->
     exists c, In c (conditions q) /\ attribute c = a /\ evaluateCondition c attrs = false).
Proof.
  intros r. destruct (matchModel_scores attrs q) as (_ & _ & Ha & Hb).
  subst r. rewrite Ha, Hb.
  assert (Hperm : Permutation
            (map attribute (List.filter (fun c => evaluateCondition c attrs) (conditions q))
             ++ map attribute (List.filter (fun c => negb (evaluateCondition c attrs)) (conditions q)))
            (map attribute (conditions q))).
  { rewrite <- map_app. apply Permutation_map, filter_partition_perm. }
  split; [exact Hperm|]. split.
  - apply Permutation_length in Hperm.
    rewrite length_app in Hperm. rewrite !length_map in Hperm |- *.
    etransitivity; [exact Hperm|]. apply length_map.
  - split; intros a Hin; apply in_map_iff in Hin; destruct Hin as (c & <- & Hc);
      apply filter_In in Hc; destruct Hc as (Hc & He); exists c; repeat split; auto.
    apply negb_true_iff, He.
Qed.


Lemma matchModel_flags (attrs : ModelAttributes) (q : ParsedQuery) :
  exactMatch (matchModel attrs q)
  = (score (matchModel attrs q) =? maxScore (matchModel attrs q)) /\
  matches (matchModel attrs q) = (0 <? score (matchModel attrs q)).
Proof. split; reflexivity. Qed.

(** X9. A condition of weight 0 has no effect on [score], [maxScore],
    [exactMatch], [matches] and the normalized score, whether it is
    satisfied or not. *)
Theorem zero_weight_condition_ignored
    (attrs : ModelAttributes) (before after : list QueryCondition)
    (c : QueryCondition) :
  weight c = 0 ->
  let withIt := matchModel attrs (mkQuery (before ++ c :: after)) in
  let without := matchModel attrs (mkQuery (before ++ after)) in
  score withIt = score without /\ maxScore withIt = maxScore without /\
  exactMatch withIt = exactMatch without /\ matches withIt = matches without /\
  normalizeScore withIt = normalizeScore without.
Proof.
  intros Hw withIt without.
  destruct (matchModel_scores attrs (mkQuery (before ++ c :: after)))
    as (Hs1 & Hm1 & _).
  destruct (matchModel_scores attrs (mkQuery (before ++ after))) as (Hs2 & Hm2 & _).
  simpl conditions in Hs1, Hm1, Hs2, Hm2.
  assert (Hs : score withIt = score without).
  { unfold withIt, without. rewrite Hs1, Hs2, !List.filter_app, !sumWeights_app.
    f_equal. simpl. destruct (evaluateCondition c attrs); [|reflexivity].
    unfold sumWeights. simpl. fold (sumWeights (List.filter
      (fun c0 => evaluateCondition c0 attrs) after)). lia. }
  assert (Hm : maxScore withIt = maxScore without).
  { unfold withIt, without. rewrite Hm1, Hm2, !sumWeights_app. f_equal.
    unfold sumWeights. simpl. lia. }
  destruct (matchModel_flags attrs (mkQuery (before ++ c :: after))) as (He1 & Hf1).
  destruct (matchModel_flags attrs (mkQuery (before ++ after))) as (He2 & Hf2).
  fold withIt in He1, Hf1. fold without in He2, Hf2.
  split; [exact Hs|]. split; [exact Hm|].
  split; [rewrite He1, He2, Hs, Hm; reflexivity|].
  split; [rewrite Hf1, Hf2, Hs; reflexivity|].
  unfold normalizeScore. rewrite Hs, Hm. reflexivity.
Qed.

End MatchDetail.


(** X9: an unsatisfied condition of weight 0 leaves the match exact. *)
Lemma zero_weight_condition_ignored_witness :
  let ignored := mkCondition (lit "functions") OpEq (VBool true) false 0 in
  let kept := mkCondition (lit "local") OpEq (VBool true) false 1 in
  exactMatch (matchModel attrs_local_no_functions (mkQuery [ignored; kept]))
  = exactMatch (matchModel attrs_local_no_functions (mkQuery [kept])) /\
  evaluateCondition ignored attrs_local_no_functions = false.
Proof.
  intros ignored kept. split; [|vm_compute; reflexivity].
  apply (zero_weight_condition_ignored attrs_local_no_functions [] [kept] ignored).
  reflexivity.
Defined.

(* ================================================================== *)
(** ** Selection of the best model and of embedding models *)
(* ================================================================== *)

Section ScoreSort.

Context {A : Type}.
Variable score : A -> Q.

Lemma descending_le (x y : A) :
  Qle_bool (descendingBy score x y) 0 = true <-> (score y <= score x)%Q.
Proof.
  unfold descendingBy. rewrite Qle_bool_iff. split; intros H; lra.
Qed.

Lemma descending_gt (x y : A) :
  Qle_bool (descendingBy score x y) 0 = false -> (score x < score y)%Q.
Proof.
  intros H. apply Qnot_le_lt. intros Hle.
  apply descending_le in Hle. congruence.
Qed.

(** The head of the sorted array is the first entry of the highest
    score. *)
Lemma sort_head (x : A) (l : list A) :
  exists before best after,
    x :: l = before ++ best :: after /\
    head (sort (descendingBy score) (x :: l)) = Some best /\
    Forall (fun a => (score a < score best)%Q) before /\
    Forall (fun a => (score a <= score best)%Q) after.
Proof.
  revert x. induction l as [|y l IH]; intros x.
  - exists [], x, []. simpl. repeat split; constructor.
  - destruct (IH y) as (before & best & after & E & Hhead & Hb & Ha).
    change (sort (descendingBy score) (x :: y :: l))
      with (insertSorted (descendingBy score) x (sort (descendingBy score) (y :: l))).
    destruct (sort (descendingBy score) (y :: l)) as [|b rest]; [discriminate Hhead|].
    simpl in Hhead. injection Hhead as ->. simpl insertSorted.
    destruct (Qle_bool ((descendingBy score) x best) 0) eqn:Hc.
    + apply descending_le in Hc. exists [], x, (y :: l).
      split; [reflexivity|]. split; [reflexivity|]. split; [constructor|].
      rewrite E. apply Forall_app. split.
      * eapply Forall_impl; [exact Hb|]. simpl. intros a Hlt. lra.
      * constructor; [exact Hc|].
        eapply Forall_impl; [exact Ha|]. simpl. intros a Hle. lra.
    + apply descending_gt in Hc. exists (x :: before), best, after.
      split; [rewrite E; reflexivity|]. split; [reflexivity|].
      split; [constructor; assumption|exact Ha].
Qed.

Lemma insertSorted_descending (x : A) (l : list A) :
  StronglySorted (fun a b => (score b <= score a)%Q) l ->
  StronglySorted (fun a b => (score b <= score a)%Q) (insertSorted (descendingBy score) x l).
Proof.
  induction l as [|y l IH]; intros Hs; simpl.
  - constructor; constructor.
  - destruct (Qle_bool (descendingBy score x y) 0) eqn:Hc.
    + apply descending_le in Hc.
      constructor; [exact Hs|]. constructor; [exact Hc|].
      apply StronglySorted_inv in Hs. destruct Hs as (_ & Hall).
      eapply Forall_impl; [exact Hall|]. simpl. intros z Hz. lra.
    + apply descending_gt in Hc.
      apply StronglySorted_inv in Hs. destruct Hs as (Hs & Hall).
      constructor; [apply IH, Hs|].
      eapply Permutation_Forall; [apply insertSorted_perm|].
      constructor; [lra|exact Hall].
Qed.

Lemma sort_descending (l : list A) :
  StronglySorted (fun a b => (score b <= score a)%Q) (sort (descendingBy score) l).
Proof.
  induction l as [|x l IH]; simpl; [constructor|].
  apply insertSorted_descending, IH.
Qed.

End ScoreSort.

Section SelectionFacts.

Context {L E : Type}.
Variable Number : str -> option Q.
Variable createLanguageModel : ModelConfig -> E + L.
Variable createEmbeddingModel : ModelConfig -> E + L.

Lemma rankModels_nonempty (query : str) (cfg : Config) (ranked : list RankedModel) :
  rankModels Number query cfg = inr ranked -> ranked <> [].
Proof.
  unfold rankModels. destruct (parseQuery _ _ _) as [e|pq]; [discriminate|].
  destruct (getEnabledModels cfg) as [|x l]; [discriminate|].
  simpl. intros H. injection H as <-. intros Hnil.
  apply (Permutation_nil_cons (l := map (rankOne pq) l) (x := rankOne pq x)).
  rewrite <- Hnil. symmetry.
  apply (sort_perm byScoreDescending (rankOne pq x :: map (rankOne pq) l)).
Qed.


(** X11. [selectModel] never throws [No models available]: a ranking
    that [rankModels] returns is not empty. *)
Theorem selectModel_guard_unreachable (query : str) (cfg : Config) :
  Selection.selectModel Number createLanguageModel query cfg
  <> inl Selection.NoBestModel.
Proof.
  unfold Selection.selectModel.
  destruct (rankModels Number query cfg) as [e|ranked] eqn:Hr; [discriminate|].
  apply rankModels_nonempty in Hr.
  destruct ranked as [|best rest]; [congruence|]. simpl.
  destruct (createLanguageModel (config best)); discriminate.
Qed.

Lemma StronglySorted_take {A : Type} (R : A -> A -> Prop) (l : list A) (n : nat) :
  StronglySorted R l -> StronglySorted R (take n l).
Proof.
  intros Hs. revert n. induction Hs as [|x l Hs IH Hall]; intros n.
  - rewrite take_nil. constructor.
  - destruct n as [|n]; simpl; constructor; [apply IH|].
    apply List.Forall_forall. intros y Hy.
    rewrite List.Forall_forall in Hall. apply Hall.
    rewrite <- (take_drop n l). apply in_or_app. left. exact Hy.
Qed.

Lemma embeddingCandidates_Forall (P : Q -> Prop)
    (selected : list Selection.EmbeddingRanked) :
  Forall (fun r => P (Selection.r_normalizedScore r)) selected ->
  Forall (fun c => P (Selection.e_score c))
         (Selection.embeddingCandidates createEmbeddingModel selected).
Proof.
  induction selected as [|r rest IH]; intros H; simpl; [constructor|].
  apply Forall_cons in H. destruct H as (Hr & Hrest).
  destruct (createEmbeddingModel (Selection.r_config r));
    [apply IH, Hrest|constructor; [exact Hr|apply IH, Hrest]].
Qed.

Lemma embeddingCandidates_shape (selected : list Selection.EmbeddingRanked) :
  let capable r :=
    match createEmbeddingModel (Selection.r_config r) with
    | inr _ => true | inl _ => false
    end in
  let candidates := Selection.embeddingCandidates createEmbeddingModel selected in
  map Selection.e_modelName candidates
  = map Selection.r_name (List.filter capable selected) /\
  Forall (fun c => createEmbeddingModel (Selection.e_config c)
                   = inr (Selection.e_model c)) candidates /\
  (StronglySorted (fun a b => (Selection.r_normalizedScore b
                               <= Selection.r_normalizedScore a)%Q) selected ->
   StronglySorted embeddingDescending candidates).
Proof.
  cbv zeta. induction selected as [|r rest IH]; simpl.
  - repeat split; constructor.
  - destruct IH as (Hnames & Hok & Hsorted).
    destruct (createEmbeddingModel (Selection.r_config r)) as [e|m] eqn:Hc.
    + split; [exact Hnames|]. split; [exact Hok|].
      intros Hs. apply StronglySorted_inv in Hs. apply Hsorted, Hs.
    + split; [simpl; f_equal; exact Hnames|].
      split; [constructor; [exact Hc|exact Hok]|].
      intros Hs. apply StronglySorted_inv in Hs. destruct Hs as (Hs & Hall).
      constructor; [apply Hsorted, Hs|].
      unfold embeddingDescending. simpl.
      apply (embeddingCandidates_Forall
               (fun s => (s <= Selection.r_normalizedScore r)%Q)), Hall.
Qed.


End SelectionFacts.



(* ================================================================== *)
(** ** Error classifier: status codes and timeouts *)
(* ================================================================== *)

Section PatternFacts.

Lemma charMatches_refl (ic : bool) (c : ascii) : charMatches ic c c = true.
Proof. unfold charMatches. destruct ic; apply Ascii.eqb_refl. Qed.

Lemma matchHere_literal (ic : bool) (w rest : str) :
  matchHere ic (literalOf w) (w ++ rest) = true.
Proof.
  induction w as [|c w IH]; simpl; [reflexivity|].
  rewrite charMatches_refl. exact IH.
Qed.

Lemma test_unfold (p : RegExp) (c : ascii) (s : str) :
  test p (c :: s) = matchHere (ignoreCase p) (atoms p) (c :: s) || test p s.
Proof. reflexivity. Qed.

Lemma test_here (p : RegExp) (s : str) :
  matchHere (ignoreCase p) (atoms p) s = true -> test p s = true.
Proof. intros H. destruct s; simpl; rewrite H; reflexivity. Qed.

Lemma test_suffix (p : RegExp) (a s : str) :
  test p s = true -> test p (a ++ s) = true.
Proof.
  intros H. induction a as [|c a IH]; [exact H|].
  simpl app. rewrite test_unfold, IH. apply orb_true_r.
Qed.

Lemma test_contains (p : RegExp) (w a b : str) :
  atoms p = literalOf w -> test p (a ++ w ++ b) = true.
Proof.
  intros Hp. apply test_suffix, test_here. rewrite Hp. apply matchHere_literal.
Qed.

Lemma matchesPatterns_In (text : str) (patterns : list RegExp) (p : RegExp) :
  In p patterns -> test p text = true -> matchesPatterns text patterns = true.
Proof.
  intros Hin Ht. unfold matchesPatterns. apply existsb_exists. exists p. auto.
Qed.

Lemma join_contains (sep : str) (parts : list str) (w : str) :
  In w parts -> exists a b, join sep parts = a ++ w ++ b.
Proof.
  induction parts as [|p ps IH]; intros Hin; [destruct Hin|].
  destruct Hin as [->|Hin].
  - destruct ps as [|q qs].
    + exists [], []. simpl. rewrite app_nil_r. reflexivity.
    + exists [], (sep ++ join sep (q :: qs)). reflexivity.
  - destruct (IH Hin) as (a & b & E). destruct ps as [|q qs]; [destruct Hin|].
    exists (p ++ sep ++ a), b.
    change (join sep (p :: q :: qs)) with (p ++ sep ++ join sep (q :: qs)).
    rewrite E, <- !app_assoc. reflexivity.
Qed.

Lemma status_in_text (e : JsError) (n : Z) :
  status e = Some n \/ statusCode e = Some n ->
  exists a b, getErrorText e = a ++ ofZ n ++ b.
Proof.
  intros H. unfold getErrorText. apply join_contains.
  destruct H as [H|H]; rewrite H; simpl.
  - right. left. reflexivity.
  - right. apply in_or_app. right. left. reflexivity.
Qed.

Lemma text_matches (e : JsError) (n : Z) (p : RegExp) (patterns : list RegExp) :
  status e = Some n \/ statusCode e = Some n ->
  atoms p = literalOf (ofZ n) -> In p patterns ->
  matchesPatterns (getErrorText e) patterns = true.
Proof.
  intros Hs Hp Hin. destruct (status_in_text e n Hs) as (a & b & ->).
  apply (matchesPatterns_In _ _ p Hin), test_contains, Hp.
Qed.

Ltac classify_with H :=
  unfold classifyError; revert H;
  repeat match goal with
         | |- context [matchesPatterns ?t ?ps] => destruct (matchesPatterns t ps)
         end;
  simpl; intros H; try discriminate H; auto; try discriminate.

(** X13. An error that carries the HTTP status [n] in [status] or
    [statusCode] is classified whatever its message says: 429 is a rate
    limit; 401 and 403 are a rate limit or an authentication error,
    never retried and always followed by a fallback; 400 is never
    retried; 500, 502, 503 and 504 are never [UNKNOWN]. *)
Theorem http_status_policy (e : JsError) (n : Z) :
  status e = Some n \/ statusCode e = Some n ->
  let c := classifyError e in
  (n = 429 -> category c = RATE_LIMIT) /\
  (n = 401 \/ n = 403 ->
     (category c = RATE_LIMIT \/ category c = AUTH) /\
     shouldRetry c = false /\ shouldFallback c = true) /\
  (n = 400 ->
     (category c = RATE_LIMIT \/ category c = AUTH \/ category c = INVALID_REQUEST) /\
     shouldRetry c = false) /\
  (n = 500 \/ n = 502 \/ n = 503 \/ n = 504 -> category c <> UNKNOWN).
Proof.
  intros Hs c. subst c. split; [|split; [|split]].
  - intros ->.
    pose proof (text_matches e 429 (re "429") RATE_LIMIT_PATTERNS Hs eq_refl) as H.
    specialize (H ltac:(simpl; tauto)).
    classify_with H.
  - intros Hn.
    assert (H : matchesPatterns (getErrorText e) AUTH_PATTERNS = true).
    { destruct Hn as [-> | ->].
      - apply (text_matches e 401 (re "401") _ Hs eq_refl). simpl; tauto.
      - apply (text_matches e 403 (re "403") _ Hs eq_refl). simpl; tauto. }
    classify_with H.
  - intros ->.
    pose proof (text_matches e 400 (re "400") INVALID_REQUEST_PATTERNS Hs eq_refl) as H.
    specialize (H ltac:(simpl; tauto)).
    classify_with H.
  - intros Hn.
    assert (H : matchesPatterns (getErrorText e) TRANSIENT_PATTERNS = true).
    { destruct Hn as [-> | [-> | [-> | ->]]].
      - apply (text_matches e 500 (re "500") _ Hs eq_refl). simpl; tauto.
      - apply (text_matches e 502 (re "502") _ Hs eq_refl). simpl; tauto.
      - apply (text_matches e 503 (re "503") _ Hs eq_refl). simpl; tauto.
      - apply (text_matches e 504 (re "504") _ Hs eq_refl). simpl; tauto. }
    classify_with H.
Qed.

Lemma test_miss (p : RegExp) (c : ascii) (s : str) :
  matchHere (ignoreCase p) (atoms p) (c :: s) = false -> test p (c :: s) = test p s.
Proof. intros H. rewrite test_unfold, H. reflexivity. Qed.

Lemma uint_digits (d : Decimal.uint) :
  forallb isDigit (lit (NilEmpty.string_of_uint d)) = true.
Proof. induction d; simpl; auto. Qed.

Lemma ofZ_digits (t : Z) : 0 <= t -> forallb isDigit (ofZ t) = true.
Proof.
  intros Ht. unfold ofZ. destruct t as [|p|p]; [reflexivity| |lia].
  unfold Z.to_int, NilZero.string_of_int, NilZero.string_of_uint.
  destruct (Pos.to_uint p); try apply uint_digits. reflexivity.
Qed.

Lemma toLower_digit (x : ascii) : isDigit x = true -> toLower x = x.
Proof.
  destruct x as [[] [] [] [] [] [] [] []]; vm_compute; intros H;
    try discriminate H; reflexivity.
Qed.

Lemma letter_not_digit (p : RegExp) (x : ascii) (s : str) :
  startsWithLetter p = true -> isDigit x = true ->
  matchHere (ignoreCase p) (atoms p) (x :: s) = false.
Proof.
  unfold startsWithLetter. intros Hp Hx.
  destruct (atoms p) as [|[c|] rest]; try discriminate Hp.
  apply andb_true_iff in Hp. destruct Hp as (Hc & Hl).
  apply negb_true_iff in Hc. apply negb_true_iff in Hl.
  simpl. apply andb_false_iff. left. unfold charMatches.
  destruct (ignoreCase p).
  - rewrite (toLower_digit _ Hx).
    destruct (Ascii.eqb (toLower c) x) eqn:E; [|reflexivity].
    apply Ascii.eqb_eq in E. congruence.
  - destruct (Ascii.eqb c x) eqn:E; [|reflexivity].
    apply Ascii.eqb_eq in E. congruence.
Qed.

Lemma test_over_digits (p : RegExp) (d s : str) :
  startsWithLetter p = true -> forallb isDigit d = true ->
  test p (d ++ s) = test p s.
Proof.
  intros Hp. induction d as [|x d IH]; intros Hd; [reflexivity|].
  simpl in Hd. apply andb_true_iff in Hd. destruct Hd as (Hx & Hd).
  simpl app. rewrite test_miss by (apply letter_not_digit; assumption).
  apply IH, Hd.
Qed.

Lemma matchHere_digits_tail (l : list Atom) :
  digitAtoms l = true ->
  forall d b : str,
    forallb (fun c => negb (isDigit c)) b = true ->
    matchHere false l (d ++ b) = matchHere false l d.
Proof.
  intros Hl. induction l as [|[c|] rest IH]; intros d b Hb; simpl;
    [reflexivity| |discriminate Hl].
  simpl in Hl. apply andb_true_iff in Hl. destruct Hl as (Hc & Hrest).
  destruct d as [|x d]; simpl.
  - destruct b as [|y b]; [reflexivity|].
    simpl in Hb. apply andb_true_iff in Hb. destruct Hb as (Hy & _).
    apply negb_true_iff in Hy. apply andb_false_iff. left.
    destruct (Ascii.eqb c y) eqn:E; [|reflexivity].
    apply Ascii.eqb_eq in E. congruence.
  - f_equal. apply IH; auto.
Qed.

Lemma digitPattern_atoms (p : RegExp) :
  digitPattern p = true ->
  ignoreCase p = false /\ digitAtoms (atoms p) = true /\
  exists c rest, atoms p = Lit c :: rest /\ isDigit c = true.
Proof.
  unfold digitPattern, digitAtoms. intros H.
  apply andb_true_iff in H. destruct H as (H & Hd).
  apply andb_true_iff in H. destruct H as (Hi & Hne).
  apply negb_true_iff in Hi. split; [exact Hi|]. split; [exact Hd|].
  destruct (atoms p) as [|[c|] rest]; try discriminate.
  simpl in Hd. apply andb_true_iff in Hd. destruct Hd as (Hc & _).
  exists c, rest. auto.
Qed.

Lemma digitPattern_miss (p : RegExp) (s : str) :
  digitPattern p = true ->
  match s with
  | [] => True
  | c :: _ => isDigit c = false
  end ->
  matchHere (ignoreCase p) (atoms p) s = false.
Proof.
  intros Hp Hs. destruct (digitPattern_atoms p Hp) as (-> & _ & c & rest & -> & Hc).
  destruct s as [|x s]; [reflexivity|]. simpl. apply andb_false_iff. left.
  destruct (Ascii.eqb c x) eqn:E; [|reflexivity].
  apply Ascii.eqb_eq in E. congruence.
Qed.

Lemma test_no_digit (p : RegExp) (b : str) :
  digitPattern p = true -> forallb (fun c => negb (isDigit c)) b = true ->
  test p b = false.
Proof.
  intros Hp. induction b as [|y b IH]; intros Hb.
  - simpl. rewrite (digitPattern_miss p [] Hp I). reflexivity.
  - simpl in Hb. apply andb_true_iff in Hb. destruct Hb as (Hy & Hb).
    apply negb_true_iff in Hy.
    rewrite test_miss by (apply digitPattern_miss; assumption).
    apply IH, Hb.
Qed.

Lemma test_digits_tail (p : RegExp) (d b : str) :
  digitPattern p = true -> forallb (fun c => negb (isDigit c)) b = true ->
  test p (d ++ b) = test p d.
Proof.
  intros Hp Hb. induction d as [|x d IH].
  - simpl app. rewrite (test_no_digit p b Hp Hb).
    symmetry. apply (test_no_digit p [] Hp). reflexivity.
  - simpl app. rewrite !test_unfold, IH. f_equal.
    destruct (digitPattern_atoms p Hp) as (-> & Hd & _).
    apply (matchHere_digits_tail _ Hd (x :: d) b Hb).
Qed.

Ltac skip_prefix :=
  repeat rewrite test_miss by (vm_compute; reflexivity).

Ltac word_silent Hd :=
  repeat match goal with
         | |- context [test ?p (?d ++ ?s)] =>
             rewrite (test_over_digits p d s eq_refl Hd);
             change (test p s) with false
         end;
  cbn [orb].

Lemma timeout_text (d : str) :
  forallb isDigit d = true ->
  let text := lit "Request timed out after " ++ d ++ lit "ms" in
  matchesPatterns text RATE_LIMIT_PATTERNS = test (re "429") d /\
  matchesPatterns text AUTH_PATTERNS = test (re "401") d || test (re "403") d /\
  matchesPatterns text INVALID_REQUEST_PATTERNS = test (re "400") d /\
  matchesPatterns text TRANSIENT_PATTERNS = true.
Proof.
  intros Hd text. subst text.
  assert (Hms : forallb (fun c => negb (isDigit c)) (lit "ms") = true) by reflexivity.
  unfold matchesPatterns, RATE_LIMIT_PATTERNS, AUTH_PATTERNS,
    INVALID_REQUEST_PATTERNS.
  cbn [existsb lit list_ascii_of_string app].
  repeat split.
  - skip_prefix.
    word_silent Hd.
    rewrite (test_digits_tail (re "429") _ _ eq_refl Hms).
    rewrite orb_false_r. reflexivity.
  - skip_prefix.
    word_silent Hd.
    rewrite (test_digits_tail (re "401") _ _ eq_refl Hms).
    rewrite (test_digits_tail (re "403") _ _ eq_refl Hms).
    rewrite orb_false_r. reflexivity.
  - skip_prefix.
    word_silent Hd.
    rewrite (test_digits_tail (re "400") _ _ eq_refl Hms).
    rewrite orb_false_r. reflexivity.
  - apply (matchesPatterns_In _ _ (rei "timed.?out")); [simpl; tauto|].
    apply (test_suffix _ (lit "Request ")), test_here. reflexivity.
Qed.


End PatternFacts.

(** X13, on an error of status 429 and a neutral message. *)
Lemma http_status_policy_witness :
  category (classifyError (mkJsError (lit "Request failed") (Some 429) None None None))
  = RATE_LIMIT.
Proof.
  apply (http_status_policy
           (mkJsError (lit "Request failed") (Some 429) None None None) 429);
    [left; reflexivity|reflexivity].
Defined.


(* ================================================================== *)
(** ** Retry loop and fallback loop *)
(* ================================================================== *)

Section RetryFacts.

Context {M T : Type}.
Variable now : Trace -> Z.
Variable fn : ModelCandidate M -> Trace -> Settled T.

Lemma backoff_shift (delay attempt : Z) (m : nat) :
  0 <= attempt ->
  delay * 2 ^ attempt
  :: map (fun k => delay * 2 ^ (attempt + 1 + Z.of_nat k)) (seq 0 m)
  = map (fun k => delay * 2 ^ (attempt + Z.of_nat k)) (seq 0 (S m)).
Proof.
  intros Ha. simpl seq. rewrite <- seq_shift, map_cons, map_map.
  f_equal.
  - f_equal. f_equal. lia.
  - apply map_ext. intros k. f_equal. f_equal. lia.
Qed.

Lemma retryLoop_shape options (c : ModelCandidate M) (iterations : nat) :
  forall attempt attempts lastError tr,
    0 <= attempt ->
    attempt + Z.of_nat iterations = maxRetries options + 1 ->
    exists n : nat,
      (n <= iterations)%nat /\ (iterations <> 0%nat -> n <> 0%nat) /\
      let run := retryLoop now fn options c iterations attempt attempts lastError tr in
      invocations (snd run) = invocations tr ++ repeat (modelName c) n /\
      sleeps (snd run)
      = sleeps tr
        ++ map (fun k => retryDelay options * 2 ^ (attempt + Z.of_nat k))
               (seq 0 (n - 1)) /\
      match fst run with
      | inr (_, log) =>
          exists failures info,
            log = attempts ++ failures ++ [info] /\
            (length failures + 1)%nat = n /\
            Forall (retriedFailure (modelName c) (provider (Executor.config c))) failures /\
            a_modelName info = modelName c /\ success info = true /\ error info = None
      | inl e =>
          (n = iterations /\
           match n with
           | O => e = default (newError (lit "Unknown error")) lastError
           | S _ => shouldRetry (classifyError e) = true
           end) \/
          (n <> 0%nat /\ shouldRetry (classifyError e) = false)
      end.
Proof.
  induction iterations as [|k IH]; intros attempt attempts lastError tr Ha Hsum.
  - exists 0%nat. split; [lia|]. split; [congruence|]. simpl.
    rewrite !app_nil_r. repeat split. left. split; reflexivity.
  - simpl retryLoop.
    destruct (withTimeout _ _) as [err|res].
    + destruct (shouldRetry (classifyError err)) eqn:Hretry; simpl negb; cbv iota.
      * match goal with
        | |- context [retryLoop _ _ _ _ _ ?a ?b ?c ?d] =>
            destruct (IH a b c d) as (n & Hle & Hpos & Hrun)
        end; [lia|lia|].
        cbv zeta in Hrun. destruct Hrun as (Hinv & Hsl & Hout).
        exists (S n). split; [lia|]. split; [congruence|]. cbv zeta.
        split; [|split].
        -- rewrite Hinv.
           destruct (attempt <? maxRetries options);
             rewrite ?invocations_app; simpl; rewrite ?app_nil_r, <- ?app_assoc;
             reflexivity.
        -- rewrite Hsl. replace (S n - 1)%nat with n by lia.
           destruct (attempt <? maxRetries options) eqn:Hlt.
           ++ apply Z.ltb_lt in Hlt.
              assert (Hn : n <> 0%nat) by (apply Hpos; lia).
              destruct n as [|m]; [congruence|].
              replace (S m - 1)%nat with m by lia.
              rewrite <- (backoff_shift _ _ _ Ha).
              rewrite !sleeps_app. simpl. rewrite !app_nil_r, <- !app_assoc.
              reflexivity.
           ++ apply Z.ltb_ge in Hlt.
              assert (Hn : n = 0%nat) by lia. subst n. simpl.
              rewrite !sleeps_app. simpl. rewrite !app_nil_r. reflexivity.
        -- destruct (fst (retryLoop _ _ _ _ _ _ _ _ _)) as [e|[v log]].
           ++ destruct Hout as [(-> & Hn)|(Hn & He)].
              ** left. split; [reflexivity|].
                 destruct k; [|exact Hn]. simpl in Hn. subst e. exact Hretry.
              ** right. split; [congruence|exact He].
           ++ destruct Hout as (failures & info & -> & Hlen & Hall & Hname & Hok & Herr).
              eexists (_ :: failures), info. rewrite <- !app_assoc. simpl.
              split; [reflexivity|]. split; [simpl; lia|].
              split; [|auto].
              constructor; [|exact Hall].
              unfold retriedFailure. simpl. repeat split. eauto.
      * exists 1%nat. split; [lia|]. split; [congruence|]. cbv zeta. simpl.
        rewrite !invocations_app, !sleeps_app. simpl. rewrite !app_nil_r.
        repeat split. right. split; [congruence|exact Hretry].
    + exists 1%nat. split; [lia|]. split; [congruence|]. cbv zeta. simpl.
      rewrite !invocations_app, !sleeps_app. simpl. rewrite !app_nil_r.
      repeat split. eexists [], _. simpl. repeat split; try reflexivity.
      constructor.
Qed.

Lemma executeWithRetry_shape options (c : ModelCandidate M) (tr : Trace) :
  exists n : nat,
    Z.of_nat n <= Z.max 0 (maxRetries options + 1) /\
    (0 <= maxRetries options -> n <> 0%nat) /\
    let run := executeWithRetry now fn options c tr in
    invocations (snd run) = invocations tr ++ repeat (modelName c) n /\
    sleeps (snd run) = sleeps tr ++ backoffSchedule options (n - 1) /\
    match fst run with
    | inr (_, log) =>
        exists failures info,
          log = failures ++ [info] /\
          (length failures + 1)%nat = n /\
          Forall (retriedFailure (modelName c) (provider (Executor.config c))) failures /\
          a_modelName info = modelName c /\ success info = true /\ error info = None
    | inl e =>
        (Z.of_nat n = Z.max 0 (maxRetries options + 1) /\
         match n with
         | O => e = newError (lit "Unknown error")
         | S _ => shouldRetry (classifyError e) = true
         end) \/
        (n <> 0%nat /\ shouldRetry (classifyError e) = false)
    end.
Proof.
  unfold executeWithRetry.
  destruct (Z_lt_le_dec (maxRetries options + 1) 0) as [Hneg|Hpos].
  - exists 0%nat. replace (Z.to_nat (maxRetries options + 1)) with 0%nat by lia.
    simpl. rewrite !app_nil_r. repeat split; try lia. left. split; [lia|reflexivity].
  - destruct (retryLoop_shape options c (Z.to_nat (maxRetries options + 1))
                0 [] None tr) as (n & Hle & Hne & Hrun); [lia|lia|].
    cbv zeta in Hrun. destruct Hrun as (Hinv & Hsl & Hout).
    exists n. split; [lia|]. split; [intros; apply Hne; lia|]. cbv zeta.
    split; [exact Hinv|]. split.
    + rewrite Hsl. unfold backoffSchedule. reflexivity.
    + destruct (fst (retryLoop _ _ _ _ _ _ _ _ _)) as [e|[v log]].
      * destruct Hout as [(-> & Hn)|Hn]; [left|right; exact Hn].
        split; [lia|]. exact Hn.
      * exact Hout.
Qed.

(** X15. [executeWithRetry] starts the operation of its own model only,
    at most [maxRetries + 1] times and at least once when [maxRetries]
    is not negative; between two attempts it sleeps
    [retryDelay * 2^k] after attempt [k], and it does not sleep after
    the last attempt. *)
Theorem retry_backoff_schedule options (c : ModelCandidate M) (tr : Trace) :
  let run := executeWithRetry now fn options c tr in
  exists n : nat,
    Z.of_nat n <= Z.max 0 (maxRetries options + 1) /\
    (0 <= maxRetries options -> (1 <= n)%nat) /\
    invocations (snd run) = invocations tr ++ repeat (modelName c) n /\
    sleeps (snd run) = sleeps tr ++ backoffSchedule options (n - 1).
Proof.
  destruct (executeWithRetry_shape options c tr) as (n & Hle & Hne & Hrun).
  cbv zeta in Hrun |- *. destruct Hrun as (Hinv & Hsl & _).
  exists n. split; [exact Hle|]. split; [|split; assumption].
  intros H. specialize (Hne H). lia.
Qed.

(** X16. When [executeWithRetry] returns, its attempt log has one entry
    per operation started: retried failures of the model followed by
    one success.  When it throws with [maxRetries >= 0], the error is
    one the classifier does not retry, or all [maxRetries + 1] attempts
    were made; with a negative [maxRetries] it throws [Unknown error]
    without any attempt. *)
Theorem retry_outcome options (c : ModelCandidate M) (tr : Trace) :
  let run := executeWithRetry now fn options c tr in
  let started := (length (invocations (snd run)) - length (invocations tr))%nat in
  match fst run with
  | inr (_, log) =>
      exists failures info,
        log = failures ++ [info] /\ length log = started /\
        Forall (retriedFailure (modelName c) (provider (Executor.config c))) failures /\
        a_modelName info = modelName c /\ success info = true /\ error info = None
  | inl e =>
      (maxRetries options < 0 ->
       e = newError (lit "Unknown error") /\ snd run = tr) /\
      (0 <= maxRetries options ->
       (1 <= started)%nat /\
       (shouldRetry (classifyError e) = false \/
        Z.of_nat started = maxRetries options + 1))
  end.
Proof.
  destruct (executeWithRetry_shape options c tr) as (n & Hle & Hne & Hrun).
  cbv zeta in Hrun |- *. destruct Hrun as (Hinv & _ & Hout).
  assert (Hstarted : (length (invocations (snd (executeWithRetry now fn options c tr)))
                      - length (invocations tr))%nat = n).
  { rewrite Hinv, length_app, repeat_length. lia. }
  rewrite Hstarted.
  destruct (fst (executeWithRetry now fn options c tr)) as [e|[v log]] eqn:Eout.
  - split.
    + intros Hneg. unfold executeWithRetry in Eout |- *.
      replace (Z.to_nat (maxRetries options + 1)) with 0%nat in * by lia.
      simpl in Eout |- *. injection Eout as <-. split; reflexivity.
    + intros Hpos. specialize (Hne Hpos). split; [lia|].
      destruct Hout as [(Hn & _)|(_ & He)]; [right; lia|left; exact He].
  - destruct Hout as (failures & info & -> & Hlen & Hall & Hname & Hok & Herr).
    exists failures, info. rewrite length_app. simpl.
    repeat split; try assumption; lia.
Qed.

Lemma fallbackLoop_shape options (xs : list (ModelCandidate M)) :
  forall i allAttempts failed tr,
  exists counts : list nat,
    (length counts <= length xs)%nat /\
    Forall (fun n => Z.of_nat n <= Z.max 0 (maxRetries options + 1)) counts /\
    let run := fallbackLoop now fn options xs i allAttempts failed tr in
    invocations (snd run) = invocations tr ++ callBlocks (map modelName xs) counts /\
    fst run <> inl NoModelsAvailable /\
    (forall r, fst run = inr r ->
       exists earlier c later log tr0,
         xs = earlier ++ c :: later /\
         length counts = S (length earlier) /\
         fallbacksUsed r = i + Z.of_nat (length earlier) /\
         modelUsed r = modelName c /\ modelConfig r = Executor.config c /\
         attempts r = allAttempts ++ log /\ log <> [] /\
         Z.of_nat (length log) <= Z.max 0 (maxRetries options + 1) /\
         Forall (fun a => a_modelName a = modelName c) log /\
         snd run = tr0 ++ [OnSuccess (modelName c) (attempts r)]) /\
    (forall failed', fst run = inl (AllModelsFailedError failed') ->
       exists errs,
         failed' = failed ++ errs /\
         map fst errs = map modelName xs /\
         Forall (fun ne => shouldFallback (classifyError (snd ne)) = true) errs /\
         length counts = length xs) /\
    (forall e, fst run = inl (Thrown e) ->
       shouldFallback (classifyError e) = false /\
       exists earlier c later,
         xs = earlier ++ c :: later /\ length counts = S (length earlier)).
Proof.
  induction xs as [|x xs IH]; intros i allAttempts failed tr.
  - exists []. split; [simpl; lia|]. split; [constructor|]. cbv zeta. simpl.
    unfold callBlocks. simpl. rewrite app_nil_r.
    split; [reflexivity|]. split; [discriminate|]. split; [discriminate|]. split.
    + intros failed' H. injection H as <-. exists []. rewrite app_nil_r.
      repeat split. constructor.
    + discriminate.
  - cbv zeta. simpl fallbackLoop.
    destruct (executeWithRetry_shape options x
                (notifyFallback i failed (modelName x) tr))
      as (n & Hn & _ & Hrun).
    cbv zeta in Hrun. destruct Hrun as (Hinv & _ & Hout).
    rewrite invocations_notifyFallback in Hinv.
    destruct (executeWithRetry now fn options x _) as [[err|[res log]] tr1].
    + simpl in Hinv, Hout.
      destruct (shouldFallback (classifyError err)) eqn:Hfb; simpl negb; cbv iota.
      * destruct (IH (i + 1) allAttempts (failed ++ [(modelName x, err)]) tr1)
          as (counts & Hlen & Hall & Hrec).
        cbv zeta in Hrec.
        destruct Hrec as (Hinv' & Hnm & Hok & Hfail & Hthrown).
        exists (n :: counts). split; [simpl; lia|].
        split; [constructor; assumption|].
        split; [|split; [exact Hnm|split; [|split]]].
        -- rewrite Hinv', Hinv. unfold callBlocks. simpl.
           rewrite <- !app_assoc. reflexivity.
        -- intros r Hr.
           destruct (Hok r Hr) as (earlier & c & later & lg & tr0 & -> & Hc & Hf & Hrest).
           exists (x :: earlier), c, later, lg, tr0.
           split; [reflexivity|]. split; [simpl; lia|].
           split; [simpl length; lia|]. exact Hrest.
        -- intros failed' Hf.
           destruct (Hfail failed' Hf) as (errs & -> & Hnames & Herrs & Hc).
           exists ((modelName x, err) :: errs). rewrite <- app_assoc.
           split; [reflexivity|]. split; [simpl; f_equal; exact Hnames|].
           split; [constructor; [exact Hfb|exact Herrs]|simpl; lia].
        -- intros e He. destruct (Hthrown e He) as (Hs & earlier & c & later & -> & Hc).
           split; [exact Hs|]. exists (x :: earlier), c, later.
           split; [reflexivity|simpl; lia].
      * exists [n]. split; [simpl; lia|]. split; [repeat constructor; exact Hn|].
        simpl. unfold callBlocks. simpl.
        destruct xs; simpl; rewrite app_nil_r;
          (split; [exact Hinv|]; split; [discriminate|]; split; [discriminate|];
           split; [discriminate|]; intros e He; injection He as <-;
           split; [exact Hfb|]; exists [], x; eexists; split; reflexivity).
    + simpl in Hinv, Hout.
      destruct Hout as (failures & info & -> & Hlen & Hall & Hname & Hsucc & Herr).
      exists [n]. split; [simpl; lia|]. split; [repeat constructor; exact Hn|].
      assert (Hblocks : callBlocks (map modelName (x :: xs)) [n]
                        = repeat (modelName x) n).
      { unfold callBlocks. destruct xs; simpl; apply app_nil_r. }
      rewrite Hblocks. simpl. rewrite invocations_app. simpl. rewrite app_nil_r.
      split; [exact Hinv|]. split; [discriminate|].
      split; [|split; discriminate].
      intros r Hr. injection Hr as <-. simpl.
      exists [], x, xs, (failures ++ [info]), tr1.
      repeat split; try (simpl; lia).
      * intros H. apply app_eq_nil in H. destruct H as (_ & H). discriminate H.
      * rewrite length_app. simpl. lia.
      * apply Forall_app. split.
        -- eapply Forall_impl; [exact Hall|]. intros a Ha. apply Ha.
        -- constructor; [exact Hname|constructor].
Qed.

(** X17. [executeWithFallbacks] tries the first [fallbackCount]
    candidates only, in their order: the operations it starts are
    consecutive blocks, one per candidate tried, each of at most
    [maxRetries + 1] operations, and it never returns to an earlier
    candidate. *)
Theorem fallback_invocation_order
    (candidates : list (ModelCandidate M)) (options : BaseWrapperOptions)
    (tr : Trace) :
  let fallbackCount := default DEFAULT_FALLBACK_COUNT (o_fallbackCount options) in
  let modelsToTry := Ranker.slice0 fallbackCount candidates in
  let perModel := Z.max 0 (maxRetries (resolveExecutorOptions options) + 1) in
  let run := executeWithFallbacks now fn candidates options tr in
  (0 <= fallbackCount -> modelsToTry = take (Z.to_nat fallbackCount) candidates) /\
  exists counts : list nat,
    (length counts <= length modelsToTry)%nat /\
    Forall (fun n => Z.of_nat n <= perModel) counts /\
    invocations (snd run)
    = invocations tr ++ callBlocks (map modelName modelsToTry) counts.
Proof.
  cbv zeta. split.
  - intros H. unfold Ranker.slice0.
    destruct (_ <? 0) eqn:E; [apply Z.ltb_lt in E; lia|reflexivity].
  - unfold executeWithFallbacks.
    destruct (length _ =? 0)%nat eqn:E.
    + exists []. simpl. split; [lia|]. split; [constructor|].
      unfold callBlocks. rewrite zip_with_nil_r. simpl. symmetry. apply app_nil_r.
    + destruct (fallbackLoop_shape (resolveExecutorOptions options)
                  (Ranker.slice0 (default DEFAULT_FALLBACK_COUNT (o_fallbackCount options))
                                 candidates) 0 [] [] tr)
        as (counts & Hlen & Hall & Hinv & _).
      exists counts. auto.
Qed.

(** X18. [executeWithFallbacks] throws [No models available to try]
    exactly when no candidate is left after the cut, and then does
    nothing else; an [AllModelsFailedError] names every candidate tried,
    in order, each with an error the classifier lets fall back; any other
    error it throws is one the classifier does not let fall back. *)
Theorem fallback_failure_report
    (candidates : list (ModelCandidate M)) (options : BaseWrapperOptions)
    (tr : Trace) :
  let modelsToTry :=
    Ranker.slice0 (default DEFAULT_FALLBACK_COUNT (o_fallbackCount options))
                  candidates in
  let run := executeWithFallbacks now fn candidates options tr in
  (fst run = inl NoModelsAvailable <-> modelsToTry = []) /\
  (modelsToTry = [] -> snd run = tr) /\
  (forall failed, fst run = inl (AllModelsFailedError failed) ->
     map fst failed = map modelName modelsToTry /\
     Forall (fun ne => shouldFallback (classifyError (snd ne)) = true) failed) /\
  (forall e, fst run = inl (Thrown e) ->
     shouldFallback (classifyError e) = false).
Proof.
  cbv zeta. unfold executeWithFallbacks.
  set (modelsToTry := Ranker.slice0 _ candidates).
  destruct (fallbackLoop_shape (resolveExecutorOptions options) modelsToTry 0 [] [] tr)
    as (counts & _ & _ & _ & Hnm & _ & Hfail & Hthrown).
  destruct modelsToTry as [|x xs] eqn:E.
  - simpl. repeat split; try discriminate; reflexivity.
  - simpl length. simpl Nat.eqb. cbv iota.
    split; [split; [intros H; contradiction|discriminate]|].
    split; [discriminate|]. split.
    + intros failed Hf. destruct (Hfail failed Hf) as (errs & -> & Hnames & Herrs & _).
      simpl. auto.
    + intros e He. apply (Hthrown e He).
Qed.

(** X19. A result of [executeWithFallbacks] names the candidate that
    succeeded: [fallbacksUsed] is its position, [modelUsed] and
    [modelConfig] are its name and configuration, the attempt log is
    not empty, has at most [maxRetries + 1] entries and holds attempts
    of that candidate only, and the [onSuccess] hook is the last event. *)
Theorem fallback_success_metadata
    (candidates : list (ModelCandidate M)) (options : BaseWrapperOptions)
    (tr : Trace) (r : ExecutionResult T) :
  let modelsToTry :=
    Ranker.slice0 (default DEFAULT_FALLBACK_COUNT (o_fallbackCount options))
                  candidates in
  let run := executeWithFallbacks now fn candidates options tr in
  fst run = inr r ->
  exists earlier c later tr0,
    modelsToTry = earlier ++ c :: later /\
    fallbacksUsed r = Z.of_nat (length earlier) /\
    modelUsed r = modelName c /\ modelConfig r = Executor.config c /\
    attempts r <> [] /\
    Z.of_nat (length (attempts r))
    <= Z.max 0 (maxRetries (resolveExecutorOptions options) + 1) /\
    Forall (fun a => a_modelName a = modelName c) (attempts r) /\
    snd run = tr0 ++ [OnSuccess (modelName c) (attempts r)].
Proof.
  cbv zeta. unfold executeWithFallbacks.
  set (modelsToTry := Ranker.slice0 _ candidates).
  destruct (length modelsToTry =? 0)%nat; [discriminate|].
  destruct (fallbackLoop_shape (resolveExecutorOptions options) modelsToTry 0 [] [] tr)
    as (counts & _ & _ & _ & _ & Hok & _).
  intros Hr.
  destruct (Hok r Hr)
    as (earlier & c & later & log & tr0 & E & _ & Hf & Hm & Hc & Hlog & Hne & Hlen & Hall & Htr).
  simpl in Hlog. exists earlier, c, later, tr0. rewrite Hlog.
  rewrite Hlog in Htr. repeat split; try assumption; lia.
Qed.

Lemma fallbackHops_app (a b : Trace) :
  fallbackHops (a ++ b) = fallbackHops a ++ fallbackHops b.
Proof. unfold fallbackHops. apply omap_app. Qed.

Lemma retryLoop_hops options (c : ModelCandidate M) (iterations : nat) :
  forall attempt attempts lastError tr,
    fallbackHops (snd (retryLoop now fn options c iterations attempt attempts
                                 lastError tr))
    = fallbackHops tr.
Proof.
  induction iterations as [|k IH]; intros attempt attempts lastError tr;
    [reflexivity|].
  simpl.
  destruct (withTimeout _ _) as [err|res].
  - destruct (shouldRetry (classifyError err)); simpl.
    + rewrite IH.
      destruct (attempt <? maxRetries options);
        rewrite !fallbackHops_app; simpl; rewrite !app_nil_r; reflexivity.
    + rewrite !fallbackHops_app. simpl. rewrite !app_nil_r. reflexivity.
  - simpl. rewrite !fallbackHops_app. simpl. rewrite !app_nil_r. reflexivity.
Qed.

Lemma consecutive_cons (p x : str) (rest : list str) :
  consecutive (p :: x :: rest) = (p, x) :: consecutive (x :: rest).
Proof. reflexivity. Qed.

Lemma consecutive_length (names : list str) :
  length (consecutive names) = (length names - 1)%nat.
Proof.
  destruct names as [|a l]; [reflexivity|]. unfold consecutive. simpl tail.
  rewrite length_zip_with, Nat.min_r by (simpl; lia). simpl. lia.
Qed.

Lemma fallbackLoop_hops options (xs : list (ModelCandidate M)) :
  forall i allAttempts failed tr,
    0 <= i -> (0 < i -> failed <> []) ->
    let prev :=
      if 0 <? i then match last failed with Some lf => [fst lf] | None => [] end
      else [] in
    let run := fallbackLoop now fn options xs i allAttempts failed tr in
    exists k : nat,
      (k <= length xs)%nat /\
      fallbackHops (snd run)
      = fallbackHops tr ++ consecutive (prev ++ map modelName (take k xs)) /\
      (forall r, fst run = inr r ->
         fallbacksUsed r + 1 = i + Z.of_nat k /\ k <> 0%nat) /\
      (forall failed', fst run = inl (AllModelsFailedError failed') ->
         k = length xs).
Proof.
  induction xs as [|x xs IH]; intros i allAttempts failed tr Hi Hfailed; cbv zeta.
  - exists 0%nat. simpl. split; [lia|]. rewrite app_nil_r.
    split; [|split; [discriminate|reflexivity]].
    destruct (0 <? i); [|symmetry; apply app_nil_r].
    destruct (last failed); symmetry; apply app_nil_r.
  - simpl fallbackLoop.
    set (tr1 := notifyFallback i failed (modelName x) tr).
    assert (Htr1 : fallbackHops tr1
                   = fallbackHops tr
                     ++ (if 0 <? i
                         then match last failed with
                              | Some lf => [(fst lf, modelName x)]
                              | None => []
                              end
                         else [])).
    { unfold tr1, notifyFallback, lastFailure.
      destruct (0 <? i) eqn:E; simpl; [|symmetry; apply app_nil_r].
      apply Z.ltb_lt in E. specialize (Hfailed E).
      destruct failed as [|f fs]; [congruence|]. simpl length.
      destruct (last (f :: fs)) as [lf|];
        change ((0 <? S (length fs))%nat) with true; cbv iota;
        [|symmetry; apply app_nil_r].
      rewrite fallbackHops_app. reflexivity. }
    pose proof (retryLoop_hops options x (Z.to_nat (maxRetries options + 1))
                  0 [] None tr1) as Hretry.
    fold (executeWithRetry now fn options x tr1) in Hretry.
    destruct (executeWithRetry now fn options x tr1) as [[err|[res log]] tr2].
    + simpl in Hretry.
      destruct (shouldFallback (classifyError err)); simpl negb; cbv iota.
      * destruct (IH (i + 1) allAttempts (failed ++ [(modelName x, err)]) tr2)
          as (k & Hk & Hhops & Hok & Hall); [lia| |].
        { intros _ H. apply app_eq_nil in H. destruct H as (_ & H). discriminate H. }
        exists (S k). split; [simpl; lia|]. split; [|split].
        -- rewrite Hhops, Hretry, Htr1.
           replace (0 <? i + 1) with true by (symmetry; apply Z.ltb_lt; lia).
           rewrite last_snoc. simpl fst. simpl take. simpl map.
           rewrite <- app_assoc. f_equal.
           destruct (0 <? i); [|reflexivity].
           destruct (last failed) as [lf|]; reflexivity.
        -- intros r Hr. destruct (Hok r Hr) as (Hu & _). split; lia.
        -- intros failed' Hf. simpl. f_equal. exact (Hall failed' Hf).
      * exists 1%nat. split; [simpl; lia|]. simpl fst. simpl snd.
        split; [|split; [discriminate|discriminate]].
        rewrite Hretry, Htr1. f_equal. simpl take. rewrite ?take_0. simpl map.
        destruct (0 <? i); [|reflexivity].
        destruct (last failed) as [lf|]; reflexivity.
    + simpl in Hretry. exists 1%nat. split; [simpl; lia|]. simpl fst. simpl snd.
      split; [|split; [|discriminate]].
      * rewrite fallbackHops_app, Hretry, Htr1. simpl. rewrite app_nil_r.
        f_equal. simpl take. rewrite ?take_0. simpl map.
        destruct (0 <? i); [|reflexivity].
        destruct (last failed) as [lf|]; reflexivity.
      * intros r Hr. injection Hr as <-. simpl. split; lia.
Qed.

(** X20. The [onFallback] hook is called once per switch, with the
    candidate that failed and the one tried next, in order; on success
    it has been called [fallbacksUsed] times. *)
Theorem fallback_hook_chain
    (candidates : list (ModelCandidate M)) (options : BaseWrapperOptions)
    (tr : Trace) :
  let modelsToTry :=
    Ranker.slice0 (default DEFAULT_FALLBACK_COUNT (o_fallbackCount options))
                  candidates in
  let run := executeWithFallbacks now fn candidates options tr in
  exists tried : nat,
    (tried <= length modelsToTry)%nat /\
    fallbackHops (snd run)
    = fallbackHops tr ++ consecutive (map modelName (take tried modelsToTry)) /\
    (forall r, fst run = inr r ->
       fallbacksUsed r + 1 = Z.of_nat tried /\
       Z.of_nat (length (fallbackHops (snd run)))
       = Z.of_nat (length (fallbackHops tr)) + fallbacksUsed r) /\
    (forall failed, fst run = inl (AllModelsFailedError failed) ->
       tried = length modelsToTry).
Proof.
  cbv zeta. unfold executeWithFallbacks.
  set (modelsToTry := Ranker.slice0 _ candidates).
  destruct (length modelsToTry =? 0)%nat eqn:E.
  - exists 0%nat. simpl. split; [lia|]. rewrite ?take_0. simpl.
    rewrite app_nil_r. split; [reflexivity|]. split; discriminate.
  - destruct (fallbackLoop_hops (resolveExecutorOptions options) modelsToTry
                0 [] [] tr) as (k & Hk & Hhops & Hok & Hall); [lia|lia|].
    simpl app in Hhops.
    exists k. split; [exact Hk|]. split; [exact Hhops|]. split; [|exact Hall].
    intros r Hr. destruct (Hok r Hr) as (Hu & Hk0). split; [lia|].
    rewrite Hhops, length_app, consecutive_length, length_map, length_take.
    lia.
Qed.

Lemma negative_retries_loop options (xs : list (ModelCandidate M)) :
  maxRetries options < 0 ->
  forall i allAttempts failed tr,
    let run := fallbackLoop now fn options xs i allAttempts failed tr in
    fst run
    = inl (AllModelsFailedError
             (failed ++ map (fun c => (modelName c, unknownError)) xs)) /\
    invocations (snd run) = invocations tr /\
    sleeps (snd run) = sleeps tr.
Proof.
  intros Hneg. induction xs as [|x xs IH]; intros i allAttempts failed tr; cbv zeta.
  - simpl. rewrite app_nil_r. auto.
  - simpl fallbackLoop. unfold executeWithRetry.
    replace (Z.to_nat (maxRetries options + 1)) with 0%nat by lia.
    simpl retryLoop. cbv iota.
    change (shouldFallback (classifyError (newError (lit "Unknown error"))))
      with true.
    simpl negb. cbv iota.
    match goal with
    | |- context [fallbackLoop _ _ _ _ ?a ?b ?c ?d] =>
        destruct (IH a b c d) as (Hf & Hinv & Hsl)
    end.
    rewrite Hf, Hinv, Hsl, invocations_notifyFallback, sleeps_notifyFallback.
    rewrite <- app_assoc. auto.
Qed.

(** X21. With a negative [maxRetries] no operation is started and no
    sleep is taken: every candidate fails with [Unknown error] and
    [executeWithFallbacks] throws the [AllModelsFailedError] that lists
    them all. *)
Theorem negative_retries_never_invoke
    (candidates : list (ModelCandidate M)) (options : BaseWrapperOptions)
    (m : Z) (tr : Trace) :
  let modelsToTry :=
    Ranker.slice0 (default DEFAULT_FALLBACK_COUNT (o_fallbackCount options))
                  candidates in
  let run := executeWithFallbacks now fn candidates options tr in
  o_maxRetries options = Some m -> m < 0 -> modelsToTry <> [] ->
  fst run
  = inl (AllModelsFailedError
           (map (fun c => (modelName c, unknownError)) modelsToTry)) /\
  invocations (snd run) = invocations tr /\
  sleeps (snd run) = sleeps tr.
Proof.
  cbv zeta. intros Hm Hneg Hne. unfold executeWithFallbacks.
  set (modelsToTry := Ranker.slice0 _ candidates) in *.
  destruct modelsToTry as [|x xs] eqn:E; [congruence|].
  simpl length. simpl Nat.eqb. cbv iota.
  apply (negative_retries_loop (resolveExecutorOptions options) (x :: xs)).
  unfold resolveExecutorOptions. rewrite Hm. simpl. exact Hneg.
Qed.

End RetryFacts.

(** X19, on three candidates of which the third succeeds. *)
Lemma fallback_success_metadata_witness :
  let r := mkExecutionResult (lit "output of model-3") (lit "model-3")
             (mockConfig "provider-3")
             [mkAttempt (lit "model-3") (lit "provider-3") true None 0] 2 in
  fst (executeWithFallbacks (fun _ => 0) thirdSucceeds threeCandidates
                            defaultOptions []) = inr r /\
  exists earlier c later,
    threeCandidates = earlier ++ c :: later /\
    fallbacksUsed r = Z.of_nat (length earlier) /\
    modelUsed r = modelName c /\
    Forall (fun a => a_modelName a = modelName c) (attempts r).
Proof.
  intros r.
  assert (Hr : fst (executeWithFallbacks (fun _ => 0) thirdSucceeds threeCandidates
                                         defaultOptions []) = inr r)
    by (vm_compute; reflexivity).
  split; [exact Hr|].
  destruct (fallback_success_metadata (fun _ => 0) thirdSucceeds threeCandidates
              defaultOptions [] r Hr)
    as (earlier & c & later & tr0 & Hsplit & Hused & Hm & _ & _ & _ & Hall & _).
  exists earlier, c, later. auto.
Defined.

(** X21, on three candidates of which the third would succeed. *)
Lemma negative_retries_never_invoke_witness :
  let run := executeWithFallbacks (fun _ => 0) thirdSucceeds threeCandidates
                                  negativeRetries [] in
  fst run = inl (AllModelsFailedError [ (lit "model-1", unknownError);
                                        (lit "model-2", unknownError);
                                        (lit "model-3", unknownError) ]) /\
  invocations (snd run) = [] /\
  sleeps (snd run) = [].
Proof.
  apply (negative_retries_never_invoke (fun _ => 0) thirdSucceeds threeCandidates
           negativeRetries (-1) []); [reflexivity|lia|discriminate].
Defined.

(* ================================================================== *)
(** ** Streaming mode: attempt log and chunks *)
(* ================================================================== *)

Section StreamLog.

Context {M R : Type}.
Variable now : Trace -> Z.
Variable streamText : ModelCandidate M -> Trace -> StreamRun R.

Lemma yielded_app (a b : Trace) : yielded (a ++ b) = yielded a ++ yielded b.
Proof. unfold yielded. apply omap_app. Qed.

Lemma yielded_notifyFallback i failed name tr :
  yielded (notifyFallback i failed name tr) = yielded tr.
Proof.
  unfold notifyFallback.
  destruct ((0 <? i) && (0 <? length failed)%nat); [|reflexivity].
  destruct (lastFailure failed); [|reflexivity].
  rewrite yielded_app. simpl. apply app_nil_r.
Qed.

Lemma yielded_yieldAll name (cs : list str) (tr : Trace) :
  yielded (yieldAll name cs tr) = yielded tr ++ map (fun chunk => (chunk, name)) cs.
Proof.
  unfold yieldAll. rewrite yielded_app. f_equal.
  induction cs as [|c cs IH]; simpl; [reflexivity|]. f_equal. exact IH.
Qed.

Lemma streamLoop_shape (cs : list (ModelCandidate M)) :
  forall i attempts failed tr,
    let run := streamLoop now streamText cs i attempts failed tr in
    fst run <> inl NoModelsAvailable /\
    (forall r, fst run = inr r ->
       exists earlier c later log,
         cs = earlier ++ c :: later /\
         s_fallbacksUsed r = i + Z.of_nat (length earlier) /\
         s_modelUsed r = modelName c /\ s_modelConfig r = Executor.config c /\
         s_attempts r = attempts ++ log /\
         map a_modelName log = map modelName (earlier ++ [c]) /\
         map success log = repeat false (length earlier) ++ [true] /\
         ((forall c tr1 tr2, streamText c tr1 = streamText c tr2) ->
          yielded (snd run)
          = yielded tr ++ concat (map (chunksOf streamText) (earlier ++ [c])))) /\
    (forall failed', fst run = inl (AllModelsFailedError failed') ->
       exists errs,
         failed' = failed ++ errs /\
         map fst errs = map modelName cs /\
         Forall (fun ne => shouldFallback (classifyError (snd ne)) = true) errs /\
         ((forall c tr1 tr2, streamText c tr1 = streamText c tr2) ->
          yielded (snd run)
          = yielded tr ++ concat (map (chunksOf streamText) cs))) /\
    (forall e, fst run = inl (Thrown e) ->
       shouldFallback (classifyError e) = false).
Proof.
  induction cs as [|c cs IH]; intros i attempts failed tr; cbv zeta.
  - simpl. split; [discriminate|]. split; [discriminate|]. split; [|discriminate].
    intros failed' H. injection H as <-. exists []. rewrite !app_nil_r.
    repeat split. constructor.
  - simpl streamLoop.
    set (trCall := notifyFallback i failed (modelName c)
                     (tr ++ [OnModelSwitch (modelName c) (0 <? i)])
                   ++ [OnAttempt (modelName c) (provider (Executor.config c)) (i + 1)]).
    set (trEnd := yieldAll (modelName c) (chunks (streamText c trCall))
                           (trCall ++ [Invoke (modelName c)])).
    assert (Hyield : (forall c tr1 tr2, streamText c tr1 = streamText c tr2) ->
                     yielded trEnd = yielded tr ++ chunksOf streamText c).
    { intros Hind. unfold trEnd, trCall, chunksOf.
      rewrite yielded_yieldAll, !yielded_app, yielded_notifyFallback, yielded_app.
      simpl. rewrite !app_nil_r. f_equal. f_equal. f_equal. apply Hind. }
    destruct (ending (streamText c trCall)) as [err|fin].
    + destruct (shouldFallback (classifyError err)) eqn:Hfb; simpl negb; cbv iota.
      * match goal with
        | |- context [streamLoop _ _ _ ?a ?b ?c ?d] =>
            destruct (IH a b c d) as (Hnm & Hok & Hfail & Hthrown)
        end.
        split; [exact Hnm|]. split; [|split; [|exact Hthrown]].
        -- intros r Hr.
           destruct (Hok r Hr)
             as (earlier & c' & later & log & -> & Hu & Hm & Hc & Hlog & Hnames & Hflags & Hy).
           eexists (c :: earlier), c', later, (_ :: log).
           split; [reflexivity|]. split; [simpl length; lia|].
           split; [exact Hm|]. split; [exact Hc|].
           split; [rewrite Hlog, <- app_assoc; reflexivity|].
           split; [simpl; f_equal; exact Hnames|].
           split; [simpl; f_equal; exact Hflags|].
           intros Hind. rewrite (Hy Hind), (Hyield Hind). simpl.
           rewrite <- app_assoc. reflexivity.
        -- intros failed' Hf.
           destruct (Hfail failed' Hf) as (errs & -> & Hnames & Herrs & Hy).
           exists ((modelName c, err) :: errs). rewrite <- app_assoc.
           split; [reflexivity|]. split; [simpl; f_equal; exact Hnames|].
           split; [constructor; [exact Hfb|exact Herrs]|].
           intros Hind. rewrite (Hy Hind), (Hyield Hind). simpl.
           rewrite <- app_assoc. reflexivity.
      * simpl. split; [discriminate|]. split; [discriminate|].
        split; [discriminate|]. intros e He. injection He as <-. exact Hfb.
    + simpl. split; [discriminate|]. split; [|split; discriminate].
      intros r Hr. injection Hr as <-. simpl.
      eexists [], c, cs, [_]. repeat split; try (simpl; lia).
      intros Hind. rewrite yielded_app, (Hyield Hind). simpl.
      rewrite !app_nil_r. reflexivity.
Qed.

(** X22. The attempt log of a completed stream has one entry per
    candidate tried, in order: a failure for each candidate before the
    one that completed and a success for that one, so its length is
    [fallbacksUsed + 1]. *)
Theorem stream_attempt_log (candidates : list (ModelCandidate M)) (tr : Trace)
    (r : StreamResult R) :
  fst (generateStream now streamText candidates tr) = inr r ->
  exists earlier c later,
    candidates = earlier ++ c :: later /\
    s_fallbacksUsed r = Z.of_nat (length earlier) /\
    s_modelUsed r = modelName c /\ s_modelConfig r = Executor.config c /\
    map a_modelName (s_attempts r) = map modelName (earlier ++ [c]) /\
    map success (s_attempts r) = repeat false (length earlier) ++ [true] /\
    Z.of_nat (length (s_attempts r)) = s_fallbacksUsed r + 1.
Proof.
  unfold generateStream. destruct (length candidates =? 0)%nat; [discriminate|].
  intros Hr.
  destruct (streamLoop_shape candidates 0 [] [] tr) as (_ & Hok & _).
  destruct (Hok r Hr)
    as (earlier & c & later & log & E & Hu & Hm & Hc & Hlog & Hnames & Hflags & _).
  simpl in Hlog. rewrite <- Hlog in *.
  exists earlier, c, later.
  split; [exact E|]. split; [lia|]. split; [exact Hm|]. split; [exact Hc|].
  split; [exact Hnames|]. split; [exact Hflags|].
  rewrite Hu. rewrite <- (length_map a_modelName), Hnames, length_map, length_app.
  simpl. lia.
Qed.

(** X23. For streams that do not depend on what happened before, the
    consumer receives the chunks of every candidate tried, in order:
    the chunks a failed candidate produced before its error stay in the
    output and are followed by the chunks of the next candidate from
    its start. *)
Theorem stream_chunks_kept (candidates : list (ModelCandidate M)) (tr : Trace) :
  (forall c tr1 tr2, streamText c tr1 = streamText c tr2) ->
  let run := generateStream now streamText candidates tr in
  (forall r, fst run = inr r ->
     yielded (snd run)
     = yielded tr
       ++ concat (map (chunksOf streamText)
                      (take (Z.to_nat (s_fallbacksUsed r + 1)) candidates))) /\
  (forall failed, fst run = inl (AllModelsFailedError failed) ->
     map fst failed = map modelName candidates /\
     yielded (snd run)
     = yielded tr ++ concat (map (chunksOf streamText) candidates)).
Proof.
  intros Hind. cbv zeta. unfold generateStream.
  destruct (length candidates =? 0)%nat; [split; discriminate|].
  destruct (streamLoop_shape candidates 0 [] [] tr) as (_ & Hok & Hfail & _).
  split.
  - intros r Hr.
    destruct (Hok r Hr)
      as (earlier & c & later & log & -> & Hu & _ & _ & _ & _ & _ & Hy).
    rewrite (Hy Hind), Hu. f_equal. f_equal. f_equal.
    replace (Z.to_nat (0 + Z.of_nat (length earlier) + 1))
      with (length (earlier ++ [c])) by (rewrite length_app; simpl; lia).
    change (earlier ++ c :: later) with (earlier ++ [c] ++ later).
    rewrite app_assoc, take_app_length. reflexivity.
  - intros failed Hf.
    destruct (Hfail failed Hf) as (errs & -> & Hnames & _ & Hy).
    simpl. split; [exact Hnames|]. apply Hy, Hind.
Qed.

End StreamLog.

(** X22, on a stream that fails after two chunks. *)
Lemma stream_attempt_log_witness :
  let r := mkStreamResult (lit "Hello, world") (lit "model-2")
             (mockConfig "provider-2")
             [mkAttempt (lit "model-1") (lit "provider-1") false
                        (Some (newError (lit "Network error"))) 0;
              mkAttempt (lit "model-2") (lit "provider-2") true None 0] 1 in
  fst (generateStream (fun _ => 0) failsMidStream twoCandidates []) = inr r /\
  map success (s_attempts r) = [false; true] /\
  Z.of_nat (length (s_attempts r)) = s_fallbacksUsed r + 1.
Proof.
  intros r.
  assert (Hr : fst (generateStream (fun _ => 0) failsMidStream twoCandidates [])
               = inr r) by (vm_compute; reflexivity).
  split; [exact Hr|].
  destruct (stream_attempt_log (fun _ => 0) failsMidStream twoCandidates [] r Hr)
    as (earlier & c & later & _ & _ & _ & _ & _ & _ & Hlen).
  split; [reflexivity|exact Hlen].
Defined.

(** X23, on a stream that fails after two chunks. *)
Lemma stream_chunks_kept_witness :
  yielded (snd (generateStream (fun _ => 0) failsMidStream twoCandidates []))
  = [ (lit "Hel", lit "model-1"); (lit "lo", lit "model-1");
      (lit "Hello, ", lit "model-2"); (lit "world", lit "model-2") ].
Proof.
  destruct (stream_chunks_kept (fun _ => 0) failsMidStream twoCandidates [])
    as (Hok & _); [reflexivity|].
  destruct (fst (generateStream (fun _ => 0) failsMidStream twoCandidates []))
    as [f|r] eqn:Hr; [vm_compute in Hr; discriminate Hr|].
  rewrite (Hok r eq_refl).
  assert (Hu : s_fallbacksUsed r = 1)
    by (vm_compute in Hr; injection Hr as <-; reflexivity).
  rewrite Hu. reflexivity.
Defined.

(* ================================================================== *)
(** ** Configuration loading *)
(* ================================================================== *)

Section LoaderFacts.

Import Loader.

Variable env : Env.

Lemma takeWhile_app_stop (p : ascii -> bool) (l x : str) (c : ascii) :
  p c = false -> takeWhile p (l ++ c :: x) = takeWhile p l.
Proof.
  intros Hc. induction l as [|y l IH]; simpl.
  - rewrite Hc. reflexivity.
  - destruct (p y); [f_equal; exact IH|reflexivity].
Qed.

Lemma length_takeWhile (p : ascii -> bool) (s : str) :
  (length (takeWhile p s) + length (dropWhile p s) = length s)%nat.
Proof.
  induction s as [|c s IH]; simpl; [reflexivity|].
  destruct (p c); simpl; lia.
Qed.

Lemma length_startsWith (p s : str) :
  startsWith p s = true -> (length p <= length s)%nat.
Proof.
  revert s. induction p as [|x p IH]; intros s H; simpl; [lia|].
  destruct s as [|y s]; [discriminate H|]. simpl in H.
  apply andb_true_iff in H. destruct H as (_ & H). specialize (IH s H). simpl. lia.
Qed.

Lemma envReference_length (s : str) (v : str) (len : nat) :
  envReference s = Some (v, len) -> (2 <= len <= length s)%nat.
Proof.
  unfold envReference. destruct s as [|d r]; [discriminate|].
  destruct (Ascii.eqb d "$"); [|discriminate].
  remember (startsWith (lit "{") r) as brace eqn:Eb.
  assert (Hbrace : ((if brace then 1 else 0)
                    + length (if brace then slice1 r else r) = length r)%nat).
  { destruct brace; [|lia]. destruct r; [discriminate Eb|]. simpl. lia. }
  destruct (if brace then slice1 r else r) as [|c r']; [discriminate|].
  destruct (isIdStart c); [|discriminate].
  remember (startsWith (lit "}") (dropWhile isIdChar r')) as close eqn:Ec.
  intros H. injection H as <- <-.
  pose proof (length_takeWhile isIdChar r') as Hl.
  assert (Hclose : ((if close then 1 else 0) <= length (dropWhile isIdChar r'))%nat).
  { destruct close; [|lia]. symmetry in Ec. apply length_startsWith in Ec. exact Ec. }
  cbn [length] in *. destruct brace, close; lia.
Qed.

Lemma replaceFrom_skip (a b : str) :
  replaceFrom env (length a) (a ++ b) = replaceFrom env 0 b.
Proof. induction a as [|c a IH]; [reflexivity|exact IH]. Qed.

Lemma endsReference_inv (x : ascii) :
  endsReference x = true ->
  isIdChar x = false /\ isIdStart x = false /\
  Ascii.eqb x "$" = Ascii.eqb x "$" /\
  startsWith (lit "{") [x] = false /\ startsWith (lit "}") [x] = false /\
  forall b, startsWith (lit "{") (x :: b) = false /\
            startsWith (lit "}") (x :: b) = false.
Proof.
  unfold endsReference. intros H.
  apply andb_true_iff in H. destruct H as (H & Hclose).
  apply andb_true_iff in H. destruct H as (Hid & Hopen).
  apply negb_true_iff in Hid, Hopen, Hclose.
  assert (Hstart : isIdStart x = false).
  { unfold isIdChar in Hid. apply orb_false_iff in Hid. apply Hid. }
  assert (Hb : forall b, startsWith (lit "{") (x :: b) = false /\
                         startsWith (lit "}") (x :: b) = false).
  { intros b. change (lit "{") with ["{"%char]. change (lit "}") with ["}"%char].
    cbn [startsWith]. rewrite !andb_true_r.
    rewrite (Ascii.eqb_sym "{" x), (Ascii.eqb_sym "}" x). auto. }
  repeat split; try assumption; apply (Hb []).
Qed.

Lemma startsWith_app_stop (q : ascii) (l b : str) (x : ascii) :
  startsWith [q] (x :: b) = false ->
  startsWith [q] (l ++ x :: b) = startsWith [q] l.
Proof.
  intros Hx. destruct l as [|y l]; [exact Hx|]. reflexivity.
Qed.

Lemma envReference_boundary (a b : str) (x : ascii) :
  endsReference x = true -> a <> [] ->
  envReference (a ++ x :: b) = envReference a.
Proof.
  intros Hx Ha. destruct (endsReference_inv x Hx) as (Hid & Hstart & _ & _ & _ & Hb).
  destruct (Hb b) as (Hopen & Hclose).
  destruct a as [|d r]; [congruence|]. simpl app. unfold envReference.
  destruct (Ascii.eqb d "$"); [|reflexivity].
  change (lit "{") with ["{"%char] in *. change (lit "}") with ["}"%char] in *.
  rewrite (startsWith_app_stop _ r b x Hopen).
  destruct (startsWith ["{"%char] r) eqn:Eb.
  - destruct r as [|y r]; [discriminate Eb|]. cbn [app slice1 tl].
    destruct r as [|c r']; cbn [app].
    + rewrite Hstart. reflexivity.
    + destruct (isIdStart c); [|reflexivity].
      rewrite (takeWhile_app_stop _ _ _ _ Hid), (dropWhile_app_stop _ _ _ _ Hid).
      rewrite (startsWith_app_stop _ _ b x Hclose). reflexivity.
  - destruct r as [|c r']; cbn [app].
    + rewrite Hstart. reflexivity.
    + destruct (isIdStart c); [|reflexivity].
      rewrite (takeWhile_app_stop _ _ _ _ Hid), (dropWhile_app_stop _ _ _ _ Hid).
      rewrite (startsWith_app_stop _ _ b x Hclose). reflexivity.
Qed.

Lemma replaceFrom_boundary (b : str) (x : ascii) :
  endsReference x = true ->
  forall (a : str) (skip : nat),
    replaceFrom env skip (a ++ x :: b)
    = replaceFrom env skip a ++ replaceFrom env (skip - length a) (x :: b).
Proof.
  intros Hx. induction a as [|c a IH]; intros skip.
  - simpl app. rewrite Nat.sub_0_r. reflexivity.
  - destruct skip as [|k].
    + change ((c :: a) ++ x :: b) with (c :: (a ++ x :: b)).
      cbn [replaceFrom].
      change (c :: (a ++ x :: b)) with ((c :: a) ++ x :: b).
      rewrite (envReference_boundary (c :: a) b x Hx) by discriminate.
      destruct (envReference (c :: a)) as [[v len]|] eqn:Eref.
      * apply envReference_length in Eref. simpl length in Eref.
        rewrite IH, <- app_assoc.
        replace (len - 1 - length a)%nat with 0%nat by lia. reflexivity.
      * rewrite IH. reflexivity.
    + simpl. apply IH.
Qed.

Lemma replaceFrom_plain (s : str) :
  ~ In "$"%char s -> replaceFrom env 0 s = s.
Proof.
  induction s as [|c s IH]; intros Hn; [reflexivity|].
  cbn [replaceFrom envReference].
  destruct (Ascii.eqb c "$") eqn:Ec.
  - apply Ascii.eqb_eq in Ec. exfalso. apply Hn. left. exact Ec.
  - f_equal. apply IH. intros H. apply Hn. right. exact H.
Qed.

Lemma envReference_named (name open close post : str) :
  isIdentifier name = true ->
  open = [] \/ open = lit "{" ->
  close = [] \/ close = lit "}" ->
  pastReference close post = true ->
  envReference ("$"%char :: open ++ name ++ close ++ post)
  = Some (name, (1 + length open + length name + length close)%nat).
Proof.
  intros Hname Hopen Hclose Hpost.
  destruct name as [|c r]; [discriminate Hname|]. simpl in Hname.
  apply andb_true_iff in Hname. destruct Hname as (Hc & Hr).
  assert (Hbang : startsWith (lit "{") (c :: r ++ close ++ post) = false).
  { change (lit "{") with ["{"%char]. cbn [startsWith]. rewrite andb_true_r.
    destruct (Ascii.eqb "{" c) eqn:E; [|reflexivity].
    apply Ascii.eqb_eq in E. subst c. discriminate Hc. }
  assert (Htake : takeWhile isIdChar (r ++ close ++ post) = r /\
                  dropWhile isIdChar (r ++ close ++ post) = close ++ post).
  { destruct (close ++ post) as [|y rest] eqn:E.
    - rewrite app_nil_r. split; [apply takeWhile_all, Hr|apply dropWhile_all, Hr].
    - assert (Hy : isIdChar y = false).
      { destruct Hclose as [-> | ->].
        - simpl in E. subst post. simpl in Hpost.
          apply andb_true_iff in Hpost. destruct Hpost as (Hy & _).
          apply negb_true_iff in Hy. exact Hy.
        - simpl in E. injection E as <- _. reflexivity. }
      split; [apply takeWhile_app_all; assumption|apply dropWhile_app_all; assumption]. }
  destruct Htake as (Htake & Hdrop).
  assert (Hend : startsWith (lit "}") (close ++ post) = negb (isEmpty close)).
  { destruct Hclose as [-> | ->]; [|reflexivity]. simpl app. simpl isEmpty.
    destruct post as [|y rest]; [reflexivity|]. simpl in Hpost.
    apply andb_true_iff in Hpost. destruct Hpost as (_ & Hy). simpl in Hy.
    apply negb_true_iff in Hy.
    change (lit "}") with ["}"%char]. cbn [startsWith]. rewrite andb_true_r.
    rewrite Ascii.eqb_sym. exact Hy. }
  unfold envReference. cbn [Ascii.eqb Bool.eqb].
  destruct Hopen as [-> | ->].
  - simpl app. rewrite Hbang, Hc, Htake, Hdrop, Hend.
    destruct Hclose as [-> | ->]; simpl; f_equal; f_equal; lia.
  - change (lit "{" ++ (c :: r) ++ close ++ post)
      with ("{"%char :: c :: r ++ close ++ post).
    change (startsWith (lit "{") ("{"%char :: c :: r ++ close ++ post)) with true.
    cbn [slice1 tl]. rewrite Hc, Htake, Hdrop, Hend.
    destruct Hclose as [-> | ->]; simpl; f_equal; f_equal; lia.
Qed.


Lemma strEqb_eq (a b : str) : strEqb a b = true <-> a = b.
Proof.
  revert b. induction a as [|x a IH]; intros [|y b]; simpl;
    try (split; [discriminate|discriminate]); [tauto|].
  rewrite andb_true_iff, Ascii.eqb_eq, IH.
  split; [intros (-> & ->); reflexivity|intros H; injection H; auto].
Qed.

Lemma strEqb_refl (a : str) : strEqb a a = true.
Proof. apply strEqb_eq. reflexivity. Qed.

Lemma strEqb_neq (a b : str) : a <> b -> strEqb a b = false.
Proof.
  intros H. destruct (strEqb a b) eqn:E; [|reflexivity].
  apply strEqb_eq in E. congruence.
Qed.

Lemma getProperty_None {V : Type} (obj : list (str * V)) (k : str) :
  getProperty obj k = None <-> ~ In k (map fst obj).
Proof.
  induction obj as [|[k' v] rest IH]; simpl; [tauto|].
  destruct (strEqb k' k) eqn:E.
  - apply strEqb_eq in E. split; [discriminate|]. intros H. exfalso. auto.
  - rewrite IH. split.
    + intros H [Hk|Hk]; [|auto]. simpl in Hk.
      apply (proj2 (strEqb_eq k' k)) in Hk. congruence.
    + intros H Hk. apply H. right. exact Hk.
Qed.

Lemma setProperty_get {V : Type} (target : list (str * V)) (k k' : str) (v : V) :
  getProperty (setProperty target k v) k'
  = if strEqb k k' then Some v else getProperty target k'.
Proof.
  induction target as [|[k0 v0] rest IH]; simpl.
  - destruct (strEqb k k'); reflexivity.
  - destruct (strEqb k0 k) eqn:E0; simpl.
    + apply strEqb_eq in E0. subst k0. destruct (strEqb k k'); reflexivity.
    + destruct (strEqb k0 k') eqn:E1; [|exact IH].
      apply strEqb_eq in E1. subst k0.
      rewrite (strEqb_neq k k'); [reflexivity|].
      intros ->. rewrite strEqb_refl in E0. discriminate E0.
Qed.

Lemma setProperty_keys {V : Type} (target : list (str * V)) (k : str) (v : V) :
  map fst (setProperty target k v)
  = map fst target ++ (if hasProperty target k then [] else [k]).
Proof.
  unfold hasProperty. induction target as [|[k0 v0] rest IH]; simpl; [reflexivity|].
  destruct (strEqb k0 k) eqn:E0; simpl.
  - rewrite app_nil_r. reflexivity.
  - f_equal. exact IH.
Qed.

Lemma objectAssign_get {V : Type} (source : list (str * V)) :
  NoDup (map fst source) ->
  forall (target : list (str * V)) (k : str),
    getProperty (objectAssign target source) k
    = match getProperty source k with
      | Some v => Some v
      | None => getProperty target k
      end.
Proof.
  unfold objectAssign.
  induction source as [|[k0 v0] rest IH]; intros Hnd target k; simpl; [reflexivity|].
  apply NoDup_cons in Hnd. destruct Hnd as (Hk0 & Hnd).
  rewrite (IH Hnd), setProperty_get.
  destruct (strEqb k0 k) eqn:E; [|reflexivity].
  apply strEqb_eq in E. subst k0.
  assert (Hnone : getProperty rest k = None).
  { apply getProperty_None. intros H. apply Hk0.
    apply (proj2 (list_elem_of_In _ _)). exact H. }
  rewrite Hnone. reflexivity.
Qed.

Lemma objectAssign_keys {V : Type} (source : list (str * V)) :
  NoDup (map fst source) ->
  forall target : list (str * V),
    map fst (objectAssign target source)
    = map fst target
      ++ List.filter (fun k => negb (hasProperty target k)) (map fst source).
Proof.
  unfold objectAssign.
  induction source as [|[k0 v0] rest IH]; intros Hnd target; simpl;
    [symmetry; apply app_nil_r|].
  apply NoDup_cons in Hnd. destruct Hnd as (Hk0 & Hnd).
  rewrite (IH Hnd), setProperty_keys, <- app_assoc. f_equal.
  assert (Hsame : List.filter (fun k => negb (hasProperty (setProperty target k0 v0) k))
                              (map fst rest)
                  = List.filter (fun k => negb (hasProperty target k)) (map fst rest)).
  { apply filter_ext_in. intros k Hk. unfold hasProperty.
    rewrite setProperty_get. destruct (strEqb k0 k) eqn:E; [|reflexivity].
    apply strEqb_eq in E. subst k0. exfalso. apply Hk0.
    apply (proj2 (list_elem_of_In _ _)). exact Hk. }
  rewrite Hsame. destruct (hasProperty target k0); reflexivity.
Qed.

Lemma mergeConfigs_snoc (configs : list Config) (config : Config) :
  mergeConfigs (configs ++ [config]) = mergeInto (mergeConfigs configs) config.
Proof. unfold mergeConfigs. rewrite fold_left_app. reflexivity. Qed.


End LoaderFacts.



Section LoadedRanking.

Variable env : Loader.Env.

Lemma insertSorted_processed (x : RankedModel) (l : list RankedModel) :
  insertSorted byScoreDescending (processRanked env x) (map (processRanked env) l)
  = map (processRanked env) (insertSorted byScoreDescending x l).
Proof.
  induction l as [|y l IH]; simpl; [reflexivity|].
  change (byScoreDescending (processRanked env x) (processRanked env y))
    with (byScoreDescending x y).
  destruct (Qle_bool (byScoreDescending x y) 0); simpl; [reflexivity|].
  f_equal. exact IH.
Qed.

Lemma sort_processed (l : list RankedModel) :
  sort byScoreDescending (map (processRanked env) l)
  = map (processRanked env) (sort byScoreDescending l).
Proof.
  induction l as [|x l IH]; simpl; [reflexivity|].
  rewrite IH. apply insertSorted_processed.
Qed.

Lemma getEnabledModels_processed (al : Aliases) (ms : list (str * ModelConfig)) :
  getEnabledModels
    (mkConfig al (map (fun entry => (fst entry,
                                     Loader.processModelConfig env (snd entry))) ms))
  = map (fun entry => (fst entry, Loader.processModelConfig env (snd entry)))
        (getEnabledModels (mkConfig al ms)).
Proof.
  unfold getEnabledModels. simpl.
  induction ms as [|[k m] ms IH]; simpl; [reflexivity|].
  destruct (enabled m); simpl; [f_equal|]; exact IH.
Qed.

(** X26. Resolving environment variables does not change which models
    are selected: [loadConfig] keeps the names and the order of the
    models, and [rankModels] on the loaded configuration fails or
    succeeds as on the merged one, with the same names and scores in
    the same order. *)
Theorem loadConfig_keeps_ranking
    (Number : str -> option Q) (files : list (option Config)) (cfg : Config)
    (query : str) :
  Loader.loadConfig env files = Some cfg ->
  let merged := Loader.mergeConfigs (omap id files) in
  map fst (models cfg) = map fst (models merged) /\
  match rankModels Number query cfg, rankModels Number query merged with
  | inr loaded, inr plain =>
      loaded = map (processRanked env) plain /\
      map name loaded = map name plain /\
      map normalizedScore loaded = map normalizedScore plain
  | inl e1, inl e2 => e1 = e2
  | _, _ => False
  end.
Proof.
  unfold Loader.loadConfig.
  destruct (length (omap id files) =? 0)%nat; [discriminate|].
  intros H. injection H as <-. cbv zeta.
  set (merged := Loader.mergeConfigs (omap id files)).
  split.
  { simpl. rewrite map_map. reflexivity. }
  unfold rankModels. simpl aliases.
  destruct (parseQuery Number query (aliases merged)) as [e|pq].
  { reflexivity. }
  destruct merged as [al ms]. cbn [aliases models].
  rewrite getEnabledModels_processed, length_map.
  destruct (length (getEnabledModels (mkConfig al ms)) =? 0)%nat;
    [reflexivity|].
  cbv beta iota zeta. rewrite map_map.
  assert (Hmap : map (fun x => rankOne pq (fst x, Loader.processModelConfig env (snd x)))
                     (getEnabledModels (mkConfig al ms))
                 = map (processRanked env)
                       (map (rankOne pq) (getEnabledModels (mkConfig al ms)))).
  { rewrite map_map. reflexivity. }
  rewrite Hmap, sort_processed.
  split; [reflexivity|]. rewrite !map_map. split; reflexivity.
Qed.

End LoadedRanking.

(** X26, on a configuration whose first model reads its key from the
    environment. *)
Lemma loadConfig_keeps_ranking_witness :
  exists cfg,
    Loader.loadConfig keyEnv [None; Some keyedConfig] = Some cfg /\
    map fst (models cfg) = [lit "gpt"; lit "llama"] /\
    match rankModels decimalNumber (lit "local") cfg with
    | inr ranked => map name ranked = [lit "llama"; lit "gpt"]
    | inl _ => False
    end.
Proof.
  destruct (Loader.loadConfig keyEnv [None; Some keyedConfig]) as [cfg|] eqn:Hload;
    [|vm_compute in Hload; discriminate Hload].
  exists cfg. split; [reflexivity|].
  destruct (loadConfig_keeps_ranking keyEnv decimalNumber [None; Some keyedConfig]
              cfg (lit "local") Hload) as (Hnames & Hrank).
  split; [rewrite Hnames; reflexivity|].
  destruct (rankModels decimalNumber (lit "local") cfg) as [e|ranked].
  - destruct (rankModels decimalNumber (lit "local")
                (Loader.mergeConfigs (omap id [None; Some keyedConfig]))) as [e'|plain] eqn:Hp;
      [vm_compute in Hp; discriminate Hp|exact Hrank].
  - destruct (rankModels decimalNumber (lit "local")
                (Loader.mergeConfigs (omap id [None; Some keyedConfig]))) as [e'|plain] eqn:Hp;
      [destruct Hrank|].
    destruct Hrank as (_ & -> & _).
    vm_compute in Hp. injection Hp as <-. reflexivity.
Defined.

(* ================================================================== *)
(** ** Generation end to end *)
(* ================================================================== *)

Section PipelineFacts.

Context {L E T : Type}.
Variable Number : str -> option Q.
Variable createLanguageModel : ModelConfig -> E + L.
Variable now : Trace -> Z.
Variable fn : ModelCandidate L -> Trace -> Settled T.

Lemma promiseAll_Some {A B : Type} (f : A -> E + B) (l : list A) :
  forall ys, Selection.promiseAll f l = Some ys ->
             Forall2 (fun x y => f x = inr y) l ys.
Proof.
  induction l as [|x l IH]; intros ys H; simpl in H.
  - injection H as <-. constructor.
  - destruct (f x) as [e|y] eqn:Hx; [discriminate|].
    destruct (Selection.promiseAll f l) as [ys'|]; [|discriminate].
    injection H as <-. constructor; [exact Hx|apply IH; reflexivity].
Qed.

Lemma sorted_lookup_before {A : Type} (R : A -> A -> Prop) (l : list A) :
  StronglySorted R l ->
  forall (k : nat) (b : A), l !! k = Some b -> Forall (fun a => R a b) (take k l).
Proof.
  intros Hs. induction Hs as [|x l Hs IH Hall]; intros k b Hk; [discriminate Hk|].
  destruct k as [|k]; simpl; [constructor|].
  simpl in Hk. constructor; [|apply IH, Hk].
  rewrite List.Forall_forall in Hall. apply Hall.
  apply (proj1 (list_elem_of_In _ _)). eapply list_elem_of_lookup_2, Hk.
Qed.


End PipelineFacts.

